(** * chathibri: the PDF chunking and table-extraction pipeline

    A shallow embedding of
      - [backend/services/pdf_processing_service.py] (text extraction,
        whitespace normalisation, natural-break search, chunking), and
      - [backend/services/s3_pdf_processor.py] (parsing of model output,
        CSV export, Delta snapshots and their log, cash-flow projection),
      - [backend/services/chromadb_client.py] and
        [backend/services/dynamodb_service.py] (what processing a document
        sends to the two stores),
    followed by the properties of these functions.

    Python [str] values are modelled as [list ascii], one [ascii] per code
    point (so the model covers Latin-1 text); Python [int] values as [Z];
    floats as exact rationals; dictionaries whose iteration order matters
    as association lists; the S3 bucket as a finite map from keys to
    objects. An exception is an explicit outcome ([None] or a
    constructor of its own) wherever the source can raise one. Calls of
    an S3 or Glue client that exists are modelled as succeeding, except
    the writes of the CSV exports, whose failures are a parameter; what
    the Python runtime computes outside the repository (digests, hashes,
    file sizes, the text of a float, the clock) is a parameter. *)

From Stdlib Require Import ZArith List Ascii String Bool Lia QArith DecimalString
  DecimalZ DecimalPos.
From stdpp Require Import gmap strings.
Import ListNotations.

Local Open Scope Z_scope.
Local Open Scope list_scope.

(** ** Python strings *)

Module PyStr.

Abbreviation str := (list ascii).

(** String literals. *)
Definition lit (s : string) : str := list_ascii_of_string s.

Definition len (s : str) : Z := Z.of_nat (List.length s).

Definition NL : ascii := ascii_of_nat 10.
Definition SP : ascii := ascii_of_nat 32.

(** [str.isspace] on one code point below 256: TAB..CR, FS..US, space,
    NEL and NBSP. The same test decides [\s] in [re]. *)
Definition is_space (c : ascii) : bool :=
  let n := nat_of_ascii c in
  (((9 <=? n) && (n <=? 13)) || ((28 <=? n) && (n <=? 32))
   || (n =? 133) || (n =? 160))%nat.

Definition is_newline (c : ascii) : bool := Ascii.eqb c NL.

(** [s.lstrip()], [s.rstrip()] and [s.strip()]. *)
Fixpoint lstrip (s : str) : str :=
  match s with
  | [] => []
  | c :: s' => if is_space c then lstrip s' else s
  end.

Definition rstrip (s : str) : str := rev' (lstrip (rev' s)).

Definition strip (s : str) : str := lstrip (rstrip s).

(** [s[i:j]] for arbitrary integers: a negative index counts from the end,
    and both ends are clamped to the string. *)
Definition clamp_index (n i : Z) : Z :=
  if i <? 0 then Z.max (i + n) 0 else Z.min i n.

Definition slice (s : str) (i j : Z) : str :=
  let a := clamp_index (len s) i in
  let b := clamp_index (len s) j in
  firstn (Z.to_nat (b - a)) (skipn (Z.to_nat a) s).

(** [s[i]]; [None] stands for [IndexError]. *)
Definition index (s : str) (i : Z) : option ascii :=
  if (i <? - len s) || (len s <=? i) then None
  else nth_error s (Z.to_nat (if i <? 0 then i + len s else i)).

(** [s.startswith(p)]. *)
Fixpoint startswith (s p : str) {struct p} : bool :=
  match p, s with
  | [], _ => true
  | _ :: _, [] => false
  | a :: p', b :: s' => Ascii.eqb a b && startswith s' p'
  end.

(** Offset of the first occurrence of [sub] in [s], counted from [i]. *)
Fixpoint find_from (i : nat) (s sub : str) : option nat :=
  if startswith s sub then Some i
  else match s with
       | [] => None
       | _ :: s' => find_from (S i) s' sub
       end.

(** [s.find(sub)]: the lowest offset of [sub] in [s], or [-1]. *)
Definition find (s sub : str) : Z :=
  match find_from 0 s sub with
  | Some i => Z.of_nat i
  | None => -1
  end.

(** Offset of the last occurrence of [sub] in [s], counted from [i]. *)
Fixpoint rfind_from (i : nat) (s sub : str) : option nat :=
  match s with
  | [] => if startswith [] sub then Some i else None
  | _ :: s' =>
      match rfind_from (S i) s' sub with
      | Some j => Some j
      | None => if startswith s sub then Some i else None
      end
  end.

(** [s.rfind(sub)]: the highest offset of [sub] in [s], or [-1]. *)
Definition rfind (s sub : str) : Z :=
  match rfind_from 0 s sub with
  | Some i => Z.of_nat i
  | None => -1
  end.

(** [sub in s]. *)
Definition contains (s sub : str) : bool :=
  match find_from 0 s sub with Some _ => true | None => false end.

(** [s.lower()] on Latin-1 code points. *)
Definition lower_char (c : ascii) : ascii :=
  let n := nat_of_ascii c in
  if (((65 <=? n) && (n <=? 90))
      || ((192 <=? n) && (n <=? 222) && negb (n =? 215)))%nat
  then ascii_of_nat (n + 32) else c.

Definition lower (s : str) : str := map lower_char s.

(** [len(s.split())]: the number of maximal runs of non-space characters. *)
Fixpoint count_words (in_word : bool) (s : str) : Z :=
  match s with
  | [] => 0
  | c :: s' =>
      if is_space c then count_words false s'
      else (if in_word then 0 else 1) + count_words true s'
  end.

Definition word_count (s : str) : Z := count_words false s.

End PyStr.

(** ** [pdf_processing_service.py] *)

Module Chunker.
Import PyStr.

(** The chunking attributes that [PDFProcessingService.__init__] sets. *)
Record config := {
  chunk_size : Z;
  chunk_overlap : Z;
  min_chunk_size : Z
}.

Definition init_config : config :=
  {| chunk_size := 1000; chunk_overlap := 200; min_chunk_size := 100 |}.

(** *** [extract_text_from_pdf] *)

(** What [page.extract_text()] does on one page: it returns the text or
    raises an exception with a message. *)
Inductive page_outcome :=
| Extracted (page_text : str)
| Raised (message : str).

(** What opening the file and building the [PdfReader] does. *)
Inductive pdf :=
| Unreadable (message : str)
| Readable (pdf_pages : list page_outcome).

Record page_info := {
  page_number : Z;
  text : str;
  char_count : Z;
  word_count : Z;
  page_error : option str
}.

Record extraction := {
  success : bool;
  error : option str;
  full_text : str;
  pages : list page_info;
  page_count : Z;
  total_chars : Z;
  total_words : Z
}.

(** The body of the loop over [enumerate(pdf_reader.pages)]; the state is
    the pair [(text, pages_info)]. *)
Definition extract_page (page_num : Z) (page : page_outcome)
  (acc : str * list page_info) : str * list page_info :=
  let '(text, pages_info) := acc in
  match page with
  | Extracted page_text =>
      (text ++ page_text ++ [NL; NL],
       pages_info ++ [{| page_number := page_num + 1;
                         text := page_text;
                         char_count := len page_text;
                         word_count := match page_text with
                                       | [] => 0
                                       | _ => PyStr.word_count page_text
                                       end;
                         page_error := None |}])
  | Raised e =>
      (text,
       pages_info ++ [{| page_number := page_num + 1;
                         text := [];
                         char_count := 0;
                         word_count := 0;
                         page_error := Some e |}])
  end.

Fixpoint extract_pages (page_num : Z) (ps : list page_outcome)
  (acc : str * list page_info) : str * list page_info :=
  match ps with
  | [] => acc
  | page :: ps' => extract_pages (page_num + 1) ps' (extract_page page_num page acc)
  end.

Definition extract_text_from_pdf (doc : pdf) : extraction :=
  match doc with
  | Readable ps =>
      let '(text, pages_info) := extract_pages 0 ps ([], []) in
      {| success := true;
         error := None;
         full_text := strip text;
         pages := pages_info;
         page_count := Z.of_nat (List.length ps);
         total_chars := len text;
         total_words := match text with [] => 0 | _ => PyStr.word_count text end |}
  | Unreadable e =>
      {| success := false;
         error := Some e;
         full_text := [];
         pages := [];
         page_count := 0;
         total_chars := 0;
         total_words := 0 |}
  end.

(** *** [_clean_text] *)

(** [re.sub(r'\s+', ' ', text)]: every maximal run of whitespace becomes
    one space. [in_run] tells that the previous character was whitespace. *)
Fixpoint sub_space_runs (in_run : bool) (s : str) : str :=
  match s with
  | [] => []
  | c :: s' =>
      if is_space c
      then (if in_run then sub_space_runs true s' else SP :: sub_space_runs true s')
      else c :: sub_space_runs false s'
  end.

(** Offset of the last newline inside the whitespace run that starts [s]. *)
Fixpoint last_newline_in_run (s : str) : option nat :=
  match s with
  | [] => None
  | c :: s' =>
      if is_space c then
        match last_newline_in_run s' with
        | Some j => Some (S j)
        | None => if is_newline c then Some O else None
        end
      else None
  end.

(** [re.sub(r'\n\s*\n', '\n\n', text)]: a newline, the longest
    whitespace that still leaves a newline to close the match, and that
    newline, become two newlines. [skip] counts the characters of the
    current match that are still to be consumed. *)
Fixpoint sub_blank_lines (skip : nat) (s : str) : str :=
  match s with
  | [] => []
  | c :: s' =>
      match skip with
      | S k => sub_blank_lines k s'
      | O =>
          if is_newline c then
            match last_newline_in_run s' with
            | Some j => NL :: NL :: sub_blank_lines (S j) s'
            | None => c :: sub_blank_lines 0 s'
            end
          else c :: sub_blank_lines 0 s'
      end
  end.

Definition _clean_text (text : str) : str :=
  let text := sub_space_runs false text in
  let text := sub_blank_lines 0 text in
  strip text.

(** *** [_find_natural_break] *)

Definition break_chars : list str :=
  [ [NL; NL];
    lit ". "; lit "." ++ [NL];
    lit "! "; lit "!" ++ [NL];
    lit "? "; lit "?" ++ [NL];
    lit "; "; lit ";" ++ [NL];
    lit ": "; lit ":" ++ [NL];
    lit ", "; lit "," ++ [NL] ].

(** [distance < best_distance], where [None] is [float('inf')]. *)
Definition closer (distance : Z) (best_distance : option Z) : bool :=
  match best_distance with
  | None => true
  | Some b => distance <? b
  end.

(** The body of the loop over [break_chars]; the state is the pair
    [(best_pos, best_distance)]. *)
Definition consider_break (search_text : str) (search_start preferred_end : Z)
  (best : option Z * option Z) (break_char : str) : option Z * option Z :=
  let pos := find search_text break_char in
  if pos =? -1 then best
  else
    let absolute_pos := search_start + pos + len break_char in
    let distance := Z.abs (absolute_pos - preferred_end) in
    if closer distance (snd best) then (Some absolute_pos, Some distance) else best.

(** The loop [for i in range(preferred_end, search_start - 1, -1)], with
    [steps] positions left to visit from [i] downwards. The outer [None] is
    an [IndexError] raised by [text[i]]. *)
Fixpoint nearest_space (text : str) (i : Z) (steps : nat) : option (option Z) :=
  match steps with
  | O => Some None
  | S k =>
      if i <? len text then
        match index text i with
        | None => None
        | Some c =>
            if Ascii.eqb c SP then Some (Some (i + 1))
            else nearest_space text (i - 1) k
        end
      else nearest_space text (i - 1) k
  end.

Definition search_window (start preferred_end : Z) : Z :=
  Z.min 50 ((preferred_end - start) / 2).

Definition _find_natural_break (text : str) (start preferred_end : Z) : Z :=
  if len text <=? preferred_end then len text
  else if preferred_end <=? start then preferred_end
  else
    let search_window := search_window start preferred_end in
    let search_start := Z.max (preferred_end - search_window) start in
    let search_end := Z.min (preferred_end + search_window) (len text) in
    let search_text := slice text search_start search_end in
    let '(best_pos, _) :=
      fold_left (consider_break search_text search_start preferred_end)
                break_chars (None, None) in
    match best_pos with
    | Some p => p
    | None =>
        match nearest_space text preferred_end
                (Z.to_nat (preferred_end - (search_start - 1))) with
        | Some (Some p) => p
        | Some None => preferred_end
        | None => preferred_end      (* [except Exception] *)
        end
    end.

(** *** [create_text_chunks] *)

Record chunk := {
  chunk_text : str;
  chunk_index : Z;
  start_char : Z;
  end_char : Z;
  chunk_char_count : Z;
  chunk_word_count : Z;
  pdf_name : str
}.

(** The variables that the [while] loop updates. *)
Record loop_state := {
  chunks : list chunk;
  next_index : Z;
  start : Z;
  iteration_count : Z
}.

Definition max_iterations (text : str) : Z := len text / 100 + 100.

Definition loop_cond (text : str) (st : loop_state) : bool :=
  (start st <? len text) && (iteration_count st <? max_iterations text).

(** The end of the chunk that starts at [start]. The search for a break
    handles its own exceptions, so the [except] branch of the caller is
    never taken. *)
Definition chunk_end (cfg : config) (text : str) (start : Z) : Z :=
  let end_ := start + chunk_size cfg in
  if end_ <? len text then _find_natural_break text start end_ else len text.

(** The start of the next chunk: back by the overlap, not below zero,
    forced forward when that does not pass the old start, and moved to
    the end of the chunk when it has passed it inside the text. *)
Definition next_start (cfg : config) (text : str) (old_start end_ : Z) : Z :=
  let start := end_ - chunk_overlap cfg in
  let start := if start <? 0 then 0 else start in
  let start :=
    if start <=? old_start
    then old_start + Z.max 1 (chunk_size cfg / 2)
    else start in
  if (end_ <=? start) && (end_ <? len text) then end_ else start.

(** One iteration of the loop. *)
Definition loop_body (cfg : config) (text name : str) (st : loop_state)
  : loop_state :=
  let end_ := chunk_end cfg text (start st) in
  let chunk_text := strip (slice text (start st) end_) in
  let emit := min_chunk_size cfg <=? len chunk_text in
  {| chunks :=
       if emit
       then chunks st ++ [{| chunk_text := chunk_text;
                             chunk_index := next_index st;
                             start_char := start st;
                             end_char := end_;
                             chunk_char_count := len chunk_text;
                             chunk_word_count := PyStr.word_count chunk_text;
                             pdf_name := name |}]
       else chunks st;
     next_index := if emit then next_index st + 1 else next_index st;
     start := next_start cfg text (start st) end_;
     iteration_count := iteration_count st + 1 |}.

(** [while cond: body], run for at most [fuel] tests of the condition;
    [None] when the fuel runs out before the condition fails. *)
Fixpoint while_loop {S : Type} (cond : S -> bool) (body : S -> S)
  (fuel : nat) (st : S) : option S :=
  match fuel with
  | O => None
  | Datatypes.S fuel' =>
      if cond st then while_loop cond body fuel' (body st) else Some st
  end.

Definition init_state : loop_state :=
  {| chunks := []; next_index := 0; start := 0; iteration_count := 0 |}.

Definition whole_text_chunk (text name : str) : chunk :=
  {| chunk_text := text;
     chunk_index := 0;
     start_char := 0;
     end_char := len text;
     chunk_char_count := len text;
     chunk_word_count := PyStr.word_count text;
     pdf_name := name |}.

(** The function with a bound on the tests of the loop condition.
    Nothing in it raises, so the handler that returns the empty list is
    never entered. *)
Definition create_text_chunks_fuel (fuel : nat) (cfg : config)
  (text name : str) : option (list chunk) :=
  let text := _clean_text text in
  if len text <? min_chunk_size cfg then Some [whole_text_chunk text name]
  else
    option_map chunks
      (while_loop (loop_cond text) (loop_body cfg text name) fuel init_state).

(** One test of the loop condition more than the cap on iterations. *)
Definition enough_fuel (text : str) : nat :=
  Datatypes.S (Z.to_nat (max_iterations (_clean_text text))).

Definition create_text_chunks (cfg : config) (text name : str) : list chunk :=
  match create_text_chunks_fuel (enough_fuel text) cfg text name with
  | Some chunks => chunks
  | None => []
  end.

End Chunker.

(** ** JSON values and [json.loads] *)

Module Json.
Import PyStr.

#[local] Set Warnings "-register-all".

Inductive json :=
| JNull
| JBool (b : bool)
| JInt (n : Z)
| JFloat (lexeme : str)
| JString (s : str)
| JArray (items : list json)
| JObject (members : list (str * json)).

(** What a call of [json.loads] does: it returns a value, raises
    [json.JSONDecodeError], or raises some other exception. *)
Inductive loads_result :=
| Parsed (v : json)
| JSONDecodeError
| OtherException.

(** A decoder for JSON documents, standing for CPython's [json.loads]
    in the examples: the literals, numbers, strings with the
    one-character escapes and [\\u00XX], arrays and objects. A document
    nested deeper than [recursion_limit] raises [RecursionError], which
    is not a [JSONDecodeError]. It is not CPython's decoder in every
    respect: the members of an object are kept as written, also when a
    key is repeated, integers of any length are read, an escape above
    [\\u00FF] is refused, and the depth at which CPython gives up
    varies. The properties of [parse_ai_response] hold for every
    decoder; this one is used at the examples only. *)

Inductive parsed (A : Type) :=
| Ok (a : A) (rest : str)
| Bad
| TooDeep.
Arguments Ok {A} a rest.
Arguments Bad {A}.
Arguments TooDeep {A}.

Definition DQ : ascii := ascii_of_nat 34.
Definition BACKSLASH : ascii := ascii_of_nat 92.

Definition is_json_ws (c : ascii) : bool :=
  let n := nat_of_ascii c in
  ((n =? 32) || (n =? 9) || (n =? 10) || (n =? 13))%nat.

Fixpoint skip_ws (s : str) : str :=
  match s with
  | c :: s' => if is_json_ws c then skip_ws s' else s
  | [] => []
  end.

Definition is_digit (c : ascii) : bool :=
  let n := nat_of_ascii c in ((48 <=? n) && (n <=? 57))%nat.

Fixpoint span_digits (s : str) : str * str :=
  match s with
  | c :: s' =>
      if is_digit c then let '(ds, r) := span_digits s' in (c :: ds, r)
      else ([], s)
  | [] => ([], [])
  end.

Definition digits_value (ds : str) : Z :=
  fold_left (fun acc c => 10 * acc + (Z.of_nat (nat_of_ascii c) - 48)) ds 0.

Definition hex_value (c : ascii) : option nat :=
  let n := nat_of_ascii c in
  if ((48 <=? n) && (n <=? 57))%nat then Some (n - 48)%nat
  else if ((65 <=? n) && (n <=? 70))%nat then Some (n - 55)%nat
  else if ((97 <=? n) && (n <=? 102))%nat then Some (n - 87)%nat
  else None.

(** The characters of a string literal after its opening quote. *)
Fixpoint parse_string (s : str) (acc : str) : parsed str :=
  match s with
  | [] => Bad
  | c :: s' =>
      if Ascii.eqb c DQ then Ok (rev' acc) s'
      else if Ascii.eqb c BACKSLASH then
        match s' with
        | e :: s'' =>
            let simple (x : ascii) := parse_string s'' (x :: acc) in
            if Ascii.eqb e DQ then simple DQ
            else if Ascii.eqb e BACKSLASH then simple BACKSLASH
            else if Ascii.eqb e "/" then simple "/"%char
            else if Ascii.eqb e "b" then simple (ascii_of_nat 8)
            else if Ascii.eqb e "f" then simple (ascii_of_nat 12)
            else if Ascii.eqb e "n" then simple (ascii_of_nat 10)
            else if Ascii.eqb e "r" then simple (ascii_of_nat 13)
            else if Ascii.eqb e "t" then simple (ascii_of_nat 9)
            else if Ascii.eqb e "u" then
              match s'' with
              | "0"%char :: "0"%char :: h1 :: h2 :: s3 =>
                  match hex_value h1, hex_value h2 with
                  | Some a, Some b => parse_string s3 (ascii_of_nat (16 * a + b) :: acc)
                  | _, _ => Bad
                  end
              | _ => Bad
              end
            else Bad
        | [] => Bad
        end
      else if (nat_of_ascii c <? 32)%nat then Bad
      else parse_string s' (c :: acc)
  end.

(** A number: an optional minus sign; an integer part that is [0] or
    starts with a non-zero digit; optionally a point and digits;
    optionally an exponent. Without fraction and exponent it is an
    integer, otherwise a float kept as written. *)
Definition parse_number (s : str) : parsed json :=
  let '(neg, s1) := match s with
                    | "-"%char :: r => (true, r)
                    | _ => (false, s)
                    end in
  let '(int_part, s2) :=
    match s1 with
    | "0"%char :: r => (["0"%char], r)
    | _ => span_digits s1
    end in
  match int_part with
  | [] => Bad
  | _ =>
      let '(frac, s3) :=
        match s2 with
        | "."%char :: r =>
            match span_digits r with
            | ([], _) => ([], s2)
            | (ds, r') => ("."%char :: ds, r')
            end
        | _ => ([], s2)
        end in
      let '(expo, s4) :=
        match s3 with
        | e :: r =>
            if Ascii.eqb e "e" || Ascii.eqb e "E" then
              let '(sign, r1) := match r with
                                 | "+"%char :: r1 => (["+"%char], r1)
                                 | "-"%char :: r1 => (["-"%char], r1)
                                 | _ => ([], r)
                                 end in
              match span_digits r1 with
              | ([], _) => ([], s3)
              | (ds, r') => (e :: sign ++ ds, r')
              end
            else ([], s3)
        | [] => ([], s3)
        end in
      match frac, expo with
      | [], [] =>
          Ok (JInt (if neg then - digits_value int_part else digits_value int_part)) s4
      | _, _ =>
          Ok (JFloat ((if neg then ["-"%char] else []) ++ int_part ++ frac ++ expo)) s4
      end
  end.

Definition parse_literal (s : str) : parsed json :=
  let keyword (k : string) (v : json) (otherwise : parsed json) :=
    if startswith s (lit k)
    then Ok v (skipn (List.length (lit k)) s) else otherwise in
  keyword "null" JNull
    (keyword "true" (JBool true)
       (keyword "false" (JBool false)
          (keyword "NaN" (JFloat (lit "NaN"))
             (keyword "Infinity" (JFloat (lit "Infinity"))
                (keyword "-Infinity" (JFloat (lit "-Infinity"))
                   (parse_number s)))))).

(** A value at the head of [s]; [depth] is the number of array and
    object levels that may still be entered. *)
Fixpoint parse_value (depth : nat) (s : str) {struct depth} : parsed json :=
  match s with
  | [] => Bad
  | c :: s1 =>
      if Ascii.eqb c DQ then
        match parse_string s1 [] with
        | Ok v r => Ok (JString v) r
        | Bad => Bad
        | TooDeep => TooDeep
        end
      else if Ascii.eqb c "[" then
        match depth with
        | O => TooDeep
        | S d =>
            match skip_ws s1 with
            | "]"%char :: r => Ok (JArray []) r
            | s2 =>
                (fix items (n : nat) (s : str) (acc : list json) : parsed json :=
                   match n with
                   | O => Bad
                   | S n' =>
                       match parse_value d s with
                       | Ok v r =>
                           match skip_ws r with
                           | ","%char :: r' => items n' (skip_ws r') (acc ++ [v])
                           | "]"%char :: r' => Ok (JArray (acc ++ [v])) r'
                           | _ => Bad
                           end
                       | Bad => Bad
                       | TooDeep => TooDeep
                       end
                   end) (List.length s2) s2 []
            end
        end
      else if Ascii.eqb c "{" then
        match depth with
        | O => TooDeep
        | S d =>
            match skip_ws s1 with
            | "}"%char :: r => Ok (JObject []) r
            | s2 =>
                (fix members (n : nat) (s : str) (acc : list (str * json))
                   : parsed json :=
                   match n with
                   | O => Bad
                   | S n' =>
                       match s with
                       | q :: s3 =>
                           if Ascii.eqb q DQ then
                             match parse_string s3 [] with
                             | Ok k r =>
                                 match skip_ws r with
                                 | ":"%char :: r1 =>
                                     match parse_value d (skip_ws r1) with
                                     | Ok v r2 =>
                                         match skip_ws r2 with
                                         | ","%char :: r' =>
                                             members n' (skip_ws r') (acc ++ [(k, v)])
                                         | "}"%char :: r' =>
                                             Ok (JObject (acc ++ [(k, v)])) r'
                                         | _ => Bad
                                         end
                                     | Bad => Bad
                                     | TooDeep => TooDeep
                                     end
                                 | _ => Bad
                                 end
                             | Bad => Bad
                             | TooDeep => TooDeep
                             end
                           else Bad
                       | [] => Bad
                       end
                   end) (List.length s2) s2 []
            end
        end
      else parse_literal s
  end.

Definition loads (recursion_limit : nat) (s : str) : loads_result :=
  match parse_value recursion_limit (skip_ws s) with
  | Ok v rest =>
      match skip_ws rest with
      | [] => Parsed v
      | _ => JSONDecodeError
      end
  | Bad => JSONDecodeError
  | TooDeep => OtherException
  end.

End Json.

(** ** [s3_pdf_processor.py]: parsing the model's answer *)

Module Extractor.
Import PyStr Json.

(** [s.split(sep)] for a non-empty [sep]. [skip] counts the characters of
    the separator just matched that are still to be consumed, and [cur]
    holds the current piece in reverse. *)
Fixpoint split_aux (skip : nat) (cur : str) (s sep : str) : list str :=
  match s with
  | [] => [rev' cur]
  | c :: s' =>
      match skip with
      | S k => split_aux k cur s' sep
      | O =>
          if startswith s sep
          then rev' cur :: split_aux (List.length sep - 1) [] s' sep
          else split_aux 0 (c :: cur) s' sep
      end
  end.

Definition split (s sep : str) : list str := split_aux 0 [] s sep.

(** [re.findall(r'\\[.*?\\]', s, re.DOTALL)]: from each opening bracket
    to the first closing bracket after it, without overlap. [cur] holds
    the block being read, in reverse. *)
Fixpoint bracket_blocks (cur : option str) (s : str) : list str :=
  match s with
  | [] => []
  | c :: s' =>
      match cur with
      | None =>
          if Ascii.eqb c "[" then bracket_blocks (Some [c]) s'
          else bracket_blocks None s'
      | Some acc =>
          if Ascii.eqb c "]" then rev' (c :: acc) :: bracket_blocks None s'
          else bracket_blocks (Some (c :: acc)) s'
      end
  end.

Definition findall_bracket_blocks (s : str) : list str := bracket_blocks None s.

Definition FENCE : str := lit "```".
Definition JSON_FENCE : str := lit "```json".

(** The text inside the fence, [None] when an index is out of range
    ([IndexError]). *)
Definition remove_markdown (response_text : str) : option str :=
  if contains response_text JSON_FENCE then
    match nth_error (split response_text JSON_FENCE) 1 with
    | Some inner => nth_error (split inner FENCE) 0
    | None => None
    end
  else if contains response_text FENCE then
    match nth_error (split response_text FENCE) 1 with
    | Some inner => nth_error (split inner FENCE) 0
    | None => None
    end
  else Some response_text.

Definition json_candidates (response_text : str) : list str :=
  let json_start := find response_text (lit "[") in
  let json_end := rfind response_text (lit "]") + 1 in
  (if (0 <=? json_start) && (json_start <? json_end)
   then [slice response_text json_start json_end] else [])
  ++ findall_bracket_blocks response_text.

(** The loop over the candidates. A decode error moves on to the next
    candidate; any other exception leaves the loop and is caught by the
    handler of the whole function, which returns the empty list. *)
Fixpoint try_candidates (json_loads : str -> loads_result)
  (candidates : list str) : list json :=
  match candidates with
  | [] => []
  | json_text :: rest =>
      match json_loads json_text with
      | Parsed (JArray (row :: rows)) => row :: rows
      | Parsed _ => try_candidates json_loads rest
      | JSONDecodeError => try_candidates json_loads rest
      | OtherException => []
      end
  end.

Definition parse_ai_response (json_loads : str -> loads_result)
  (response_text : str) : list json :=
  match remove_markdown response_text with
  | None => []
  | Some response_text =>
      let response_text := strip response_text in
      try_candidates json_loads (json_candidates response_text)
  end.

End Extractor.

(** ** [s3_pdf_processor.py]: tables *)

Module Tables.
Import PyStr.

(** A value held by a table cell or by a row dictionary. Floats are
    modelled by exact rationals; [CNaN] is pandas' missing value. *)
Inductive cell :=
| CNone
| CNaN
| CBool (b : bool)
| CInt (n : Z)
| CFloat (x : Q)
| CStr (s : str).

(** A [pandas.DataFrame]: the column labels and, for each row, one cell
    per column. *)
Record dataframe := {
  columns : list str;
  rows : list (list cell)
}.

(** [pd.DataFrame()] *)
Definition empty_frame : dataframe := {| columns := []; rows := [] |}.

(** [df.empty]: some axis has length zero. *)
Definition df_empty (df : dataframe) : bool :=
  match columns df, rows df with
  | [], _ => true
  | _, [] => true
  | _, _ => false
  end.

(** [pd.DataFrame(records)] for a list of dictionaries that all have the
    keys [cols], in that order. *)
Definition from_records (cols : list str) (records : list (list cell))
  : dataframe :=
  match records with
  | [] => empty_frame
  | _ => {| columns := cols; rows := records |}
  end.

(** An extracted-tables dictionary, in insertion order. *)
Abbreviation tables := (list (str * dataframe)).

(** [d.get(key)] *)
Fixpoint get (d : tables) (key : str) : option dataframe :=
  match d with
  | [] => None
  | (k, df) :: d' => if bool_decide (k = key) then Some df else get d' key
  end.

(** [key in d] *)
Definition has_key (d : tables) (key : str) : bool :=
  match get d key with Some _ => true | None => false end.

Fixpoint position (cols : list str) (label : str) : option nat :=
  match cols with
  | [] => None
  | c :: cols' =>
      if bool_decide (c = label) then Some O
      else option_map S (position cols' label)
  end.

(** [row.get(label, default)] for a row of a frame with columns [cols]. *)
Definition row_get (cols : list str) (row : list cell) (label : str)
  (default : cell) : cell :=
  match position cols label with
  | Some i => nth i row CNaN
  | None => default
  end.

(** [df[label] = value_of(row)]: the column is overwritten where it
    exists and appended otherwise. *)
Fixpoint replace_nth (i : nat) (v : cell) (row : list cell) : list cell :=
  match i, row with
  | O, _ :: row' => v :: row'
  | S i', c :: row' => c :: replace_nth i' v row'
  | _, [] => []
  end.

Definition set_column (df : dataframe) (label : str)
  (value_of : list cell -> cell) : dataframe :=
  match position (columns df) label with
  | Some i =>
      {| columns := columns df;
         rows := map (fun row => replace_nth i (value_of row) row) (rows df) |}
  | None =>
      {| columns := columns df ++ [label];
         rows := map (fun row => row ++ [value_of row]) (rows df) |}
  end.

Definition set_constant (df : dataframe) (label : str) (v : cell) : dataframe :=
  set_column df label (fun _ => v).

(** [bool(v)] *)
Definition truthy (v : cell) : bool :=
  match v with
  | CNone => false
  | CNaN => true
  | CBool b => b
  | CInt n => negb (n =? 0)
  | CFloat x => negb (Qeq_bool x 0)
  | CStr s => match s with [] => false | _ => true end
  end.

(** [v == 0] *)
Definition equals_zero (v : cell) : bool :=
  match v with
  | CBool b => negb b
  | CInt n => n =? 0
  | CFloat x => Qeq_bool x 0
  | _ => false
  end.

(** The decimal text of an integer. *)
Definition int_str (n : Z) : str :=
  lit (DecimalString.NilZero.string_of_int (Z.to_int n)).

(** What the Python runtime and its libraries compute and this model
    takes as given: the text of a float, the first eight hexadecimal
    digits of the MD5 digest of a frame's CSV text, the [hash] of a row's
    text, the size of a frame's Parquet file and the text of its column
    statistics. *)
Record pylib := {
  float_str : Q -> str;
  content_hash : dataframe -> str;
  row_hash : list cell -> Z;
  parquet_size : dataframe -> Z;
  column_stats : dataframe -> str
}.

(** [str(v)] *)
Definition cell_str (lib : pylib) (v : cell) : str :=
  match v with
  | CNone => lit "None"
  | CNaN => lit "nan"
  | CBool true => lit "True"
  | CBool false => lit "False"
  | CInt n => int_str n
  | CFloat x => float_str lib x
  | CStr s => s
  end.

(** [s.replace(',', '.')] *)
Definition commas_to_points (s : str) : str :=
  map (fun c => if Ascii.eqb c "," then "."%char else c) s.

(** The first match of [\d+\.?\d*] in [s], as integer digits and
    fraction digits. *)
Fixpoint first_number_lexeme (s : str) : option (str * str) :=
  match s with
  | [] => None
  | c :: s' =>
      if Json.is_digit c then
        let '(ds, r) := Json.span_digits s in
        match r with
        | "."%char :: r' => Some (ds, fst (Json.span_digits r'))
        | _ => Some (ds, [])
        end
      else first_number_lexeme s'
  end.

(** [float(lexeme)] for digits, a point and digits. *)
Definition lexeme_value (int_digits frac_digits : str) : Q :=
  (inject_Z (Json.digits_value int_digits)
   + inject_Z (Json.digits_value frac_digits)
     / inject_Z (10 ^ Z.of_nat (List.length frac_digits)))%Q.

(** [float(re.findall(r'\d+\.?\d*', value_str.replace(',', '.'))[0])];
    [None] stands for the [IndexError] of an empty match list. *)
Definition first_number (value_str : str) : option Q :=
  match first_number_lexeme (commas_to_points value_str) with
  | Some (i, f) => Some (lexeme_value i f)
  | None => None
  end.

(** The words of [s.split()]. [cur] holds the current word in reverse. *)
Fixpoint words_aux (cur : str) (s : str) : list str :=
  match s with
  | [] => match cur with [] => [] | _ => [rev cur] end
  | c :: s' =>
      if is_space c
      then match cur with
           | [] => words_aux [] s'
           | _ => rev cur :: words_aux [] s'
           end
      else words_aux (c :: cur) s'
  end.

Definition words (s : str) : list str := words_aux [] s.

(** The times that one run reads from the clock, in each of the formats
    used, and the identifiers it draws. *)
Record clock := {
  stamp_compact : str;     (* [%Y%m%d%H%M%S] *)
  stamp_csv : str;         (* [%Y%m%d_%H%M%S] *)
  stamp_iso : str;         (* [isoformat()] *)
  stamp_sql : str;         (* [%Y-%m-%d %H:%M:%S] *)
  stamp_br : str;          (* [%d/%m/%Y %H:%M] *)
  epoch_ms : Z;
  table_uuid : str;
  txn_uuid : str
}.

(** *** [create_cashflow_delta_table] *)

Definition DESCRICAO_ACCENTED : str :=
  lit "Descri" ++ [ascii_of_nat 231; ascii_of_nat 227] ++ lit "o".

(** The value of one row of [valores_contrato], where it has one. *)
Definition contract_value (lib : pylib) (cols : list str) (value_row : list cell)
  : option Q :=
  let value_str :=
    cell_str lib (row_get cols value_row (lit "valor")
                    (row_get cols value_row (lit "Valor") (CInt 0))) in
  first_number value_str.

(** The first loop: the sum of the values that can be read; a row that
    raises is skipped. *)
Definition total_contract_value (lib : pylib) (values_df : dataframe) : Q :=
  fold_left
    (fun total value_row =>
       match contract_value lib (columns values_df) value_row with
       | Some value => (total + value)%Q
       | None => total
       end)
    (rows values_df) 0%Q.

(** The estimate of a row without a value of its own; [None] stands for
    the [AttributeError] of [description.lower()] on a value that is not
    a string. *)
Definition estimate_by_description (total : Q) (schedule_len : Z)
  (description : cell) : option Q :=
  match description with
  | CStr d =>
      Some (if contains (lower d) (lit "entrada") then (total * (3 # 10))%Q
            else if contains (lower d) (lit "parcela") then (total * (2 # 10))%Q
            else if contains (lower d) (lit "final") then (total * (1 # 10))%Q
            else (total / inject_Z schedule_len)%Q)
  | _ => None
  end.

(** [estimated_value / total_contract_value * 100]; [None] stands for
    the [TypeError] of dividing a value that is not a number. *)
Definition percent_of_total (estimated_value : cell) (total : Q) : option cell :=
  match estimated_value with
  | CInt n => Some (CFloat (inject_Z n / total * 100)%Q)
  | CFloat x => Some (CFloat (x / total * 100)%Q)
  | CBool b => Some (CFloat ((if b then 1 else 0) / total * 100)%Q)
  | CNaN => Some CNaN
  | CNone => None
  | CStr _ => None
  end.

Definition cashflow_columns : list str :=
  [lit "Arquivo"; lit "Data_Prevista"; lit "Descricao_Fluxo";
   lit "Valor_Estimado"; lit "Percentual_Total"; lit "Data_Analise";
   lit "data_processamento"].

(** The body of the second loop: the record appended for one row of the
    schedule, or [None] when the body raises. *)
Definition cashflow_record (clk : clock) (filename : str) (total : Q)
  (schedule_len : Z) (cols : list str) (schedule_row : list cell)
  : option (list cell) :=
  let date_field :=
    row_get cols schedule_row (lit "Data/Prazo")
      (row_get cols schedule_row (lit "Data") (CStr [])) in
  let description :=
    row_get cols schedule_row DESCRICAO_ACCENTED
      (row_get cols schedule_row (lit "Descricao") (CStr [])) in
  let schedule_value := row_get cols schedule_row (lit "Valor") (CInt 0) in
  match
    (if negb (truthy schedule_value) || equals_zero schedule_value
     then option_map CFloat (estimate_by_description total schedule_len description)
     else Some schedule_value)
  with
  | None => None
  | Some estimated_value =>
      match
        (if Qlt_le_dec 0 total
         then percent_of_total estimated_value total
         else Some (CInt 0))
      with
      | None => None
      | Some percent =>
          Some [CStr filename; date_field; description; estimated_value;
                percent; CStr (stamp_br clk); CStr (stamp_iso clk)]
      end
  end.

(** All records, or [None] as soon as one row raises. *)
Fixpoint cashflow_records (clk : clock) (filename : str) (total : Q)
  (schedule_len : Z) (cols : list str) (schedule_rows : list (list cell))
  : option (list (list cell)) :=
  match schedule_rows with
  | [] => Some []
  | schedule_row :: rest =>
      match cashflow_record clk filename total schedule_len cols schedule_row with
      | None => None
      | Some r =>
          option_map (cons r)
            (cashflow_records clk filename total schedule_len cols rest)
      end
  end.

(** [None] when the function raises. *)
Definition create_cashflow_delta_table (lib : pylib) (clk : clock)
  (tables_data : tables) (filename : str) : option dataframe :=
  match get tables_data (lit "cronograma_pagamentos"),
        get tables_data (lit "valores_contrato") with
  | Some schedule_df, Some values_df =>
      if negb (df_empty schedule_df) && negb (df_empty values_df) then
        let total := total_contract_value lib values_df in
        option_map (from_records cashflow_columns)
          (cashflow_records clk filename total
             (Z.of_nat (List.length (rows schedule_df)))
             (columns schedule_df) (rows schedule_df))
      else Some empty_frame
  | _, _ => Some empty_frame
  end.

(** *** [create_product_value_delta_table] *)

Definition product_value_columns : list str :=
  [lit "Arquivo"; lit "Produto_Servico"; lit "Valor_Estimado";
   lit "Confianca_Valor"; lit "Data_Analise"; lit "data_processamento";
   lit "modelo_llm_usado"; lit "tempo_processamento_llm_segundos"].

(** The inner loop over the rows of [valores_contrato]: the first row
    whose value text holds a word of the product name and a number. *)
Fixpoint related_value (lib : pylib) (product_name : str) (cols : list str)
  (value_rows : list (list cell)) : option Q :=
  match value_rows with
  | [] => None
  | value_row :: rest =>
      let value_desc :=
        cell_str lib (row_get cols value_row (lit "valor")
                        (row_get cols value_row (lit "Valor") (CInt 0))) in
      if existsb (fun word => contains (lower value_desc) word)
                 (words (lower product_name))
      then match first_number value_desc with
           | Some v => Some v
           | None => related_value lib product_name cols rest
           end
      else related_value lib product_name cols rest
  end.

Definition product_value_record (lib : pylib) (clk : clock) (filename : str)
  (model_used total_processing_time : cell) (values_df : option dataframe)
  (product_row : list cell) : list cell :=
  let product_name := cell_str lib (nth 0 product_row CNaN) in
  let found :=
    match values_df with
    | Some v =>
        if df_empty v then None
        else related_value lib product_name (columns v) (rows v)
    | None => None
    end in
  [CStr filename; CStr product_name;
   match found with Some x => CFloat x | None => CInt 0 end;
   CStr (match found with Some _ => lit "Alta" | None => lit "Baixa" end);
   CStr (stamp_br clk); CStr (stamp_iso clk);
   model_used; total_processing_time].

(** [None] stands for the [ValueError] that [a or b] raises when [a] is a
    frame: the truth value of a [DataFrame] is ambiguous. *)
Definition create_product_value_delta_table (lib : pylib) (clk : clock)
  (model_used total_processing_time : cell)
  (tables_data : tables) (filename : str) : option dataframe :=
  match get tables_data (lit "produtos_servicos") with
  | Some _ => None
  | None =>
      let products_df := get tables_data (lit "investimento_financeiro") in
      let values_df := get tables_data (lit "valores_contrato") in
      match products_df with
      | Some p =>
          if df_empty p then Some empty_frame
          else Some (from_records product_value_columns
                       (map (product_value_record lib clk filename model_used
                               total_processing_time values_df)
                            (rows p)))
      | None => Some empty_frame
      end
  end.

(** *** [create_financial_delta_table] and [create_renda_fixa_delta_table] *)

Definition add_tracking_columns (lib : pylib) (clk : clock) (filename : str)
  (df : dataframe) : dataframe :=
  let df := set_constant df (lit "arquivo_origem") (CStr filename) in
  let df := set_constant df (lit "data_processamento") (CStr (stamp_iso clk)) in
  set_column df (lit "hash_linha") (fun row => CInt (row_hash lib row)).

(** The loop over [tables_data.items()]: the first non-empty table whose
    lower-cased name contains [name]. *)
Fixpoint convert_named_table (lib : pylib) (clk : clock) (name : str)
  (tables_data : tables) (filename : str) : dataframe :=
  match tables_data with
  | [] => empty_frame
  | (table_name, df) :: rest =>
      if contains (lower table_name) name && negb (df_empty df)
      then add_tracking_columns lib clk filename df
      else convert_named_table lib clk name rest filename
  end.

Definition create_financial_delta_table (lib : pylib) (clk : clock)
  (tables_data : tables) (filename : str) : dataframe :=
  convert_named_table lib clk (lit "investimento_financeiro") tables_data filename.

Definition create_renda_fixa_delta_table (lib : pylib) (clk : clock)
  (tables_data : tables) (filename : str) : dataframe :=
  convert_named_table lib clk (lit "renda_fixa") tables_data filename.

End Tables.

(** ** [s3_pdf_processor.py]: CSV export and Delta snapshots *)

Module Snapshot.
Import PyStr Tables.

(** One line of a Delta log file. *)
Inductive action :=
| CommitInfo (timestamp : Z) (num_output_rows : Z) (num_output_bytes : Z)
    (txn_id : str)
| MetaData (table_id : str) (schema : list (str * str)) (created_time : Z)
| Protocol (min_reader_version min_writer_version : Z)
| AddFile (path : str) (size : Z) (modification_time : Z)
    (num_records : Z) (stats : str).

(** An object stored in the bucket, by what was written into it. *)
Inductive object :=
| ParquetFile (df : dataframe)
| LogFile (actions : list action)
| ManifestFile (paths : list str)
| CsvFile (df : dataframe).

(** A request sent to the Glue catalog. *)
Record glue_table := {
  glue_name : str;
  glue_columns : list (str * str);
  glue_location : str
}.

(** Everything outside the process that the writer can change: the
    objects of the bucket, the registrations sent to the catalog, and the
    files of the local [datasets] directory. *)
Record world := {
  s3 : gmap str object;
  glue_requests : list glue_table;
  local_files : list (str * dataframe)
}.

(** The attributes of the [S3PDFProcessor] instance. The S3 and Glue
    attributes tell whether a client could be created; the calls of a
    client that exists are modelled as succeeding, the uploads of the
    CSV exports apart (see [csv_faults]). *)
Record processor := {
  s3_client : bool;
  glue_client : bool;
  bucket_name : str;
  s3_folder : str;
  processing_metrics : option (cell * cell)
}.

Definition model_used (self : processor) : cell :=
  match processing_metrics self with
  | Some (m, _) => m
  | None => CStr (lit "modelo_nao_identificado")
  end.

Definition total_processing_time (self : processor) : cell :=
  match processing_metrics self with
  | Some (_, t) => t
  | None => CInt 0
  end.

Definition put_object (w : world) (key : str) (body : object) : world :=
  {| s3 := <[key := body]> (s3 w);
     glue_requests := glue_requests w;
     local_files := local_files w |}.

(** The keys that [list_objects_v2] returns for a prefix. *)
Definition list_keys (w : world) (prefix : str) : list str :=
  filter (fun key => startswith key prefix = true) (map_to_list (s3 w)).*1.

Definition endswith (s suffix : str) : bool :=
  startswith (rev s) (rev suffix).

(** [os.path.basename] and the root of [os.path.splitext]. *)
Definition basename (p : str) : str :=
  slice p (rfind p (lit "/") + 1) (len p).

Definition splitext_root (p : str) : str :=
  let sep_index := rfind p (lit "/") in
  let dot_index := rfind p (lit ".") in
  if (sep_index <? dot_index)
     && existsb (fun c => negb (Ascii.eqb c "."))
                (slice p (sep_index + 1) dot_index)
  then slice p 0 dot_index
  else p.

(** *** Column types *)

Definition column_cells (df : dataframe) (i : nat) : list cell :=
  map (fun row => nth i row CNaN) (rows df).

(** [str(df[col].dtype)] *)
Definition dtype (cells : list cell) : str :=
  let all_of (p : cell -> bool) := forallb p cells in
  if all_of (fun c => match c with CBool _ => true | _ => false end)
  then lit "bool"
  else if all_of (fun c => match c with CInt _ => true | _ => false end)
  then lit "int64"
  else if all_of (fun c => match c with
                           | CInt _ | CFloat _ | CNaN | CNone => true
                           | _ => false
                           end)
  then lit "float64"
  else lit "object".

Definition pandas_to_delta_type (pandas_dtype : str) : str :=
  if bool_decide (pandas_dtype = lit "int64") then lit "long"
  else if bool_decide (pandas_dtype = lit "int32") then lit "integer"
  else if bool_decide (pandas_dtype = lit "float64") then lit "double"
  else if bool_decide (pandas_dtype = lit "float32") then lit "float"
  else if bool_decide (pandas_dtype = lit "object") then lit "string"
  else if bool_decide (pandas_dtype = lit "bool") then lit "boolean"
  else if bool_decide (pandas_dtype = lit "datetime64[ns]") then lit "timestamp"
  else lit "string".

Definition pandas_to_glue_type (pandas_dtype : str) : str :=
  if bool_decide (pandas_dtype = lit "int64") then lit "bigint"
  else if bool_decide (pandas_dtype = lit "int32") then lit "int"
  else if bool_decide (pandas_dtype = lit "float64") then lit "double"
  else if bool_decide (pandas_dtype = lit "float32") then lit "float"
  else if bool_decide (pandas_dtype = lit "object") then lit "string"
  else if bool_decide (pandas_dtype = lit "bool") then lit "boolean"
  else if bool_decide (pandas_dtype = lit "datetime64[ns]") then lit "timestamp"
  else lit "string".

Definition schema_with (to_type : str -> str) (df : dataframe)
  : list (str * str) :=
  map (fun '(i, col) => (col, to_type (dtype (column_cells df i))))
      (combine (seq 0 (List.length (columns df))) (columns df)).

(** *** Delta metadata *)

Definition parquet_name (part : str) (lib : pylib) (df : dataframe) : str :=
  lit "part-" ++ part ++ lit "-" ++ content_hash lib df ++ lit "-"
  ++ content_hash lib df ++ lit "-c000.snappy.parquet".

(** The four lines that [create_delta_metadata] prepares, with the size
    of the Parquet file filled in. *)
Definition create_delta_metadata (lib : pylib) (clk : clock) (df : dataframe)
  : list action :=
  [ CommitInfo (epoch_ms clk) (Z.of_nat (List.length (rows df)))
      (parquet_size lib df) (txn_uuid clk);
    MetaData (table_uuid clk) (schema_with pandas_to_delta_type df) (epoch_ms clk);
    Protocol 1 2;
    AddFile (parquet_name (lit "00000") lib df) (parquet_size lib df)
      (epoch_ms clk) (Z.of_nat (List.length (rows df))) (column_stats lib df) ].

(** The two lines that [create_delta_append_metadata] prepares. *)
Definition create_delta_append_metadata (lib : pylib) (clk : clock)
  (df : dataframe) (added_rows : Z) : list action :=
  [ CommitInfo (epoch_ms clk) added_rows (parquet_size lib df) (txn_uuid clk);
    AddFile (parquet_name (lit "00001") lib df) (parquet_size lib df)
      (epoch_ms clk) added_rows (column_stats lib df) ].

(** [f"{version_number:020d}.json"] *)
Definition log_file_name (version_number : Z) : str :=
  let digits := int_str version_number in
  repeat "0"%char (20 - List.length digits) ++ digits ++ lit ".json".

Definition delta_prefix (self : processor) (table_name : str) : str :=
  s3_folder self ++ lit "/delta_datasets/" ++ table_name ++ lit "/".

Definition log_prefix (self : processor) (table_name : str) : str :=
  delta_prefix self table_name ++ lit "_delta_log/".

Definition log_key (self : processor) (table_name : str) (version_number : Z)
  : str :=
  log_prefix self table_name ++ log_file_name version_number.

Definition s3_uri (self : processor) (key : str) : str :=
  lit "s3://" ++ bucket_name self ++ lit "/" ++ key.

(** *** Catalog registration *)

Definition check_existing_delta_table_in_s3 (self : processor) (w : world)
  (s3_delta_path : str) : bool :=
  match list_keys w (s3_delta_path ++ lit "_delta_log/") with
  | [] => false
  | _ => true
  end.

Definition generate_symlink_format_manifest (self : processor) (w : world)
  (table_name : str) : str * world :=
  let s3_prefix := delta_prefix self table_name in
  let parquet_files :=
    map (s3_uri self)
        (filter (fun key => endswith key (lit ".parquet") = true)
                (list_keys w s3_prefix)) in
  match parquet_files with
  | [] => ([], w)
  | _ =>
      let manifest_key := s3_prefix ++ lit "_symlink_format_manifest" in
      (s3_uri self manifest_key,
       put_object w manifest_key (ManifestFile parquet_files))
  end.

Definition create_glue_table_from_delta (self : processor) (w : world)
  (table_name : str) (df : dataframe) (s3_location : str) : bool * world :=
  if glue_client self then
    (true,
     {| s3 := s3 w;
        glue_requests :=
          glue_requests w ++ [{| glue_name := table_name;
                                 glue_columns := schema_with pandas_to_glue_type df;
                                 glue_location := s3_location |}];
        local_files := local_files w |})
  else (false, w).

Definition setup_athena_compatibility (self : processor) (w : world)
  (table_name : str) (df : dataframe) (s3_delta_path : str) : world :=
  let '(_, w) := generate_symlink_format_manifest self w table_name in
  let '(_, w) := create_glue_table_from_delta self w table_name df s3_delta_path in
  w.

(** *** Writing a snapshot *)

(** The columns that both branches of [save_or_append_delta_table_to_s3]
    add to the copy of the frame. *)
Definition add_source_columns (self : processor) (clk : clock) (filename : str)
  (df : dataframe) : dataframe :=
  let df := set_constant df (lit "fonte_arquivo") (CStr filename) in
  let df := set_constant df (lit "data_insercao") (CStr (stamp_sql clk)) in
  let df := set_constant df (lit "Arquivo") (CStr filename) in
  let df := set_constant df (lit "modelo_llm_usado") (model_used self) in
  set_constant df (lit "tempo_processamento_llm_segundos")
    (total_processing_time self).

(** [upload_delta_structure_to_s3] for a directory that holds one Parquet
    file and one log file. *)
Definition upload_delta_structure_to_s3 (w : world) (s3_delta_path : str)
  (parquet_filename : str) (df : dataframe)
  (log_filename : str) (log : list action) : world :=
  let w := put_object w (s3_delta_path ++ parquet_filename) (ParquetFile df) in
  put_object w (s3_delta_path ++ lit "_delta_log/" ++ log_filename) (LogFile log).

Definition S3_NOT_CONFIGURED : str :=
  lit "S3 n" ++ [ascii_of_nat 227] ++ lit "o configurado - dados salvos localmente".

Definition save_or_append_delta_table_to_s3 (lib : pylib) (clk : clock)
  (self : processor) (w : world) (df : dataframe) (table_name filename : str)
  : str * world :=
  if negb (s3_client self) then (S3_NOT_CONFIGURED, w)
  else
    let s3_delta_path := delta_prefix self table_name in
    let existing_data := check_existing_delta_table_in_s3 self w s3_delta_path in
    let s3_path := s3_uri self s3_delta_path in
    if existing_data then
      let df_copy := add_source_columns self clk filename df in
      let combined_df := df_copy in
      let delta_metadata :=
        create_delta_append_metadata lib clk combined_df
          (Z.of_nat (List.length (rows df))) in
      let parquet_filename := parquet_name (lit "00001") lib combined_df in
      let version_number := 1 in
      let w := upload_delta_structure_to_s3 w s3_delta_path parquet_filename
                 combined_df (log_file_name version_number) delta_metadata in
      (s3_path, setup_athena_compatibility self w table_name combined_df s3_path)
    else
      let df_copy := add_source_columns self clk filename df in
      let delta_metadata := create_delta_metadata lib clk df_copy in
      let parquet_filename := parquet_name (lit "00000") lib df_copy in
      let w := upload_delta_structure_to_s3 w s3_delta_path parquet_filename
                 df_copy (lit "00000000000000000000.json") delta_metadata in
      (s3_path, setup_athena_compatibility self w table_name df_copy s3_path).

Definition save_delta_table_to_s3 (lib : pylib) (clk : clock)
  (self : processor) (w : world) (df : dataframe) (table_name : str)
  : str * world :=
  if negb (s3_client self) then (S3_NOT_CONFIGURED, w)
  else
    let delta_metadata := create_delta_metadata lib clk df in
    let parquet_filename := parquet_name (lit "00000") lib df in
    let s3_delta_path := delta_prefix self table_name in
    let w := upload_delta_structure_to_s3 w s3_delta_path parquet_filename df
               (lit "00000000000000000000.json") delta_metadata in
    let s3_path := s3_uri self s3_delta_path in
    (s3_path, setup_athena_compatibility self w table_name df s3_path).

(** *** [generate_and_save_delta_tables_to_s3] *)

(** [name in tables_data and not tables_data[name].empty] *)
Definition has_data (tables_data : tables) (name : str) : bool :=
  match get tables_data name with
  | Some df => negb (df_empty df)
  | None => false
  end.

(** ['valores_contrato' in tables_data or any('valor' in k for k in
    tables_data.keys())] *)
Definition has_values (tables_data : tables) : bool :=
  has_key tables_data (lit "valores_contrato")
  || existsb (fun kv => contains (fst kv) (lit "valor")) tables_data.

(** The result dictionary and the world, as the steps of the [try] block
    update them. *)
Abbreviation progress := (list (str * str) * world)%type.

Definition save_primary (lib : pylib) (clk : clock) (self : processor)
  (filename : str) (delta : dataframe) (table_name result_key : str)
  (p : progress) : progress :=
  let '(delta_files, w) := p in
  if negb (df_empty delta) then
    let '(delta_info, w) :=
      save_or_append_delta_table_to_s3 lib clk self w delta table_name filename in
    (delta_files ++ [(result_key, delta_info)], w)
  else p.

Definition save_analytical (lib : pylib) (clk : clock) (self : processor)
  (delta : dataframe) (delta_filename result_key : str)
  (p : progress) : progress :=
  let '(delta_files, w) := p in
  if negb (df_empty delta) then
    let '(delta_info, w) := save_delta_table_to_s3 lib clk self w delta delta_filename in
    (delta_files ++ [(result_key, delta_info)], w)
  else p.

Definition generate_and_save_delta_tables_to_s3 (lib : pylib) (clk : clock)
  (self : processor) (w : world) (tables_data : tables) (filename : str)
  : list (str * str) * world :=
  let delta_files : list (str * str) := [] in
  let timestamp := stamp_compact clk in
  let base_filename := splitext_root filename in
  let has_investment_data := has_data tables_data (lit "investimento_financeiro") in
  let has_renda_fixa_data := has_data tables_data (lit "renda_fixa") in
  if negb has_investment_data && negb has_renda_fixa_data then (delta_files, w)
  else
    (* Delta 1 *)
    let p : progress := (delta_files, w) in
    let p :=
      if has_investment_data then
        save_primary lib clk self filename
          (create_financial_delta_table lib clk tables_data filename)
          (lit "investimento") (lit "delta_investimento") p
      else p in
    (* Delta 1.1 *)
    let p :=
      if has_renda_fixa_data then
        save_primary lib clk self filename
          (create_renda_fixa_delta_table lib clk tables_data filename)
          (lit "renda_fixa") (lit "delta_renda_fixa") p
      else p in
    (* Delta 3; an exception leaves the [try] block with what was done *)
    let delta3 (p : progress) : progress :=
      if has_investment_data
         && has_key tables_data (lit "cronograma_pagamentos")
         && has_values tables_data
      then
        match create_cashflow_delta_table lib clk tables_data filename with
        | Some cashflow_delta =>
            save_analytical lib clk self cashflow_delta
              (base_filename ++ lit "_delta_fluxo_caixa_" ++ timestamp)
              (lit "delta_fluxo_caixa") p
        | None => p
        end
      else p in
    (* Delta 2 *)
    if has_investment_data
       && (has_key tables_data (lit "produtos_servicos")
           || has_key tables_data (lit "investimento_financeiro"))
       && has_values tables_data
    then
      match create_product_value_delta_table lib clk (model_used self)
              (total_processing_time self) tables_data filename with
      | Some product_value_delta =>
          delta3 (save_analytical lib clk self product_value_delta
                    (base_filename ++ lit "_delta_produto_valor_" ++ timestamp)
                    (lit "delta_produto_valor") p)
      | None => p
      end
    else delta3 p.

(** *** [save_tables_to_s3_csv] *)

Definition csv_file_name (clk : clock) (base_filename table_type : str) : str :=
  base_filename ++ lit "_" ++ table_type ++ lit "_" ++ stamp_csv clk ++ lit ".csv".

Definition csv_key (self : processor) (clk : clock)
  (base_filename table_type : str) : str :=
  s3_folder self ++ lit "/csv/" ++ csv_file_name clk base_filename table_type.

Definition local_csv_path (clk : clock) (base_filename table_type : str) : str :=
  lit "datasets/" ++ csv_file_name clk base_filename table_type.

(** What can go wrong while the CSV files are written: whether
    [os.makedirs] raises and, for each destination (an S3 key or a local
    path), whether writing the file there raises, in [df.to_csv] or in
    [put_object]. A write that raises stores nothing. *)
Record csv_faults := {
  makedirs_raises : bool;
  write_raises : str -> bool
}.

(** The loop of [save_tables_locally]. Nothing catches the exception of
    a write: [None] stands for it, and the files written before it
    stay. *)
Fixpoint write_tables_locally (flt : csv_faults) (clk : clock) (w : world)
  (tbls : tables) (base_filename : str) : option (list (str * str)) * world :=
  match tbls with
  | [] => (Some [], w)
  | (table_type, df) :: rest =>
      if negb (df_empty df) then
        let filepath := local_csv_path clk base_filename table_type in
        if write_raises flt filepath then (None, w)
        else
          let w := {| s3 := s3 w;
                      glue_requests := glue_requests w;
                      local_files := local_files w ++ [(filepath, df)] |} in
          let '(saved_files, w) :=
            write_tables_locally flt clk w rest base_filename in
          (option_map (cons (table_type, filepath)) saved_files, w)
      else write_tables_locally flt clk w rest base_filename
  end.

Definition save_tables_locally (flt : csv_faults) (clk : clock) (w : world)
  (tbls : tables) (base_filename : str) : option (list (str * str)) * world :=
  if makedirs_raises flt then (None, w)
  else write_tables_locally flt clk w tbls base_filename.

(** The loop of [save_tables_to_s3_csv]: a table whose write raises is
    skipped by the handler, and the loop goes on. *)
Fixpoint upload_tables (flt : csv_faults) (self : processor) (clk : clock)
  (w : world) (tbls : tables) (base_filename : str)
  : list (str * str) * world :=
  match tbls with
  | [] => ([], w)
  | (table_type, df) :: rest =>
      if negb (df_empty df) then
        let s3_key := csv_key self clk base_filename table_type in
        if write_raises flt s3_key
        then upload_tables flt self clk w rest base_filename
        else
          let w := put_object w s3_key (CsvFile df) in
          let '(saved_files, w) :=
            upload_tables flt self clk w rest base_filename in
          ((table_type, s3_uri self s3_key) :: saved_files, w)
      else upload_tables flt self clk w rest base_filename
  end.

(** [None] when an exception leaves the function. *)
Definition save_tables_to_s3_csv (flt : csv_faults) (self : processor)
  (clk : clock) (w : world) (tbls : tables) (base_filename : str)
  : option (list (str * str)) * world :=
  if negb (s3_client self) then save_tables_locally flt clk w tbls base_filename
  else
    let '(saved_files, w) := upload_tables flt self clk w tbls base_filename in
    (Some saved_files, w).

(** *** [process_pdf_with_table_extraction] *)

Record processing_result := {
  tables_extracted : list str;
  s3_csv_files : list (str * str);
  s3_delta_files : list (str * str)
}.

(** The function from the point where the text has been read and
    [extract_tables_with_ai] has returned [tbls]; [None] when the
    exception of a local write leaves it. The conversion of the tables
    for the answer is taken as returning. *)
Definition process_pdf_with_table_extraction (lib : pylib) (clk : clock)
  (flt : csv_faults) (self : processor) (w : world) (tbls : tables)
  (pdf_path : str) (original_filename : option str)
  : option processing_result * world :=
  let given := match original_filename with
               | Some (c :: n) => Some (c :: n)
               | _ => None
               end in
  let '(s3_csv_files, w) :=
    match tbls with
    | [] => (Some [], w)
    | _ =>
        let base_filename :=
          match given with
          | Some name => splitext_root name
          | None => splitext_root (basename pdf_path)
          end in
        save_tables_to_s3_csv flt self clk w tbls base_filename
    end in
  match s3_csv_files with
  | None => (None, w)
  | Some s3_csv_files =>
      let '(s3_delta_files, w) :=
        match tbls with
        | [] => ([], w)
        | _ =>
            let filename_for_delta :=
              match given with
              | Some name => name
              | None => basename pdf_path
              end in
            generate_and_save_delta_tables_to_s3 lib clk self w tbls
              filename_for_delta
        end in
      (Some {| tables_extracted := map fst tbls;
               s3_csv_files := s3_csv_files;
               s3_delta_files := s3_delta_files |}, w)
  end.

End Snapshot.

(** ** [s3_pdf_processor.py]: reading the text of the document *)

Module Reader.
Import PyStr.

(** A literal with accented letters: the UTF-8 bytes of the literal are
    decoded to code points below 256. *)
Fixpoint decode (bytes : str) : str :=
  match bytes with
  | [] => []
  | a :: tl =>
      match tl with
      | b :: rest =>
          if (nat_of_ascii a =? 194)%nat
          then ascii_of_nat (nat_of_ascii b) :: decode rest
          else if (nat_of_ascii a =? 195)%nat
          then ascii_of_nat (nat_of_ascii b + 64) :: decode rest
          else a :: decode tl
      | [] => [a]
      end
  end.

Definition latin1 (s : string) : str := decode (lit s).

(** An exception with its message [str(e)], by whether it is an
    [ImportError]. *)
Inductive exn :=
| ImportError (message : str)
| OtherError (message : str).

(** What [page.extract_text()] does on one page. *)
Inductive page_read :=
| PageText (text : str)
| PageRaises (e : exn).

(** What opening the file and building the reader do; for a reader,
    whether the document is encrypted, the message of the exception that
    [decrypt('')] raises if it raises one, and the pages. *)
Inductive document :=
| Unopenable (e : exn)
| Opened (is_encrypted : bool) (decrypt_error : option str)
    (doc_pages : list page_read).

Record page_entry := {
  page : Z;
  text : str;
  char_count : Z
}.

(** The dictionary that [extract_text_from_pdf] returns. A flag that the
    dictionary does not hold reads as false. *)
Inductive pdf_data :=
| Failed (error : str)
    (is_encrypted is_dependency_error is_encrypted_error : bool)
| Read (full_text : str) (pages : list page_entry) (page_count total_chars : Z).

Definition NEEDS_PYCRYPTODOME_FOR_PDFS : str :=
  latin1 "PyCryptodome é necessário para processar PDFs criptografados. Execute: pip install PyCryptodome".

Definition NEEDS_PYCRYPTODOME_FOR_THIS_PDF : str :=
  latin1 "PyCryptodome é necessário para processar este PDF criptografado. Execute: pip install PyCryptodome".

(** ["PyCryptodome" in m or "AES" in m] *)
Definition names_the_cipher (m : str) : bool :=
  contains m (lit "PyCryptodome") || contains m (lit "AES").

(** The two handlers of the function. *)
Definition handle (e : exn) : pdf_data :=
  match e with
  | ImportError m =>
      let error_msg := latin1 "Biblioteca necessária não encontrada: " ++ m in
      let error_msg :=
        if names_the_cipher m then NEEDS_PYCRYPTODOME_FOR_PDFS else error_msg in
      Failed error_msg false true false
  | OtherError m =>
      let error_msg :=
        if names_the_cipher m then NEEDS_PYCRYPTODOME_FOR_THIS_PDF else m in
      Failed error_msg false false
        (contains (lower error_msg) (lit "crypt")
         || contains (lower error_msg) (lit "aes"))
  end.

(** The loop over [enumerate(pdf_reader.pages)]; the state is the pair
    [(full_text, pages_info)]. A page that raises leaves the loop. *)
Fixpoint read_pages (page_num : Z) (ps : list page_read)
  (acc : str * list page_entry) : exn + str * list page_entry :=
  match ps with
  | [] => inr acc
  | PageRaises e :: _ => inl e
  | PageText page_text :: ps' =>
      read_pages (page_num + 1) ps'
        (match page_text with
         | [] => acc
         | _ => (fst acc ++ page_text ++ [NL; NL],
                 snd acc ++ [{| page := page_num + 1;
                                text := page_text;
                                char_count := len page_text |}])
         end)
  end.

Definition extract_text_from_pdf (doc : document) : pdf_data :=
  match doc with
  | Unopenable e => handle e
  | Opened is_encrypted decrypt_error ps =>
      match (if is_encrypted then decrypt_error else None) with
      | Some m =>
          Failed (latin1 "PDF criptografado e não foi possível descriptografar: "
                  ++ m) true false false
      | None =>
          match read_pages 0 ps ([], []) with
          | inl e => handle e
          | inr (full_text, pages_info) =>
              Read full_text pages_info (Z.of_nat (List.length ps)) (len full_text)
          end
      end
  end.

(** What [process_pdf_with_table_extraction] returns when the text
    could not be read. *)
Record failure := {
  error : str;
  solution : option str;
  error_type : option str
}.

(** The start of [process_pdf_with_table_extraction], up to the point
    where the text has been read: [None] when the function goes on to
    the extraction of the tables. *)
Definition text_failure (pdf_data : pdf_data) : option failure :=
  match pdf_data with
  | Read _ _ _ _ => None
  | Failed error_detail is_encrypted is_dependency_error is_encrypted_error =>
      Some (if is_dependency_error
            then {| error := error_detail;
                    solution := Some (lit "Execute: pip install PyCryptodome");
                    error_type := Some (lit "dependency") |}
            else if is_encrypted || is_encrypted_error
            then {| error := error_detail;
                    solution :=
                      Some (latin1 "PDF protegido por senha. Remova a proteção ou forneça a senha.");
                    error_type := Some (lit "encryption") |}
            else {| error := error_detail;
                    solution := None;
                    error_type := None |})
  end.

End Reader.

(** ** [pdf_processing_service.py]: storing a document *)

Module Service.
Import PyStr Chunker.

(** A value of a metadata dictionary. *)
Inductive value :=
| VStr (s : str)
| VInt (n : Z)
| VBool (b : bool)
| VChunks (cs : list chunk).

(** A dictionary with string keys, in insertion order. *)
Definition dict : Type := list (str * value).

(** [d[k] = v] *)
Fixpoint dict_set (d : dict) (k : str) (v : value) : dict :=
  match d with
  | [] => [(k, v)]
  | (k', v') :: d' =>
      if bool_decide (k' = k) then (k, v) :: d' else (k', v') :: dict_set d' k v
  end.

(** [d.update(other)] *)
Definition dict_update (d other : dict) : dict :=
  fold_left (fun d kv => dict_set d (fst kv) (snd kv)) other d.

(** [d.get(k)] *)
Fixpoint dict_get (d : dict) (k : str) : option value :=
  match d with
  | [] => None
  | (k', v) :: d' => if bool_decide (k' = k) then Some v else dict_get d' k
  end.

(** [bool(user_id)] for an optional string. *)
Definition given (user_id : option str) : bool :=
  match user_id with
  | Some (_ :: _) => true
  | _ => false
  end.

(** *** The ChromaDB client *)

Record document := {
  doc_text : str;
  doc_metadata : dict;
  chunk_id : str
}.

(** The documents that [ChromaDBClient.add_document_chunks] posts. *)
Definition add_document_chunks (pdf_name : str) (chunks : list str)
  (metadata : dict) : list document :=
  map (fun '(i, chunk) =>
         {| doc_text := chunk;
            doc_metadata :=
              dict_update [ (lit "pdf_name", VStr pdf_name);
                            (lit "chunk_index", VInt i);
                            (lit "chunk_type", VStr (lit "text")) ]
                          metadata;
            chunk_id := pdf_name ++ lit "_chunk_" ++ Tables.int_str i |})
      (combine (map Z.of_nat (seq 0 (List.length chunks))) chunks).

(** A row of the PDF table. *)
Record pdf_item := {
  item_pdf_id : str;
  item_user_id : str;
  item_pdf_name : str;
  item_metadata : dict;
  item_created_at : str
}.

(** A request sent to a remote service, with whether it succeeded. *)
Inductive request :=
| Post (collection : str) (documents : list document) (ok : bool)
| PutItem (item : pdf_item) (ok : bool).

(** What the services and the runtime give during one call: whether
    the POST to the ChromaDB service succeeds, whether a DynamoDB
    resource exists and whether [put_item] succeeds, the readings of the
    clock, and the identifiers drawn. *)
Record remote := {
  post_succeeds : bool;
  dynamo_available : bool;
  put_succeeds : bool;
  processing_date : str;
  indexed_at : str;
  created_at : str;
  processing_time : str;
  first_uuid : str;
  second_uuid : str
}.

(** [ChromaDBService.store_pdf_embeddings]: the collection is always
    taken as initialised; every exception of the POST gives [False]. *)
Definition store_pdf_embeddings (env : remote) (pdf_name : str)
  (text_chunks : list str) (user_id : option str) (pdf_metadata : dict)
  : bool * list request :=
  let base_metadata :=
    [ (lit "pdf_name", VStr pdf_name);
      (lit "total_chunks", VInt (Z.of_nat (List.length text_chunks)));
      (lit "indexed_at", VStr (indexed_at env)) ] in
  let base_metadata :=
    match user_id with
    | Some (c :: u) => dict_set base_metadata (lit "user_id") (VStr (c :: u))
    | _ => base_metadata
    end in
  let base_metadata := dict_update base_metadata pdf_metadata in
  (post_succeeds env,
   [Post (lit "rag_documents")
      (add_document_chunks pdf_name text_chunks base_metadata)
      (post_succeeds env)]).

(** [ChromaDBService.delete_pdf_embeddings]: it logs the request and
    returns [True]; no request is sent. *)
Definition delete_pdf_embeddings (pdf_name : str) (user_id : option str)
  : bool * list request :=
  (true, []).

(** *** The DynamoDB service *)

(** [DynamoDBService.save_pdf_metadata] without a processing time: a
    fresh identifier is returned in every case, also when nothing could
    be stored. *)
Definition save_pdf_metadata (env : remote) (user_id pdf_name : str)
  (metadata : dict) : str * list request :=
  if negb (dynamo_available env) then (first_uuid env, [])
  else
    let item := {| item_pdf_id := first_uuid env;
                   item_user_id := user_id;
                   item_pdf_name := pdf_name;
                   item_metadata := metadata;
                   item_created_at := created_at env |} in
    if put_succeeds env
    then (first_uuid env, [PutItem item true])
    else (second_uuid env, [PutItem item false]).

(** *** [process_pdf_file] *)

Record stats := {
  stat_page_count : Z;
  stat_total_chars : Z;
  stat_total_words : Z;
  chunks_created : Z
}.

Inductive outcome :=
| Failure (error : str)
| Success (pdf_id : option str) (extraction_stats : stats)
    (chromadb_indexed dynamodb_metadata_saved : bool)
    (total_chunks_stored : Z) (processed_at : str).

Definition NO_TEXT : str := Reader.latin1 "PDF não contém texto extraível".
Definition NO_CHUNKS : str := Reader.latin1 "Não foi possível criar chunks do texto".
Definition NOT_STORED : str := lit "Erro ao armazenar embeddings no ChromaDB".

Definition process_pdf_file (cfg : config) (env : remote) (doc : pdf)
  (pdf_path pdf_name : str) (user_id : option str) : outcome * list request :=
  let extraction_result := extract_text_from_pdf doc in
  if negb (success extraction_result) then
    (Failure (Reader.latin1 "Erro na extração: "
              ++ match error extraction_result with Some e => e | None => [] end),
     [])
  else
    let full_text := full_text extraction_result in
    match strip full_text with
    | [] => (Failure NO_TEXT, [])
    | _ =>
        let chunks := create_text_chunks cfg full_text pdf_name in
        match chunks with
        | [] => (Failure NO_CHUNKS, [])
        | _ =>
            let chunk_texts := map chunk_text chunks in
            let pdf_metadata :=
              [ (lit "page_count", VInt (page_count extraction_result));
                (lit "total_chars", VInt (total_chars extraction_result));
                (lit "total_words", VInt (total_words extraction_result));
                (lit "chunks_count", VInt (Z.of_nat (List.length chunks)));
                (lit "processing_date", VStr (processing_date env));
                (lit "extraction_method", VStr (lit "PyPDF2")) ] in
            let '(chromadb_success, sent) :=
              store_pdf_embeddings env pdf_name chunk_texts user_id pdf_metadata in
            if negb chromadb_success then (Failure NOT_STORED, sent)
            else
              let dynamodb_metadata :=
                dict_update pdf_metadata
                  [ (lit "file_path", VStr pdf_path);
                    (lit "chunks_info", VChunks (firstn 5 chunks));
                    (lit "chromadb_indexed", VBool true) ] in
              let '(pdf_id, saved) :=
                match user_id with
                | Some (c :: u) =>
                    let '(id, requests) :=
                      save_pdf_metadata env (c :: u) pdf_name dynamodb_metadata in
                    (Some id, requests)
                | _ => (None, [])
                end in
              (Success pdf_id
                 {| stat_page_count := page_count extraction_result;
                    stat_total_chars := total_chars extraction_result;
                    stat_total_words := total_words extraction_result;
                    chunks_created := Z.of_nat (List.length chunks) |}
                 chromadb_success
                 (match pdf_id with Some _ => true | None => false end)
                 (Z.of_nat (List.length chunks))
                 (processing_time env),
               sent ++ saved)
        end
    end.

(** *** [delete_pdf_data] and [reprocess_pdf] *)

Record deletion := {
  deleted : bool;
  chromadb_deleted : bool;
  dynamodb_metadata_found : bool;
  errors : list str;
  deletion_error : option str
}.

(** [sep.join(items)] *)
Fixpoint join (sep : str) (items : list str) : str :=
  match items with
  | [] => []
  | [x] => x
  | x :: rest => x ++ sep ++ join sep rest
  end.

Definition delete_pdf_data (pdf_name : str) (user_id : option str)
  : deletion * list request :=
  let '(chromadb_success, sent) := delete_pdf_embeddings pdf_name user_id in
  let errors :=
    if negb chromadb_success then [lit "Erro ao remover do ChromaDB"] else [] in
  let success :=
    chromadb_success && (Z.of_nat (List.length errors) =? 0) in
  ({| deleted := success;
      chromadb_deleted := chromadb_success;
      dynamodb_metadata_found := false;
      errors := errors;
      deletion_error := if negb success then Some (join (lit "; ") errors)
                        else None |},
   sent).

Record reprocessing := {
  reprocessed : bool;
  reprocess_error : str;
  action_required : option str
}.

Definition reprocess_pdf (pdf_name : str) (user_id : option str)
  : reprocessing * list request :=
  let '(_, sent) := delete_pdf_data pdf_name user_id in
  ({| reprocessed := false;
      reprocess_error := lit "Reprocessamento requer novo upload do arquivo";
      action_required := Some (lit "upload_new_file") |},
   sent).

End Service.

(** * Properties *)

(** ** Strings *)

Module PyStrFacts.
Import PyStr.

(** The string is empty or starts with a character that is not
    whitespace. *)
Definition starts_clean (s : str) : Prop :=
  match s with
  | [] => True
  | c :: _ => is_space c = false
  end.

Definition ends_clean (s : str) : Prop := starts_clean (rev s).

Lemma len_nonneg (s : str) : 0 <= len s.
Proof. unfold len. lia. Qed.

Lemma len_app (a b : str) : len (a ++ b) = len a + len b.
Proof. unfold len. rewrite length_app. lia. Qed.

Lemma len_cons (c : ascii) (s : str) : len (c :: s) = 1 + len s.
Proof. unfold len. simpl. lia. Qed.

Lemma rstrip_rev (s : str) : rstrip s = rev (lstrip (rev s)).
Proof. unfold rstrip, rev'. rewrite <- !rev_alt. reflexivity. Qed.

Lemma lstrip_split (s : str) :
  exists w, s = w ++ lstrip s /\ forallb is_space w = true.
Proof.
  induction s as [|c s IH]; simpl.
  - exists []. auto.
  - destruct (is_space c) eqn:E.
    + destruct IH as [w [H1 H2]]. exists (c :: w). simpl.
      rewrite E, H2. split; [f_equal; exact H1 | reflexivity].
    + exists []. auto.
Qed.

Lemma lstrip_starts_clean (s : str) : starts_clean (lstrip s).
Proof.
  induction s as [|c s IH]; simpl; [exact I|].
  destruct (is_space c) eqn:E; [exact IH | simpl; exact E].
Qed.

Lemma lstrip_id (s : str) : starts_clean s -> lstrip s = s.
Proof. destruct s as [|c s]; simpl; [reflexivity|]. intros ->. reflexivity. Qed.

Lemma rstrip_split (s : str) :
  exists w, s = rstrip s ++ w /\ forallb is_space w = true.
Proof.
  rewrite rstrip_rev. destruct (lstrip_split (rev s)) as [w [H1 H2]].
  exists (rev w). split.
  - rewrite <- rev_app_distr, <- H1, rev_involutive. reflexivity.
  - rewrite forallb_forall in *. intros x Hx. apply H2.
    apply in_rev. exact Hx.
Qed.

Lemma rstrip_ends_clean (s : str) : ends_clean (rstrip s).
Proof.
  unfold ends_clean. rewrite rstrip_rev, rev_involutive.
  apply lstrip_starts_clean.
Qed.

Lemma rstrip_id (s : str) : ends_clean s -> rstrip s = s.
Proof.
  unfold ends_clean. rewrite rstrip_rev. intros H.
  rewrite lstrip_id by exact H.
  apply rev_involutive.
Qed.

Lemma ends_clean_suffix (w s : str) :
  ends_clean (w ++ s) -> s <> [] -> ends_clean s.
Proof.
  unfold ends_clean. rewrite rev_app_distr. intros H Hs.
  destruct (rev s) as [|c r] eqn:E.
  - exfalso. apply Hs. rewrite <- (rev_involutive s), E. reflexivity.
  - simpl in *. exact H.
Qed.

Lemma strip_starts_clean (s : str) : starts_clean (strip s).
Proof. apply lstrip_starts_clean. Qed.

Lemma strip_ends_clean (s : str) : ends_clean (strip s).
Proof.
  unfold strip. destruct (lstrip_split (rstrip s)) as [w [H1 _]].
  destruct (lstrip (rstrip s)) as [|c r] eqn:E; [exact I|].
  apply (ends_clean_suffix w); [|discriminate].
  rewrite <- H1. apply rstrip_ends_clean.
Qed.

Lemma strip_id (s : str) : starts_clean s -> ends_clean s -> strip s = s.
Proof.
  intros H1 H2. unfold strip. rewrite rstrip_id by exact H2.
  apply lstrip_id. exact H1.
Qed.

(** The string between the stripped ends. *)
Lemma strip_split (s : str) :
  exists a b, s = a ++ strip s ++ b
              /\ forallb is_space a = true /\ forallb is_space b = true.
Proof.
  destruct (rstrip_split s) as [b [Hb1 Hb2]].
  destruct (lstrip_split (rstrip s)) as [a [Ha1 Ha2]].
  exists a, b. unfold strip. split; [|auto].
  rewrite app_assoc, <- Ha1. exact Hb1.
Qed.

Lemma lstrip_spaces_app (w s : str) :
  forallb is_space w = true -> lstrip (w ++ s) = lstrip s.
Proof.
  induction w as [|c w IH]; simpl; [reflexivity|].
  intros H. apply andb_true_iff in H as [-> H]. apply IH. exact H.
Qed.

Lemma forallb_rev {A : Type} (p : A -> bool) (l : list A) :
  forallb p l = true -> forallb p (rev l) = true.
Proof.
  rewrite !forallb_forall. intros H x Hx. apply H, in_rev. exact Hx.
Qed.

(** Whitespace after the text does not survive [strip]. *)
Lemma strip_spaces_app (s w : str) :
  forallb is_space w = true -> strip (s ++ w) = strip s.
Proof.
  intros H. unfold strip. rewrite !rstrip_rev, rev_app_distr.
  rewrite lstrip_spaces_app by (apply forallb_rev; exact H). reflexivity.
Qed.

Lemma is_space_SP : is_space SP = true.
Proof. reflexivity. Qed.

Lemma is_newline_space (c : ascii) : is_newline c = true -> is_space c = true.
Proof.
  unfold is_newline. intros H. apply Ascii.eqb_eq in H. subst. reflexivity.
Qed.

(** *** Occurrences of a substring *)

Lemma startswith_firstn (p l : str) (n : nat) :
  startswith (firstn n l) p = true
  <-> (List.length p <= n)%nat /\ startswith l p = true.
Proof.
  revert l n. induction p as [|a p IH]; intros l n; simpl.
  - split; [intros _; split; [lia|reflexivity] | reflexivity].
  - destruct n as [|n]; simpl.
    + split; [discriminate | intros [H _]; lia].
    + destruct l as [|b l]; simpl.
      * split; [discriminate | intros [_ H]; discriminate].
      * rewrite !andb_true_iff, IH. split.
        -- intros [H1 [H2 H3]]. split; [lia | auto].
        -- intros [H1 [H2 H3]]. split; [auto | split; [lia | auto]].
Qed.

Lemma startswith_length (s p : str) :
  startswith s p = true -> (List.length p <= List.length s)%nat.
Proof.
  revert s. induction p as [|a p IH]; intros s; simpl; [lia|].
  destruct s as [|b s]; [discriminate|]. simpl.
  intros H. apply andb_true_iff in H as [_ H]. apply IH in H. lia.
Qed.

(** A prefix is what a string starts with. *)
Lemma startswith_app (s p : str) :
  startswith s p = true <-> exists r, s = p ++ r.
Proof.
  revert s. induction p as [|a p IH]; intros s; simpl.
  - split; [intros _; exists s; reflexivity | reflexivity].
  - destruct s as [|b s].
    + split; [discriminate | intros [r H]; discriminate].
    + rewrite andb_true_iff, IH. split.
      * intros [Hab [r ->]]. apply Ascii.eqb_eq in Hab. subst b.
        exists r. reflexivity.
      * intros [r H]. injection H as -> ->. split.
        -- apply Ascii.eqb_refl.
        -- exists r. reflexivity.
Qed.

(** [sub] occurs in [s] at offset [k]. *)
Definition occurs (s sub : str) (k : nat) : Prop :=
  startswith (skipn k s) sub = true.

Lemma find_from_spec (s sub : str) :
  forall i : nat,
    match find_from i s sub with
    | Some j =>
        exists k, j = (i + k)%nat /\ occurs s sub k
                  /\ forall k', (k' < k)%nat -> ~ occurs s sub k'
    | None => forall k, ~ occurs s sub k
    end.
Proof.
  unfold occurs. induction s as [|c s IH]; intros i.
  - cbn [find_from]. destruct (startswith [] sub) eqn:E.
    + exists 0%nat. split; [lia|]. split; [exact E|]. intros k' Hk. lia.
    + intros k. rewrite skipn_nil. rewrite E. discriminate.
  - cbn [find_from]. destruct (startswith (c :: s) sub) eqn:E.
    + exists 0%nat. split; [lia|]. split; [exact E|]. intros k' Hk. lia.
    + specialize (IH (S i)). destruct (find_from (S i) s sub) as [j|].
      * destruct IH as [k [Hj [Hk Hmin]]]. exists (S k).
        split; [lia|]. split; [exact Hk|].
        intros [|k'] Hlt; [simpl; rewrite E; discriminate|].
        simpl. apply Hmin. lia.
      * intros [|k]; [simpl; rewrite E; discriminate|]. simpl. apply IH.
Qed.

(** [s.find(sub)] is the least offset at which [sub] occurs, and [-1]
    exactly when it occurs nowhere. *)
Lemma find_spec (s sub : str) :
  (find s sub = -1 /\ forall k, ~ occurs s sub k)
  \/ (exists k : nat, find s sub = Z.of_nat k /\ occurs s sub k
                      /\ forall k', (k' < k)%nat -> ~ occurs s sub k').
Proof.
  unfold find. pose proof (find_from_spec s sub 0) as H.
  destruct (find_from 0 s sub) as [j|].
  - right. destruct H as [k [Hj [Hk Hmin]]]. exists k. simpl in Hj. subst j. auto.
  - left. auto.
Qed.

Lemma slice_inside (s : str) (a b : Z) :
  0 <= a -> a <= b -> b <= len s ->
  slice s a b = firstn (Z.to_nat (b - a)) (skipn (Z.to_nat a) s).
Proof.
  intros Ha Hab Hb. unfold slice, clamp_index.
  destruct (Z.ltb_spec a 0); [lia|]. destruct (Z.ltb_spec b 0); [lia|].
  rewrite !Z.min_l by lia. reflexivity.
Qed.

Lemma len_slice (s : str) (a b : Z) :
  0 <= a -> a <= b -> b <= len s -> len (slice s a b) = b - a.
Proof.
  intros Ha Hab Hb. rewrite slice_inside by assumption. unfold len in *.
  rewrite length_firstn, length_skipn. lia.
Qed.

(** An occurrence in the slice [s[a:b]] is an occurrence in [s] that
    ends at or before [b]. *)
Lemma occurs_slice (s sub : str) (a b : Z) (k : nat) :
  0 <= a -> a <= b -> b <= len s -> sub <> [] ->
  occurs (slice s a b) sub k
  <-> a + Z.of_nat k + len sub <= b /\ occurs s sub (Z.to_nat a + k).
Proof.
  intros Ha Hab Hb Hsub. unfold occurs.
  assert (0 < List.length sub)%nat by (destruct sub; [congruence | simpl; lia]). rewrite slice_inside by assumption.
  rewrite skipn_firstn_comm, skipn_skipn, startswith_firstn.
  replace (k + Z.to_nat a)%nat with (Z.to_nat a + k)%nat by lia.
  unfold len. split; intros [H1 H2]; (split; [lia | exact H2]).
Qed.

Lemma startswith_nth (s p : str) :
  startswith s p = true ->
  forall i c, nth_error p i = Some c -> nth_error s i = Some c.
Proof.
  revert s. induction p as [|a p IH]; intros s H i c Hi.
  - destruct i; discriminate.
  - destruct s as [|b s]; [discriminate|]. simpl in H.
    apply andb_true_iff in H as [Hab H]. apply Ascii.eqb_eq in Hab. subst b.
    destruct i as [|i]; simpl in *; [exact Hi|]. apply (IH s H i c Hi).
Qed.

(** The characters of an occurrence are characters of the string. *)
Lemma occurs_nth (s sub : str) (k i : nat) (c : ascii) :
  occurs s sub k -> nth_error sub i = Some c -> nth_error s (k + i) = Some c.
Proof.
  unfold occurs. intros H Hi.
  rewrite <- nth_error_skipn. apply (startswith_nth _ _ H i c Hi).
Qed.

Lemma index_nth (s : str) (i : Z) :
  0 <= i -> index s i = nth_error s (Z.to_nat i).
Proof.
  intros H. unfold index.
  destruct (Z.ltb_spec i (- len s)); [pose proof (len_nonneg s); lia|].
  destruct (Z.leb_spec (len s) i); simpl.
  - symmetry. apply nth_error_None. unfold len in *. lia.
  - destruct (Z.ltb_spec i 0); [lia | reflexivity].
Qed.

(** The last character of a string that ends clean is not whitespace. *)
Lemma ends_clean_last (s : str) (c : ascii) :
  ends_clean s -> nth_error s (List.length s - 1) = Some c -> is_space c = false.
Proof.
  unfold ends_clean. rewrite <- (rev_involutive s) at 2 3.
  rewrite length_rev, nth_error_rev.
  destruct (rev s) as [|d r]; [discriminate|]. cbn [List.length].
  replace (S (List.length r) - 1)%nat with (List.length r) by lia.
  rewrite (proj2 (Nat.ltb_lt _ _)) by lia. rewrite Nat.sub_diag. simpl.
  intros H Hc. congruence.
Qed.

End PyStrFacts.

(** ** The chunker *)

Module ChunkerFacts.
Import PyStr PyStrFacts Chunker.

(** *** Whitespace normalisation *)

(** Every whitespace character is a space and is not followed by
    whitespace. *)
Fixpoint single_spaced (s : str) : Prop :=
  match s with
  | [] => True
  | c :: s' => (is_space c = true -> c = SP /\ starts_clean s') /\ single_spaced s'
  end.

Lemma sub_space_runs_single_spaced (s : str) (in_run : bool) :
  single_spaced (sub_space_runs in_run s)
  /\ (in_run = true -> starts_clean (sub_space_runs in_run s)).
Proof.
  revert in_run. induction s as [|c s IH]; intros in_run; simpl.
  - auto.
  - destruct (is_space c) eqn:E.
    + destruct (IH true) as [H1 H2]. destruct in_run; simpl.
      * auto.
      * split; [|discriminate]. split; [|exact H1].
        intros _. split; [reflexivity | apply H2; reflexivity].
    + destruct (IH false) as [H1 _]. simpl. split.
      * split; [|exact H1]. rewrite E. discriminate.
      * intros _. exact E.
Qed.

Lemma sub_space_runs_id (s : str) (in_run : bool) :
  single_spaced s -> (in_run = true -> starts_clean s) ->
  sub_space_runs in_run s = s.
Proof.
  revert in_run. induction s as [|c s IH]; intros in_run Hs Hb; simpl.
  - reflexivity.
  - destruct Hs as [Hc Hs]. destruct (is_space c) eqn:E.
    + destruct (Hc eq_refl) as [-> Hclean].
      destruct in_run.
      * specialize (Hb eq_refl). simpl in Hb. rewrite Hb in E. discriminate.
      * f_equal. apply IH; auto.
    + f_equal. apply IH; [exact Hs|discriminate].
Qed.

Lemma single_spaced_no_newline (s : str) :
  single_spaced s -> forallb (fun c => negb (is_newline c)) s = true.
Proof.
  induction s as [|c s IH]; simpl; [reflexivity|].
  intros [Hc Hs]. rewrite (IH Hs), andb_true_r.
  destruct (is_newline c) eqn:E; [|reflexivity].
  destruct (Hc (is_newline_space c E)) as [-> _]. discriminate.
Qed.

Lemma sub_blank_lines_id (s : str) :
  forallb (fun c => negb (is_newline c)) s = true -> sub_blank_lines 0 s = s.
Proof.
  induction s as [|c s IH]; simpl; [reflexivity|].
  intros H. apply andb_true_iff in H as [H1 H2].
  apply negb_true_iff in H1. rewrite H1. f_equal. apply IH. exact H2.
Qed.

Lemma single_spaced_app (a b : str) :
  single_spaced (a ++ b) -> single_spaced a /\ single_spaced b.
Proof.
  induction a as [|c a IH]; simpl.
  - auto.
  - intros [Hc Hs]. destruct (IH Hs) as [Ha Hb]. split; [|exact Hb].
    split; [|exact Ha]. intros E. destruct (Hc E) as [-> Hcl].
    split; [reflexivity|]. destruct a; [exact I | exact Hcl].
Qed.

Lemma single_spaced_strip (s : str) : single_spaced s -> single_spaced (strip s).
Proof.
  intros H. destruct (strip_split s) as [a [b [E _]]].
  rewrite E in H. apply single_spaced_app in H as [_ H].
  apply single_spaced_app in H as [H _]. exact H.
Qed.

(** What [_clean_text] returns: single spaces only, none at either end. *)
Definition normalized (s : str) : Prop :=
  single_spaced s /\ starts_clean s /\ ends_clean s.

Lemma clean_text_normalized (s : str) : normalized (_clean_text s).
Proof.
  unfold _clean_text, normalized.
  destruct (sub_space_runs_single_spaced s false) as [H _].
  rewrite (sub_blank_lines_id _ (single_spaced_no_newline _ H)).
  split; [apply single_spaced_strip; exact H|].
  split; [apply strip_starts_clean | apply strip_ends_clean].
Qed.

Lemma clean_text_fixes_normalized (s : str) : normalized s -> _clean_text s = s.
Proof.
  intros [H1 [H2 H3]]. unfold _clean_text.
  rewrite (sub_space_runs_id s false H1) by discriminate.
  rewrite (sub_blank_lines_id _ (single_spaced_no_newline _ H1)).
  apply strip_id; assumption.
Qed.

(** C9. Whitespace normalisation is idempotent: cleaning a text that
    [_clean_text] returned gives that text back. *)
Theorem clean_text_idempotent (s : str) :
  _clean_text (_clean_text s) = _clean_text s.
Proof. apply clean_text_fixes_normalized, clean_text_normalized. Qed.

(** *** Text extraction *)

(** What a page adds to the text of the document. *)
Definition page_contribution (page : page_outcome) : str :=
  match page with
  | Extracted page_text => page_text ++ [NL; NL]
  | Raised _ => []
  end.

(** The record of a page agrees with what the extraction of the page did. *)
Definition page_matches (page : page_outcome) (info : page_info) : Prop :=
  match page with
  | Extracted page_text =>
      text info = page_text /\ char_count info = len page_text
      /\ page_error info = None
  | Raised e =>
      text info = [] /\ char_count info = 0 /\ page_error info = Some e
  end.

Lemma extract_page_matches (n : Z) (page : page_outcome) (t : str)
  (infos : list page_info) :
  exists info,
    extract_page n page (t, infos) = (t ++ page_contribution page, infos ++ [info])
    /\ page_matches page info /\ page_number info = n + 1.
Proof.
  destruct page as [page_text|e]; simpl; eexists; split; try reflexivity.
  - simpl. auto.
  - rewrite app_nil_r. reflexivity.
  - simpl. auto.
Qed.

Lemma extract_pages_matches (ps : list page_outcome) :
  forall (n : Z) (t : str) (infos : list page_info),
  exists new,
    extract_pages n ps (t, infos)
    = (t ++ concat (map page_contribution ps), infos ++ new)
    /\ Forall2 page_matches ps new
    /\ (forall i info, nth_error new i = Some info ->
                       page_number info = n + Z.of_nat i + 1).
Proof.
  induction ps as [|page ps IH]; intros n t infos; cbn [extract_pages map concat].
  - exists []. rewrite !app_nil_r. split; [reflexivity|]. split; [constructor|].
    intros [|i] info; discriminate.
  - destruct (extract_page_matches n page t infos) as [info [E [Hm Hn]]].
    rewrite E. destruct (IH (n + 1) (t ++ page_contribution page) (infos ++ [info]))
      as [new [E' [Hf Hnum]]].
    exists (info :: new). rewrite E', <- !app_assoc. split; [reflexivity|].
    split; [constructor; assumption|].
    intros [|i] info' Hi; simpl in Hi.
    + injection Hi as <-. lia.
    + rewrite (Hnum i info' Hi). lia.
Qed.

Definition has_text (info : page_info) : bool :=
  match text info with [] => false | _ => true end.

Definition has_error (info : page_info) : bool :=
  match page_error info with Some _ => true | None => false end.

(** C6, as amended. When extraction raises on some pages of a document
    that can be opened, [extract_text_from_pdf] still visits every page
    and returns success: the pages are recorded one by one, in order and
    numbered from 1; a failing page is recorded with its error and empty
    text, a succeeding page with its text and no error. The full text is
    the texts of the succeeding pages, each followed by a blank line,
    with the whitespace at both ends of the whole removed. For three
    pages of which only the second fails: [page_count] is 3, two records
    carry the (non-empty) texts of pages 1 and 3, one record carries the
    error, and the full text is the stripped text of page 1, a blank
    line, and page 3. *)
Theorem extract_text_keeps_going_after_page_errors :
  (forall ps : list page_outcome,
     let r := extract_text_from_pdf (Readable ps) in
     success r = true
     /\ page_count r = Z.of_nat (List.length ps)
     /\ Forall2 page_matches ps (pages r)
     /\ (forall i info, nth_error (pages r) i = Some info ->
                        page_number info = Z.of_nat i + 1)
     /\ full_text r = strip (concat (map page_contribution ps)))
  /\ (forall p1 e p3 : str,
        let r := extract_text_from_pdf
                   (Readable [Extracted p1; Raised e; Extracted p3]) in
        page_count r = 3
        /\ map text (pages r) = [p1; []; p3]
        /\ map page_error (pages r) = [None; Some e; None]
        /\ (p1 <> [] -> p3 <> [] ->
            List.length (List.filter has_text (pages r)) = 2%nat)
        /\ List.length (List.filter has_error (pages r)) = 1%nat
        /\ full_text r = strip (p1 ++ [NL; NL] ++ p3)).
Proof.
  split.
  - intros ps r. subst r. unfold extract_text_from_pdf.
    destruct (extract_pages_matches ps 0 [] []) as [new [E [Hf Hn]]].
    rewrite E. simpl. repeat split; auto.
  - intros p1 e p3 r. subst r. simpl.
    split; [reflexivity|]. split; [reflexivity|]. split; [reflexivity|].
    split; [|split; [reflexivity|]].
    + intros H1 H3. unfold has_text. simpl.
      destruct p1; [congruence|]. destruct p3; [congruence|]. reflexivity.
    + rewrite <- app_assoc. rewrite (app_assoc p1 [NL; NL] (p3 ++ [NL; NL])).
      rewrite (app_assoc (p1 ++ [NL; NL]) p3 [NL; NL]).
      rewrite strip_spaces_app by reflexivity.
      rewrite <- app_assoc. reflexivity.
Qed.

(** The amended statement at a document whose first and third pages
    have text. *)
Lemma extract_text_keeps_going_witness :
  let r := extract_text_from_pdf
             (Readable [Extracted (lit "Page one"); Raised (lit "boom");
                        Extracted (lit "Page three" ++ [NL])]) in
  List.length (List.filter has_text (pages r)) = 2%nat
  /\ full_text r = lit "Page one" ++ [NL; NL] ++ lit "Page three".
Proof.
  destruct extract_text_keeps_going_after_page_errors as [_ H].
  specialize (H (lit "Page one") (lit "boom") (lit "Page three" ++ [NL])).
  destruct H as [_ [_ [_ [H2 [_ H3]]]]]. split.
  - apply H2; discriminate.
  - rewrite H3. reflexivity.
Defined.

(** C6 as stated fails: when the third page ends with a newline, the
    full text is not the two page texts joined by a blank line, because
    the whole is stripped. *)
Lemma full_text_is_not_the_plain_concatenation :
  let p1 := lit "Page one" in
  let p3 := lit "Page three" ++ [NL] in
  let r := extract_text_from_pdf (Readable [Extracted p1; Raised (lit "boom");
                                            Extracted p3]) in
  p1 <> [] /\ p3 <> [] /\ full_text r <> p1 ++ [NL; NL] ++ p3.
Proof. cbv zeta. repeat split; discriminate. Qed.

(** *** The natural-break search *)

(** [brk] occurs in [text] at position [p], and the occurrence lies
    inside the window from [search_start] to [search_end]. *)
Definition break_in_window (text : str) (search_start search_end : Z)
  (brk : str) (p : Z) : Prop :=
  search_start <= p /\ p + len brk <= search_end
  /\ occurs text brk (Z.to_nat p).

(** [p] is the first position of [brk] in the window. *)
Definition first_in_window (text : str) (search_start search_end : Z)
  (brk : str) (p : Z) : Prop :=
  break_in_window text search_start search_end brk p
  /\ forall q, break_in_window text search_start search_end brk q -> p <= q.

Lemma find_in_window (text brk : str) (ss se : Z) :
  0 <= ss -> ss <= se -> se <= len text -> brk <> [] ->
  (find (slice text ss se) brk = -1
   /\ forall p, ~ break_in_window text ss se brk p)
  \/ (exists p, find (slice text ss se) brk = p - ss
                /\ first_in_window text ss se brk p).
Proof.
  intros H0 H1 H2 Hb.
  destruct (find_spec (slice text ss se) brk) as [[E Hnone]|[k [E [Hk Hmin]]]].
  - left. split; [exact E|]. intros p [Hp1 [Hp2 Hp3]].
    apply (Hnone (Z.to_nat (p - ss))).
    apply occurs_slice; try assumption. split; [lia|].
    replace (Z.to_nat ss + Z.to_nat (p - ss))%nat with (Z.to_nat p) by lia.
    exact Hp3.
  - right. exists (ss + Z.of_nat k). split; [lia|].
    apply occurs_slice in Hk as [Hk1 Hk2]; try assumption.
    split.
    + split; [lia|]. split; [lia|].
      replace (Z.to_nat (ss + Z.of_nat k)) with (Z.to_nat ss + k)%nat by lia.
      exact Hk2.
    + intros q [Hq1 [Hq2 Hq3]].
      destruct (Z.le_gt_cases (ss + Z.of_nat k) q) as [|Hlt]; [assumption|].
      exfalso. apply (Hmin (Z.to_nat (q - ss))); [lia|].
      apply occurs_slice; try assumption. split; [lia|].
      replace (Z.to_nat ss + Z.to_nat (q - ss))%nat with (Z.to_nat q) by lia.
      exact Hq3.
Qed.

Section BreakSearch.

Variables (search_text : str) (search_start preferred_end : Z).

(** Where the first occurrence of a break kind in the search text ends,
    as a position in the whole text. *)
Definition candidate (brk : str) : option Z :=
  if find search_text brk =? -1 then None
  else Some (search_start + find search_text brk + len brk).

Definition distance (a : Z) : Z := Z.abs (a - preferred_end).

Lemma consider_break_candidate (best : option Z * option Z) (brk : str) :
  consider_break search_text search_start preferred_end best brk
  = match candidate brk with
    | None => best
    | Some a => if closer (distance a) (snd best)
                then (Some a, Some (distance a)) else best
    end.
Proof.
  unfold consider_break, candidate, distance.
  destruct (find search_text brk =? -1); reflexivity.
Qed.

(** What the loop over the break kinds has established once the kinds
    in [seen] have been considered. *)
Definition best_among (seen : list str) (best : option Z * option Z) : Prop :=
  match best with
  | (None, None) => forall brk, In brk seen -> candidate brk = None
  | (Some a, Some d) =>
      d = distance a
      /\ exists i brk,
          nth_error seen i = Some brk /\ candidate brk = Some a
          /\ forall j brk' a',
              nth_error seen j = Some brk' -> candidate brk' = Some a' ->
              d <= distance a' /\ ((j < i)%nat -> d < distance a')
  | _ => False
  end.

Lemma nth_error_snoc {A : Type} (l : list A) (x y : A) (j : nat) :
  nth_error (l ++ [x]) j = Some y ->
  ((j < List.length l)%nat /\ nth_error l j = Some y)
  \/ (j = List.length l /\ y = x).
Proof.
  intros H. destruct (Nat.lt_ge_cases j (List.length l)) as [Hlt|Hge].
  - left. split; [exact Hlt|]. rewrite nth_error_app1 in H by exact Hlt. exact H.
  - right. rewrite nth_error_app2 in H by exact Hge.
    destruct (j - List.length l)%nat as [|m] eqn:E; simpl in H.
    + split; [lia | congruence].
    + destruct m; discriminate.
Qed.

Lemma best_among_step (seen : list str) (best : option Z * option Z) (brk : str) :
  best_among seen best ->
  best_among (seen ++ [brk])
    (consider_break search_text search_start preferred_end best brk).
Proof.
  intros Hinv. rewrite consider_break_candidate.
  destruct (candidate brk) as [a|] eqn:Ec.
  - destruct best as [[b|] [d|]]; simpl in *; try contradiction.
    + destruct Hinv as [Hd [i [bi [Hi [Hci Hall]]]]].
      assert (Hi' : (i < List.length seen)%nat)
        by (apply nth_error_Some; congruence).
      destruct (Z.ltb_spec (distance a) d) as [Hlt|Hge]; simpl.
      * split; [reflexivity|]. exists (List.length seen), brk.
        split; [rewrite nth_error_app2 by lia; rewrite Nat.sub_diag; reflexivity|].
        split; [exact Ec|]. intros j brk' a' Hj Hc.
        apply nth_error_snoc in Hj as [[Hjl Hj]|[-> ->]].
        -- destruct (Hall j brk' a' Hj Hc) as [H1 _]. split; [lia|]. intros _. lia.
        -- rewrite Ec in Hc. injection Hc as <-. split; lia.
      * split; [exact Hd|]. exists i, bi.
        split; [rewrite nth_error_app1 by exact Hi'; exact Hi|].
        split; [exact Hci|]. intros j brk' a' Hj Hc.
        apply nth_error_snoc in Hj as [[Hjl Hj]|[-> ->]].
        -- apply (Hall j brk' a' Hj Hc).
        -- rewrite Ec in Hc. injection Hc as <-. split; lia.
    + split; [reflexivity|]. exists (List.length seen), brk.
      split; [rewrite nth_error_app2 by lia; rewrite Nat.sub_diag; reflexivity|].
      split; [exact Ec|]. intros j brk' a' Hj Hc.
      apply nth_error_snoc in Hj as [[Hjl Hj]|[-> ->]].
      * apply nth_error_In in Hj. rewrite (Hinv brk' Hj) in Hc. discriminate.
      * rewrite Ec in Hc. injection Hc as <-. split; lia.
  - destruct best as [[b|] [d|]]; simpl in *; try contradiction.
    + destruct Hinv as [Hd [i [bi [Hi [Hci Hall]]]]].
      assert (Hi' : (i < List.length seen)%nat)
        by (apply nth_error_Some; congruence).
      split; [exact Hd|]. exists i, bi.
      split; [rewrite nth_error_app1 by exact Hi'; exact Hi|].
      split; [exact Hci|]. intros j brk' a' Hj Hc.
      apply nth_error_snoc in Hj as [[Hjl Hj]|[-> ->]].
      * apply (Hall j brk' a' Hj Hc).
      * congruence.
    + intros brk' Hin. apply in_app_or in Hin as [Hin|[<-|[]]]; auto.
Qed.

Lemma best_among_fold (todo seen : list str) (best : option Z * option Z) :
  best_among seen best ->
  best_among (seen ++ todo)
    (fold_left (consider_break search_text search_start preferred_end) todo best).
Proof.
  revert seen best. induction todo as [|brk todo IH]; intros seen best Hinv.
  - rewrite app_nil_r. exact Hinv.
  - cbn [fold_left].
    replace (seen ++ brk :: todo) with ((seen ++ [brk]) ++ todo)
      by (rewrite <- app_assoc; reflexivity).
    apply IH, best_among_step, Hinv.
Qed.

End BreakSearch.

Lemma index_inside (text : str) (i : Z) :
  0 <= i -> i < len text -> exists c, index text i = Some c.
Proof.
  intros H0 H1. unfold index.
  destruct (Z.ltb_spec i (- len text)); [lia|].
  destruct (Z.leb_spec (len text) i); [lia|]. simpl.
  destruct (Z.ltb_spec i 0); [lia|].
  destruct (nth_error text (Z.to_nat i)) eqn:E; [eauto|].
  apply nth_error_None in E. unfold len in H1. lia.
Qed.

(** The backward scan returns one past the nearest space at or before
    [i], among the [steps] positions it visits. *)
Lemma nearest_space_spec (text : str) (steps : nat) :
  forall i, i < len text -> 0 <= i - Z.of_nat steps + 1 ->
  match nearest_space text i steps with
  | Some (Some r) =>
      exists j, i - Z.of_nat steps < j <= i /\ index text j = Some SP
                /\ r = j + 1
                /\ forall j', j < j' <= i -> index text j' <> Some SP
  | Some None =>
      forall j, i - Z.of_nat steps < j <= i -> index text j <> Some SP
  | None => False
  end.
Proof.
  induction steps as [|n IH]; intros i Hi H0; cbn [nearest_space].
  - intros j Hj. lia.
  - destruct (Z.ltb_spec i (len text)); [|lia].
    destruct (index_inside text i) as [c Ec]; [lia | lia |]. rewrite Ec.
    destruct (Ascii.eqb c SP) eqn:Esp.
    + apply Ascii.eqb_eq in Esp. subst c. exists i.
      split; [lia|]. split; [exact Ec|]. split; [reflexivity|]. intros j' Hj'. lia.
    + assert (Hne : index text i <> Some SP).
      { rewrite Ec. intros Heq. injection Heq as ->.
        rewrite Ascii.eqb_refl in Esp. discriminate. }
      specialize (IH (i - 1) ltac:(lia) ltac:(lia)).
      destruct (nearest_space text (i - 1) n) as [[r|]|]; [| |exact IH].
      * destruct IH as [j [Hj [Hsp [Hr Hmax]]]]. exists j.
        split; [lia|]. split; [exact Hsp|]. split; [exact Hr|].
        intros j' Hj'. destruct (Z.eq_dec j' i) as [->|]; [exact Hne|].
        apply Hmax. lia.
      * intros j Hj. destruct (Z.eq_dec j i) as [->|]; [exact Hne|].
        apply IH. lia.
Qed.

Lemma break_chars_nonempty (brk : str) : In brk break_chars -> len brk = 2.
Proof.
  unfold break_chars. simpl.
  intros H; repeat (destruct H as [<-|H]; [reflexivity|]); contradiction.
Qed.

(** The window of a call whose arguments lie inside the text. *)
Definition window_start (start preferred_end : Z) : Z :=
  Z.max (preferred_end - search_window start preferred_end) start.

Definition window_end (text : str) (start preferred_end : Z) : Z :=
  Z.min (preferred_end + search_window start preferred_end) (len text).

Lemma window_bounds (text : str) (start preferred_end : Z) :
  0 <= start -> start < preferred_end -> preferred_end < len text ->
  0 <= search_window start preferred_end
  /\ search_window start preferred_end <= 50
  /\ 2 * search_window start preferred_end <= preferred_end - start
  /\ window_start start preferred_end
     = preferred_end - search_window start preferred_end
  /\ start <= window_start start preferred_end
  /\ window_start start preferred_end <= preferred_end
  /\ preferred_end <= window_end text start preferred_end
  /\ window_end text start preferred_end <= len text.
Proof.
  intros H0 H1 H2. unfold window_start, window_end, search_window.
  pose proof (Z.div_pos (preferred_end - start) 2 ltac:(lia) ltac:(lia)).
  pose proof (Z.mul_div_le (preferred_end - start) 2 ltac:(lia)).
  lia.
Qed.

(** The candidate of a break kind is the end of its first occurrence in
    the window. *)
Lemma candidate_first_in_window (text brk : str) (start preferred_end : Z) :
  0 <= start -> start < preferred_end -> preferred_end < len text ->
  In brk break_chars ->
  let ss := window_start start preferred_end in
  let se := window_end text start preferred_end in
  match candidate (slice text ss se) ss brk with
  | Some a => exists p, first_in_window text ss se brk p /\ a = p + len brk
  | None => forall p, ~ break_in_window text ss se brk p
  end.
Proof.
  intros H0 H1 H2 Hin ss se.
  destruct (window_bounds text start preferred_end H0 H1 H2)
    as [? [? [? [? [? [? [? ?]]]]]]].
  assert (Hne : brk <> []).
  { intros ->. apply break_chars_nonempty in Hin. discriminate. }
  unfold candidate.
  destruct (find_in_window text brk ss se) as [[E Hnone]|[p [E Hfirst]]];
    try (subst ss se; lia); try assumption.
  - rewrite E. simpl. exact Hnone.
  - rewrite E. pose proof Hfirst as [[Hp1 _] _].
    destruct (Z.eqb_spec (p - ss) (-1)); [lia|].
    exists p. split; [exact Hfirst | lia].
Qed.

Lemma find_natural_break_inside (text : str) (start preferred_end : Z) :
  0 <= start -> start < preferred_end -> preferred_end < len text ->
  let ss := window_start start preferred_end in
  let se := window_end text start preferred_end in
  _find_natural_break text start preferred_end
  = match fst (fold_left (consider_break (slice text ss se) ss preferred_end)
                 break_chars (None, None)) with
    | Some p => p
    | None =>
        match nearest_space text preferred_end
                (Z.to_nat (preferred_end - (ss - 1))) with
        | Some (Some p) => p
        | _ => preferred_end
        end
    end.
Proof.
  intros H0 H1 H2 ss se. unfold _find_natural_break.
  destruct (Z.leb_spec (len text) preferred_end); [lia|].
  destruct (Z.leb_spec preferred_end start); [lia|].
  fold (window_start start preferred_end).
  fold (window_end text start preferred_end). fold ss. fold se.
  destruct (fold_left _ break_chars (None, None)) as [[p|] d]; simpl;
    [reflexivity|].
  destruct (nearest_space _ _ _) as [[p|]|]; reflexivity.
Qed.

Lemma first_in_window_unique (text brk : str) (ss se p q : Z) :
  first_in_window text ss se brk p -> first_in_window text ss se brk q -> p = q.
Proof.
  intros [Hp Hpmin] [Hq Hqmin]. specialize (Hpmin q Hq). specialize (Hqmin p Hp).
  lia.
Qed.

(** How the result of a call inside the text arises: from a break in the
    window, from a space at or before the preferred end, or as the
    preferred end itself. *)
Lemma find_natural_break_cases (text : str) (start preferred_end : Z) :
  0 <= start -> start < preferred_end -> preferred_end < len text ->
  let ss := window_start start preferred_end in
  let se := window_end text start preferred_end in
  let r := _find_natural_break text start preferred_end in
  (exists brk p, In brk break_chars /\ break_in_window text ss se brk p
                 /\ r = p + len brk)
  \/ (exists i, ss <= i <= preferred_end /\ index text i = Some SP /\ r = i + 1)
  \/ r = preferred_end.
Proof.
  intros H0 H1 H2. cbv zeta.
  rewrite find_natural_break_inside by assumption. cbv zeta.
  pose proof (fun brk => candidate_first_in_window text brk start preferred_end
                           H0 H1 H2) as Hcand.
  cbv zeta in Hcand.
  destruct (window_bounds text start preferred_end H0 H1 H2)
    as [? [? [? [Hss [? [? [? ?]]]]]]].
  remember (window_start start preferred_end) as ss eqn:Ess in *.
  remember (window_end text start preferred_end) as se eqn:Ese in *.
  assert (Hinv : best_among (slice text ss se) ss preferred_end break_chars
            (fold_left (consider_break (slice text ss se) ss preferred_end)
               break_chars (None, None))).
  { apply (best_among_fold (slice text ss se) ss preferred_end break_chars []).
    intros brk []. }
  destruct (fold_left _ break_chars (None, None)) as [[a|] [d|]];
    simpl in Hinv |- *; try contradiction.
  - left. destruct Hinv as [_ [i [brk [Hi [Hc _]]]]].
    apply nth_error_In in Hi. specialize (Hcand brk Hi). rewrite Hc in Hcand.
    destruct Hcand as [p [[Hp _] ->]]. exists brk, p. auto.
  - pose proof (nearest_space_spec text
                  (Z.to_nat (preferred_end - (ss - 1))) preferred_end
                  ltac:(lia) ltac:(lia)) as Hsp.
    destruct (nearest_space _ _ _) as [[r|]|]; [| right; right; reflexivity
                                              | contradiction].
    right; left. destruct Hsp as [j [Hj [Hsp [-> _]]]].
    exists j. split; [lia | auto].
Qed.

(** C7 as stated: whenever some break occurs in the window, the result
    is the end of an occurrence that no occurrence of any kind beats in
    distance to the preferred end. *)
Definition returns_nearest_of_all_occurrences (text : str)
  (start preferred_end : Z) : Prop :=
  let ss := window_start start preferred_end in
  let se := window_end text start preferred_end in
  let r := _find_natural_break text start preferred_end in
  (exists brk p, In brk break_chars /\ break_in_window text ss se brk p) ->
  exists brk p,
    In brk break_chars /\ break_in_window text ss se brk p /\ r = p + len brk
    /\ forall brk' p',
        In brk' break_chars -> break_in_window text ss se brk' p' ->
        Z.abs (r - preferred_end) <= Z.abs (p' + len brk' - preferred_end).

(** C7, as amended. For a start and a preferred end inside the text, with
    the window of [min(50, (preferred_end - start) // 2)] positions on
    either side of the preferred end: if some break kind occurs in the
    window, the result is the end of the first occurrence of one kind,
    which is at least as near to the preferred end as the first
    occurrence of every other kind and strictly nearer than those of the
    kinds before it in the priority order; occurrences after the first
    of a kind are not considered. If no break occurs in the window, the
    result is one past the nearest space among the positions from the
    start of the window to the preferred end, and the preferred end
    itself when there is no space among them. *)
Theorem find_natural_break_nearest_first_occurrence
  (text : str) (start preferred_end : Z) :
  0 <= start -> start < preferred_end -> preferred_end < len text ->
  let ss := window_start start preferred_end in
  let se := window_end text start preferred_end in
  let r := _find_natural_break text start preferred_end in
  ((exists brk p, In brk break_chars /\ break_in_window text ss se brk p) ->
   exists i brk p,
     nth_error break_chars i = Some brk
     /\ first_in_window text ss se brk p
     /\ r = p + len brk
     /\ forall j brk' p',
         nth_error break_chars j = Some brk' ->
         first_in_window text ss se brk' p' ->
         Z.abs (r - preferred_end) <= Z.abs (p' + len brk' - preferred_end)
         /\ ((j < i)%nat ->
             Z.abs (r - preferred_end) < Z.abs (p' + len brk' - preferred_end)))
  /\ ((forall brk p, In brk break_chars -> ~ break_in_window text ss se brk p) ->
      (forall i, ss <= i <= preferred_end -> index text i = Some SP ->
                 (forall j, i < j <= preferred_end -> index text j <> Some SP) ->
                 r = i + 1)
      /\ ((forall i, ss <= i <= preferred_end -> index text i <> Some SP) ->
          r = preferred_end)).
Proof.
  intros H0 H1 H2. cbv zeta.
  rewrite find_natural_break_inside by assumption. cbv zeta.
  pose proof (fun brk => candidate_first_in_window text brk start preferred_end
                           H0 H1 H2) as Hcand.
  cbv zeta in Hcand.
  destruct (window_bounds text start preferred_end H0 H1 H2)
    as [? [? [? [Hss [? [? [? ?]]]]]]].
  remember (window_start start preferred_end) as ss eqn:Ess in *.
  remember (window_end text start preferred_end) as se eqn:Ese in *.
  assert (Hinv : best_among (slice text ss se) ss preferred_end break_chars
            (fold_left (consider_break (slice text ss se) ss preferred_end)
               break_chars (None, None))).
  { apply (best_among_fold (slice text ss se) ss preferred_end break_chars []).
    intros brk []. }
  split.
  - intros [brk0 [p0 [Hin0 Hocc0]]].
    destruct (fold_left _ break_chars (None, None)) as [[a|] [d|]];
      simpl in Hinv |- *; try contradiction.
    + destruct Hinv as [-> [i [brk [Hi [Hc Hall]]]]].
      pose proof (Hcand brk (nth_error_In _ _ Hi)) as Hb. rewrite Hc in Hb.
      destruct Hb as [p [Hfirst ->]].
      exists i, brk, p. split; [exact Hi|]. split; [exact Hfirst|].
      split; [reflexivity|]. intros j brk' p' Hj Hfirst'.
      pose proof (Hcand brk' (nth_error_In _ _ Hj)) as Hb'.
      destruct (candidate (slice text ss se) ss brk') as [a'|] eqn:Ec'.
      * destruct Hb' as [q [Hq ->]].
        rewrite (first_in_window_unique _ _ _ _ _ _ Hfirst' Hq).
        apply (Hall j brk' _ Hj Ec').
      * exfalso. destruct Hfirst' as [Hocc _]. exact (Hb' p' Hocc).
    + exfalso. pose proof (Hcand brk0 Hin0) as Hb.
      rewrite (Hinv brk0 Hin0) in Hb. exact (Hb p0 Hocc0).
  - intros Hnone.
    assert (Hfst : fst (fold_left (consider_break (slice text ss se) ss
                                     preferred_end) break_chars (None, None))
                   = None).
    { destruct (fold_left _ break_chars (None, None)) as [[a|] [d|]];
        simpl in Hinv |- *; try contradiction; try reflexivity.
      destruct Hinv as [_ [i [brk [Hi [Hc _]]]]].
      pose proof (Hcand brk (nth_error_In _ _ Hi)) as Hb. rewrite Hc in Hb.
      destruct Hb as [p [[Hocc _] _]].
      exfalso. exact (Hnone brk p (nth_error_In _ _ Hi) Hocc). }
    rewrite Hfst.
    pose proof (nearest_space_spec text
                  (Z.to_nat (preferred_end - (ss - 1))) preferred_end
                  ltac:(lia) ltac:(lia)) as Hsp.
    split.
    + intros i Hi Hspace Hlast.
      destruct (nearest_space _ _ _) as [[r|]|]; [| |contradiction].
      * destruct Hsp as [j [Hj [Hjsp [-> Hjlast]]]].
        destruct (Z.lt_trichotomy i j) as [Hlt|[->|Hgt]]; [|reflexivity|].
        -- exfalso. apply (Hlast j); [lia | exact Hjsp].
        -- exfalso. apply (Hjlast i); [lia | exact Hspace].
      * exfalso. apply (Hsp i); [lia | exact Hspace].
    + intros Hnospace.
      destruct (nearest_space _ _ _) as [[r|]|]; [|reflexivity|contradiction].
      destruct Hsp as [j [Hj [Hjsp _]]].
      exfalso. apply (Hnospace j); [lia | exact Hjsp].
Qed.

(** A text with two sentence ends in the window around position 10: one
    ends at 7 and one at 10. *)
Definition two_sentence_ends : str := lit "aaaaa. a. aaaaaaaaaa".

Lemma two_sentence_ends_window :
  window_start 0 10 = 5 /\ window_end two_sentence_ends 0 10 = 15
  /\ _find_natural_break two_sentence_ends 0 10 = 7
  /\ break_in_window two_sentence_ends 5 15 (lit ". ") 5
  /\ break_in_window two_sentence_ends 5 15 (lit ". ") 8.
Proof.
  repeat split; try reflexivity; vm_compute; intros; discriminate.
Qed.

(** The amended statement at that text: the result is the end of the
    first occurrence of a break kind. *)
Lemma find_natural_break_witness :
  exists i brk p,
    nth_error break_chars i = Some brk
    /\ first_in_window two_sentence_ends 5 15 brk p
    /\ _find_natural_break two_sentence_ends 0 10 = p + len brk.
Proof.
  destruct two_sentence_ends_window as [Hs [He [_ [Hocc _]]]].
  destruct (find_natural_break_nearest_first_occurrence two_sentence_ends 0 10)
    as [H _]; [lia | lia | vm_compute; reflexivity |].
  rewrite Hs, He in H.
  destruct H as [i [brk [p [Hi [Hfirst [Hr _]]]]]].
  - exists (lit ". "), 5. split; [|exact Hocc]. simpl. tauto.
  - exists i, brk, p. auto.
Defined.

(** C7 as stated fails: the result ends the first sentence end of the
    window, at distance 3 from the preferred end, although the second
    one ends exactly at the preferred end. *)
Lemma nearest_of_all_occurrences_fails :
  _find_natural_break two_sentence_ends 0 10 = 7
  /\ break_in_window two_sentence_ends 5 15 (lit ". ") 8
  /\ ~ returns_nearest_of_all_occurrences two_sentence_ends 0 10.
Proof.
  destruct two_sentence_ends_window as [Hs [He [Hr [Hocc5 Hocc8]]]].
  split; [exact Hr|]. split; [exact Hocc8|].
  unfold returns_nearest_of_all_occurrences. rewrite Hs, He, Hr.
  intros H. destruct H as [brk [p [_ [_ [_ Hall]]]]].
  - exists (lit ". "), 5. split; [|exact Hocc5]. simpl. tauto.
  - specialize (Hall (lit ". ") 8). simpl in Hall.
    assert (Hin : In (lit ". ") break_chars) by (simpl; tauto).
    specialize (Hall Hin Hocc8). vm_compute in Hall. apply Hall. reflexivity.
Qed.

(** *** The chunking loop *)

Lemma break_chars_end_space (brk : str) :
  In brk break_chars -> exists x y, brk = [x; y] /\ is_space y = true.
Proof.
  unfold break_chars. simpl.
  intros H;
    repeat (destruct H as [<-|H]; [eexists; eexists; split; reflexivity|]);
    contradiction.
Qed.

(** No character of the text is whitespace. *)
Definition no_whitespace (s : str) : Prop :=
  forallb (fun c => negb (is_space c)) s = true.

Lemma no_whitespace_nth (s : str) (i : nat) (c : ascii) :
  no_whitespace s -> nth_error s i = Some c -> is_space c = false.
Proof.
  unfold no_whitespace. rewrite forallb_forall. intros H Hi.
  apply nth_error_In in Hi. apply H in Hi. apply negb_true_iff. exact Hi.
Qed.

(** Where a natural break inside the text can lie. *)
Lemma find_natural_break_range (text : str) (start preferred_end : Z) :
  0 <= start -> start < preferred_end -> preferred_end < len text ->
  let r := _find_natural_break text start preferred_end in
  window_start start preferred_end <= r
  /\ start < r
  /\ r <= len text
  /\ (ends_clean text -> r < len text)
  /\ (no_whitespace text -> r = preferred_end).
Proof.
  intros H0 H1 H2 r.
  destruct (window_bounds text start preferred_end H0 H1 H2)
    as [? [? [? [Hss [? [? [? ?]]]]]]].
  destruct (find_natural_break_cases text start preferred_end H0 H1 H2)
    as [[brk [p [Hin [[Hp1 [Hp2 Hocc]] Hr]]]]|[[i [Hi [Hsp Hr]]]|Hr]];
    fold r in Hr.
  - pose proof (break_chars_nonempty brk Hin) as Hlen.
    destruct (break_chars_end_space brk Hin) as [x [y [-> Hy]]].
    assert (Hnth : nth_error text (Z.to_nat p + 1) = Some y)
      by (apply (occurs_nth _ _ _ _ _ Hocc); reflexivity).
    repeat split; try lia.
    + intros Hclean. destruct (Z.eq_dec r (len text)) as [E|]; [|lia].
      exfalso. unfold len in E.
      replace (Z.to_nat p + 1)%nat with (List.length text - 1)%nat in Hnth by lia.
      rewrite (ends_clean_last text y Hclean Hnth) in Hy. discriminate.
    + intros Hnw. rewrite (no_whitespace_nth text _ y Hnw Hnth) in Hy.
      discriminate.
  - rewrite index_nth in Hsp by lia.
    repeat split; try lia.
    + intros Hclean. destruct (Z.eq_dec r (len text)) as [E|]; [|lia].
      exfalso. unfold len in E.
      replace (Z.to_nat i) with (List.length text - 1)%nat in Hsp by lia.
      pose proof (ends_clean_last text SP Hclean Hsp). discriminate.
    + intros Hnw. pose proof (no_whitespace_nth text _ SP Hnw Hsp). discriminate.
  - repeat split; lia.
Qed.

Lemma half_bounds (n : Z) : 1 <= n -> 0 <= n / 2 /\ 2 * (n / 2) <= n.
Proof.
  intros H. split; [apply Z.div_pos; lia | apply Z.mul_div_le; lia].
Qed.

(** Where a chunk that starts inside the text ends. *)
Lemma chunk_end_range (cfg : config) (text : str) (s : Z) :
  1 <= chunk_size cfg -> 0 <= s -> s < len text ->
  let e := chunk_end cfg text s in
  let w := Z.min 50 (chunk_size cfg / 2) in
  s < e
  /\ e <= len text
  /\ (s + chunk_size cfg < len text ->
      s + chunk_size cfg - w <= e
      /\ s + Z.max 1 (chunk_size cfg / 2) <= e
      /\ (ends_clean text -> e < len text)
      /\ (no_whitespace text -> e = s + chunk_size cfg))
  /\ (len text <= s + chunk_size cfg -> e = len text).
Proof.
  intros Hcs H0 H1 e w. subst e w. unfold chunk_end.
  destruct (half_bounds (chunk_size cfg) Hcs) as [Hh1 Hh2].
  destruct (Z.ltb_spec (s + chunk_size cfg) (len text)) as [Hlt|Hge].
  - destruct (find_natural_break_range text s (s + chunk_size cfg))
      as [Hr1 [Hr2 [Hr3 [Hr4 Hr5]]]]; try lia.
    unfold window_start, search_window in Hr1.
    replace (s + chunk_size cfg - s) with (chunk_size cfg) in Hr1 by lia.
    repeat split; auto; lia.
  - repeat split; intros; lia.
Qed.

(** With a positive chunk size every iteration moves the start forward. *)
Lemma next_start_advances (cfg : config) (text : str) (s : Z) :
  1 <= chunk_size cfg -> 0 <= s -> s < len text ->
  s < next_start cfg text s (chunk_end cfg text s).
Proof.
  intros Hcs H0 H1.
  destruct (chunk_end_range cfg text s Hcs H0 H1) as [He1 [He2 _]].
  destruct (half_bounds (chunk_size cfg) Hcs) as [Hh1 Hh2].
  unfold next_start.
  repeat match goal with
         | |- context [Z.ltb ?a ?b] => destruct (Z.ltb_spec a b)
         | |- context [Z.leb ?a ?b] => destruct (Z.leb_spec a b)
         end; simpl; lia.
Qed.

(** The forced advance is not undone by the test that follows it. *)
Lemma next_start_forced (cfg : config) (text : str) (s : Z) :
  1 <= chunk_size cfg -> 0 <= s -> s < len text ->
  chunk_end cfg text s - chunk_overlap cfg <= s ->
  next_start cfg text s (chunk_end cfg text s)
  = s + Z.max 1 (chunk_size cfg / 2).
Proof.
  intros Hcs H0 H1 Hstuck.
  destruct (chunk_end_range cfg text s Hcs H0 H1) as [He1 [He2 [He3 He4]]].
  unfold next_start.
  repeat match goal with
         | |- context [Z.ltb ?a ?b] => destruct (Z.ltb_spec a b)
         | |- context [Z.leb ?a ?b] => destruct (Z.leb_spec a b)
         end; simpl; try lia.
  all: destruct (Z.lt_ge_cases (s + chunk_size cfg) (len text)) as [Hlt|Hge];
    [destruct (He3 Hlt) as [_ [? _]] | specialize (He4 ltac:(lia))]; lia.
Qed.

(** *** Loops *)

Section While.

Context {S : Type} (cond : S -> bool) (body : S -> S).

(** Some iteration count up to [n] is the first at which the condition
    fails, when it fails after [n] iterations. *)
Lemma first_exit (n : nat) :
  forall st, cond (Nat.iter n body st) = false ->
  exists k, (k <= n)%nat
            /\ (forall j, (j < k)%nat -> cond (Nat.iter j body st) = true)
            /\ cond (Nat.iter k body st) = false.
Proof.
  induction n as [|n IH]; intros st H.
  - exists 0%nat. split; [lia|]. split; [intros j Hj; lia | exact H].
  - destruct (cond st) eqn:E.
    + rewrite Nat.iter_succ_r in H. destruct (IH (body st) H) as [k [Hk [Hj Hex]]].
      exists (Datatypes.S k). split; [lia|]. split.
      * intros [|j] Hlt; [exact E|]. rewrite Nat.iter_succ_r. apply Hj. lia.
      * rewrite Nat.iter_succ_r. exact Hex.
    + exists 0%nat. split; [lia|]. split; [intros j Hj; lia | exact E].
Qed.

(** The loop returns the state after the first iteration count at which
    the condition fails, given more fuel than that count. *)
Lemma while_loop_exit (k : nat) :
  forall st fuel,
    (forall j, (j < k)%nat -> cond (Nat.iter j body st) = true) ->
    cond (Nat.iter k body st) = false ->
    (k < fuel)%nat ->
    while_loop cond body fuel st = Some (Nat.iter k body st).
Proof.
  induction k as [|k IH]; intros st fuel Hj Hex Hfuel.
  - destruct fuel as [|fuel]; [lia|]. simpl in *. rewrite Hex. reflexivity.
  - destruct fuel as [|fuel]; [lia|]. cbn [while_loop].
    rewrite (Hj 0%nat ltac:(lia) : cond st = true).
    rewrite Nat.iter_succ_r. apply IH.
    + intros j Hlt. rewrite <- Nat.iter_succ_r. apply Hj. lia.
    + rewrite <- Nat.iter_succ_r. exact Hex.
    + lia.
Qed.

End While.

(** *** Termination of [create_text_chunks] *)

Lemma iteration_count_iter (cfg : config) (t name : str) (j : nat) (st : loop_state) :
  iteration_count (Nat.iter j (loop_body cfg t name) st)
  = iteration_count st + Z.of_nat j.
Proof.
  induction j as [|j IH]; [simpl; lia|].
  rewrite Nat.iter_succ. cbn [loop_body iteration_count]. rewrite IH. lia.
Qed.

Lemma max_iterations_ge (t : str) : 100 <= max_iterations t.
Proof.
  unfold max_iterations.
  pose proof (Z.div_pos (len t) 100 (len_nonneg t) ltac:(lia)). lia.
Qed.

Lemma no_whitespace_app (a b : str) :
  no_whitespace (a ++ b) <-> no_whitespace a /\ no_whitespace b.
Proof. unfold no_whitespace. rewrite forallb_app, andb_true_iff. reflexivity. Qed.

Lemma no_whitespace_slice (s : str) (a b : Z) :
  no_whitespace s -> 0 <= a -> a <= b -> b <= len s ->
  no_whitespace (slice s a b).
Proof.
  intros H Ha Hab Hb. rewrite slice_inside by assumption.
  rewrite <- (firstn_skipn (Z.to_nat a) s) in H.
  apply no_whitespace_app in H as [_ H].
  rewrite <- (firstn_skipn (Z.to_nat (b - a)) (skipn (Z.to_nat a) s)) in H.
  apply no_whitespace_app in H as [H _]. exact H.
Qed.

Lemma no_whitespace_normalized (s : str) : no_whitespace s -> normalized s.
Proof.
  intros H. split; [|split].
  - induction s as [|c s IH]; simpl; [exact I|].
    apply (no_whitespace_app [c] s) in H as [Hc Hs].
    split; [|apply IH; exact Hs].
    unfold no_whitespace in Hc. simpl in Hc. rewrite andb_true_r in Hc.
    apply negb_true_iff in Hc. rewrite Hc. discriminate.
  - destruct s as [|c s]; [exact I|]. simpl.
    apply (no_whitespace_nth _ 0%nat c H). reflexivity.
  - unfold ends_clean. destruct (rev s) as [|c r] eqn:E; [exact I|]. simpl.
    unfold no_whitespace in H. rewrite forallb_forall in H.
    apply negb_true_iff, H, in_rev. rewrite E. left. reflexivity.
Qed.

Lemma no_whitespace_strip (s : str) : no_whitespace s -> strip s = s.
Proof.
  intros H. destruct (no_whitespace_normalized s H) as [_ [H1 H2]].
  apply strip_id; assumption.
Qed.

Lemma loop_body_keeps_chunks (cfg : config) (t name : str) (st : loop_state) :
  chunks st <> [] -> chunks (loop_body cfg t name st) <> [].
Proof.
  intros H. cbn [loop_body chunks].
  destruct (min_chunk_size cfg <=? _); [|exact H].
  destruct (chunks st); [congruence | discriminate].
Qed.

Lemma iter_keeps_chunks (cfg : config) (t name : str) (j : nat) (st : loop_state) :
  chunks st <> [] -> chunks (Nat.iter j (loop_body cfg t name) st) <> [].
Proof.
  intros H. induction j as [|j IH]; [exact H|].
  rewrite Nat.iter_succ. apply loop_body_keeps_chunks, IH.
Qed.

(** On a text without whitespace the first iteration emits a chunk. *)
Lemma first_chunk_without_whitespace (cfg : config) (t name : str) :
  1 <= min_chunk_size cfg -> min_chunk_size cfg <= chunk_size cfg ->
  no_whitespace t -> min_chunk_size cfg <= len t ->
  chunks (loop_body cfg t name init_state) <> [].
Proof.
  intros Hmin Hcs Hnw Hlen. cbn [loop_body chunks init_state start].
  destruct (chunk_end_range cfg t 0 ltac:(lia) ltac:(lia) ltac:(lia))
    as [He1 [He2 [He3 He4]]].
  assert (He : min_chunk_size cfg <= chunk_end cfg t 0).
  { destruct (Z.lt_ge_cases (0 + chunk_size cfg) (len t)) as [Hlt|Hge].
    - destruct (He3 Hlt) as [_ [_ [_ He]]]. rewrite (He Hnw). lia.
    - rewrite (He4 Hge). exact Hlen. }
  rewrite (no_whitespace_strip (slice t 0 (chunk_end cfg t 0)))
    by (apply no_whitespace_slice; (assumption || lia)).
  rewrite len_slice by lia.
  destruct (Z.leb_spec (min_chunk_size cfg) (chunk_end cfg t 0 - 0)); [|lia].
  simpl. discriminate.
Qed.

(** The loop of [create_text_chunks] leaves after some number of
    iterations within the cap, and the function returns the chunks
    collected until then. *)
Lemma create_text_chunks_exit (cfg : config) (text name : str) :
  let t := _clean_text text in
  min_chunk_size cfg <= len t ->
  exists k : nat,
    Z.of_nat k <= max_iterations t
    /\ (forall j, (j < k)%nat ->
          loop_cond t (Nat.iter j (loop_body cfg t name) init_state) = true)
    /\ loop_cond t (Nat.iter k (loop_body cfg t name) init_state) = false
    /\ create_text_chunks cfg text name
       = chunks (Nat.iter k (loop_body cfg t name) init_state)
    /\ forall fuel, (k < fuel)%nat ->
         create_text_chunks_fuel fuel cfg text name
         = Some (create_text_chunks cfg text name).
Proof.
  intros t Hlen.
  pose proof (max_iterations_ge t) as Hmax.
  destruct (first_exit (loop_cond t) (loop_body cfg t name)
              (Z.to_nat (max_iterations t)) init_state) as [k [Hk [Hj Hex]]].
  { unfold loop_cond. rewrite iteration_count_iter.
    cbn [init_state iteration_count].
    rewrite (proj2 (Z.ltb_ge _ (max_iterations t))) by lia.
    apply andb_false_r. }
  assert (Hrun : forall fuel, (k < fuel)%nat ->
            create_text_chunks_fuel fuel cfg text name
            = Some (chunks (Nat.iter k (loop_body cfg t name) init_state))).
  { intros fuel Hfuel. unfold create_text_chunks_fuel. fold t.
    destruct (Z.ltb_spec (len t) (min_chunk_size cfg)); [lia|].
    rewrite (while_loop_exit _ _ k init_state fuel Hj Hex Hfuel). reflexivity. }
  assert (Hres : create_text_chunks cfg text name
                 = chunks (Nat.iter k (loop_body cfg t name) init_state)).
  { unfold create_text_chunks. rewrite Hrun; [reflexivity|].
    unfold enough_fuel. fold t. lia. }
  exists k. split; [lia|]. split; [exact Hj|]. split; [exact Hex|].
  split; [exact Hres|]. intros fuel Hfuel. rewrite Hres. apply Hrun, Hfuel.
Qed.

(** C1. A text that is shorter than the minimum chunk size after
    cleaning is returned as one chunk without entering the loop. For
    every other text, the loop of [create_text_chunks] runs for some
    number [k] of iterations that is at most [len(text) // 100 + 100],
    and the function returns the chunks collected in those iterations,
    whether the loop left because the start passed the end of the text
    or because the cap was reached; more fuel does not change the result.
    In an iteration whose advance [end - overlap] does not pass the old
    start, the new start is the old start plus [max(1, chunk_size // 2)]
    (for a positive chunk size). For a text without any whitespace that
    has at least [min_chunk_size] characters, at least one chunk is
    returned (when [1 <= min_chunk_size <= chunk_size], as configured). *)
Theorem chunking_terminates_within_cap (cfg : config) (text name : str) :
  let t := _clean_text text in
  (len t < min_chunk_size cfg ->
   create_text_chunks cfg text name = [whole_text_chunk t name])
  /\ (min_chunk_size cfg <= len t ->
   exists k : nat,
     Z.of_nat k <= len t / 100 + 100
     /\ (forall j, (j < k)%nat ->
           loop_cond t (Nat.iter j (loop_body cfg t name) init_state) = true)
     /\ loop_cond t (Nat.iter k (loop_body cfg t name) init_state) = false
     /\ create_text_chunks cfg text name
        = chunks (Nat.iter k (loop_body cfg t name) init_state)
     /\ forall fuel, (k < fuel)%nat ->
          create_text_chunks_fuel fuel cfg text name
          = Some (create_text_chunks cfg text name))
  /\ (1 <= chunk_size cfg ->
      forall st : loop_state,
        0 <= start st -> loop_cond t st = true ->
        chunk_end cfg t (start st) - chunk_overlap cfg <= start st ->
        start (loop_body cfg t name st)
        = start st + Z.max 1 (chunk_size cfg / 2))
  /\ (1 <= min_chunk_size cfg -> min_chunk_size cfg <= chunk_size cfg ->
      no_whitespace text -> min_chunk_size cfg <= len text ->
      create_text_chunks cfg text name <> []).
Proof.
  intros t. split; [|split; [|split]].
  - intros Hshort. unfold create_text_chunks, create_text_chunks_fuel.
    fold t. destruct (Z.ltb_spec (len t) (min_chunk_size cfg)); [|lia].
    reflexivity.
  - intros Hlen. apply (create_text_chunks_exit cfg text name Hlen).
  - intros Hcs st H0 Hcond Hstuck. cbn [loop_body start].
    unfold loop_cond in Hcond. apply andb_true_iff in Hcond as [Hlt _].
    apply Z.ltb_lt in Hlt. apply next_start_forced; assumption.
  - intros Hmin Hcs Hnw Hlen.
    assert (Et : t = text)
      by (apply clean_text_fixes_normalized, no_whitespace_normalized, Hnw).
    destruct (create_text_chunks_exit cfg text name) as [k [_ [_ [Hex [-> _]]]]];
      [fold t; rewrite Et; lia|].
    fold t in Hex |- *. rewrite Et in Hex |- *.
    destruct k as [|k].
    + exfalso. simpl in Hex. unfold loop_cond in Hex. simpl in Hex.
      pose proof (max_iterations_ge text).
      destruct (Z.ltb_spec 0 (len text)); [|lia].
      destruct (Z.ltb_spec 0 (max_iterations text)); [discriminate | lia].
    + rewrite Nat.iter_succ_r. apply iter_keeps_chunks.
      apply first_chunk_without_whitespace; assumption.
Qed.

(** The configured sizes and a text of 2500 letters: the loop ends
    within the cap and chunks come back. With an overlap above the chunk
    size the first advance is forced: from 0 to [max(1, 10 // 2)]. *)
Lemma chunking_terminates_witness :
  let text := repeat "a"%char 2500 in
  let tight := {| chunk_size := 10; chunk_overlap := 20; min_chunk_size := 5 |} in
  (exists k : nat,
      Z.of_nat k <= 125
      /\ create_text_chunks init_config text []
         = chunks (Nat.iter k (loop_body init_config text []) init_state))
  /\ create_text_chunks init_config text [] <> []
  /\ start (loop_body tight text [] init_state) = 5.
Proof.
  intros text tight.
  assert (Et : _clean_text text = text) by (vm_compute; reflexivity).
  destruct (chunking_terminates_within_cap init_config text [])
    as [_ [H1 [_ H3]]].
  destruct (chunking_terminates_within_cap tight text []) as [_ [_ [H2 _]]].
  rewrite Et in H1, H2. split; [|split].
  - destruct H1 as [k [Hk [_ [_ [Hres _]]]]].
    + vm_compute. discriminate.
    + exists k. split; [|exact Hres].
      replace 125 with (len text / 100 + 100) by (vm_compute; reflexivity).
      exact Hk.
  - apply H3;
      [vm_compute; discriminate | vm_compute; discriminate
       | vm_compute; reflexivity
       | change (len text) with (len (repeat "a"%char 2500));
         replace (len (repeat "a"%char 2500)) with 2500
           by (vm_compute; reflexivity);
         vm_compute; discriminate].
  - rewrite (H2 ltac:(vm_compute; discriminate) init_state);
      [reflexivity | vm_compute; discriminate | vm_compute; reflexivity
       | vm_compute; discriminate].
Defined.

(** *** Coverage of the text by the chunks *)

Lemma lstrip_len_single (u : str) : single_spaced u -> len u - 1 <= len (lstrip u).
Proof.
  destruct u as [|c u]; simpl; [unfold len; simpl; lia|].
  intros [Hc _]. destruct (is_space c) eqn:E; [|lia].
  destruct (Hc eq_refl) as [_ Hclean]. rewrite (lstrip_id u Hclean).
  rewrite len_cons. lia.
Qed.

Lemma rstrip_len_single (u : str) : single_spaced u -> len u - 1 <= len (rstrip u).
Proof.
  intros H. rewrite rstrip_rev. unfold len. rewrite length_rev.
  rewrite <- (length_rev u).
  destruct (rev u) as [|c v] eqn:E; simpl; [lia|].
  destruct (is_space c) eqn:Ec; [|simpl; lia].
  assert (Hv : starts_clean v).
  { destruct v as [|d v]; [exact I|]. simpl.
    assert (Eu : u = rev v ++ [d; c]).
    { rewrite <- (rev_involutive u), E. simpl. rewrite <- app_assoc. reflexivity. }
    rewrite Eu in H. apply single_spaced_app in H as [_ [Hd _]].
    destruct (is_space d) eqn:Ed; [|reflexivity].
    destruct (Hd eq_refl) as [_ Hcl]. simpl in Hcl. congruence. }
  rewrite (lstrip_id v Hv). lia.
Qed.

Lemma single_spaced_rstrip (u : str) : single_spaced u -> single_spaced (rstrip u).
Proof.
  intros H. destruct (rstrip_split u) as [w [E _]]. rewrite E in H.
  apply single_spaced_app in H as [H _]. exact H.
Qed.

(** Stripping a slice of a cleaned text removes at most one character
    at each end. *)
Lemma strip_len_single (u : str) : single_spaced u -> len u - 2 <= len (strip u).
Proof.
  intros H. unfold strip.
  pose proof (rstrip_len_single u H).
  pose proof (lstrip_len_single (rstrip u) (single_spaced_rstrip u H)). lia.
Qed.

Lemma strip_len_single_end (u : str) :
  single_spaced u -> ends_clean u -> len u - 1 <= len (strip u).
Proof.
  intros H He. unfold strip. rewrite (rstrip_id u He).
  apply lstrip_len_single, H.
Qed.

Lemma single_spaced_slice (t : str) (a b : Z) :
  single_spaced t -> 0 <= a -> a <= b -> b <= len t ->
  single_spaced (slice t a b).
Proof.
  intros H Ha Hab Hb. rewrite slice_inside by assumption.
  rewrite <- (firstn_skipn (Z.to_nat a) t) in H.
  apply single_spaced_app in H as [_ H].
  rewrite <- (firstn_skipn (Z.to_nat (b - a)) (skipn (Z.to_nat a) t)) in H.
  apply single_spaced_app in H as [H _]. exact H.
Qed.

Lemma slice_to_end (t : str) (a : Z) :
  0 <= a -> a <= len t -> slice t a (len t) = skipn (Z.to_nat a) t.
Proof.
  intros Ha Hb. rewrite slice_inside by lia.
  apply firstn_all2. rewrite length_skipn. unfold len. lia.
Qed.

Lemma ends_clean_slice_to_end (t : str) (a : Z) :
  ends_clean t -> 0 <= a -> a < len t -> ends_clean (slice t a (len t)).
Proof.
  intros H Ha Hb. rewrite slice_to_end by lia.
  apply (ends_clean_suffix (firstn (Z.to_nat a) t)).
  - rewrite firstn_skipn. exact H.
  - intros E. apply (f_equal (@List.length ascii)) in E.
    rewrite length_skipn in E. unfold len in Hb. simpl in E. lia.
Qed.

(** Every position below [n] lies in the range of some chunk. *)
Definition covers (cs : list chunk) (n : Z) : Prop :=
  forall p, 0 <= p < n ->
            exists c, In c cs /\ start_char c <= p < end_char c.

Lemma covers_snoc (cs : list chunk) (c : chunk) (n : Z) :
  covers cs n -> start_char c <= n -> covers (cs ++ [c]) (end_char c).
Proof.
  intros H Hs p Hp. destruct (Z.lt_ge_cases p n) as [Hlt|Hge].
  - destruct (H p ltac:(lia)) as [c' [Hin Hr]]. exists c'.
    split; [apply in_or_app; left; exact Hin | exact Hr].
  - exists c. split; [apply in_or_app; right; left; reflexivity | lia].
Qed.

Lemma covers_grows (cfg : config) (t name : str) (st : loop_state) (n : Z) :
  covers (chunks st) n -> covers (chunks (loop_body cfg t name st)) n.
Proof.
  intros H. cbn [loop_body chunks]. destruct (min_chunk_size cfg <=? _); [|exact H].
  intros p Hp. destruct (H p Hp) as [c [Hin Hr]]. exists c.
  split; [apply in_or_app; left; exact Hin | exact Hr].
Qed.

(** Sizes for which every chunk but a trailing one is long enough to be
    kept and every iteration advances by at least 100 positions. The
    sizes set by [__init__] are such. *)
Definition well_sized (cfg : config) : Prop :=
  let w := Z.min 50 (chunk_size cfg / 2) in
  1 <= chunk_size cfg
  /\ 0 <= chunk_overlap cfg
  /\ min_chunk_size cfg <= chunk_overlap cfg
  /\ min_chunk_size cfg + 2 <= chunk_size cfg - w
  /\ chunk_overlap cfg + 100 <= chunk_size cfg - w.

Lemma init_config_well_sized : well_sized init_config.
Proof. unfold well_sized. simpl. repeat split; vm_compute; discriminate. Qed.

Section Coverage.

Variables (cfg : config) (t name : str).
Hypothesis sized : well_sized cfg.
Hypothesis clean : normalized t.
Hypothesis long_enough : min_chunk_size cfg <= len t.

(** The loop has not reached the end of the text yet: the chunks cover
    the text up to some position at or after the current start. *)
Definition progressing (st : loop_state) : Prop :=
  0 <= start st /\ start st < len t
  /\ 100 * iteration_count st <= start st
  /\ (start st = 0 \/ start st + chunk_overlap cfg < len t)
  /\ exists E, covers (chunks st) E /\ start st <= E.

Definition coverage_invariant (st : loop_state) : Prop :=
  covers (chunks st) (len t) \/ progressing st.

Lemma coverage_invariant_init : coverage_invariant init_state.
Proof.
  destruct (Z.eq_dec (len t) 0) as [E|Hne].
  - left. intros p Hp. lia.
  - right. pose proof (len_nonneg t). unfold progressing. simpl.
    repeat split; try lia. exists 0. split; [intros p Hp; lia | lia].
Qed.

Lemma coverage_invariant_step (st : loop_state) :
  coverage_invariant st -> loop_cond t st = true ->
  coverage_invariant (loop_body cfg t name st).
Proof.
  intros [Hdone|Hprog] Hcond.
  - left. apply covers_grows, Hdone.
  - destruct Hprog as [H0 [H1 [Hic [Hfirst [E [Hcov HE]]]]]].
    destruct sized as [Hcs [Hov [Hmo [Hmw How]]]].
    destruct clean as [Hss [Hsc Hec]].
    destruct (chunk_end_range cfg t (start st) Hcs H0 H1) as [He1 [He2 [He3 He4]]].
    cbv zeta in He3. set (w := Z.min 50 (chunk_size cfg / 2)) in *.
    remember (chunk_end cfg t (start st)) as e eqn:Ee in *.
    assert (Hemit : min_chunk_size cfg <= len (strip (slice t (start st) e))).
    { destruct (Z.lt_ge_cases (start st + chunk_size cfg) (len t)) as [Hlt|Hge].
      - destruct (He3 Hlt) as [Hlow _].
        pose proof (strip_len_single (slice t (start st) e)
                      (single_spaced_slice t (start st) e Hss H0
                         ltac:(lia) He2)) as Hs.
        rewrite len_slice in Hs by lia. lia.
      - rewrite (He4 Hge) in *. destruct Hfirst as [E0|Hfar].
        + rewrite E0. rewrite slice_to_end by lia. simpl.
          rewrite strip_id by assumption. exact long_enough.
        + pose proof (strip_len_single_end (slice t (start st) (len t))
                        (single_spaced_slice t (start st) (len t) Hss H0
                           ltac:(lia) ltac:(lia))
                        (ends_clean_slice_to_end t _ Hec H0 H1)) as Hs.
          rewrite len_slice in Hs by lia. lia. }
    assert (Hcov' : covers (chunks (loop_body cfg t name st)) e).
    { cbn [loop_body chunks]. rewrite <- Ee.
      destruct (Z.leb_spec (min_chunk_size cfg)
                  (len (strip (slice t (start st) e)))); [|lia].
      match goal with
      | |- covers (_ ++ [?c]) _ => apply (covers_snoc (chunks st) c E Hcov)
      end. simpl. exact HE. }
    destruct (Z.lt_ge_cases (start st + chunk_size cfg) (len t)) as [Hlt|Hge].
    + right. destruct (He3 Hlt) as [Hlow [_ [Hend _]]]. specialize (Hend Hec).
      assert (Hnext : start (loop_body cfg t name st) = e - chunk_overlap cfg).
      { cbn [loop_body start]. rewrite <- Ee. unfold next_start.
        repeat match goal with
               | |- context [Z.ltb ?a ?b] => destruct (Z.ltb_spec a b)
               | |- context [Z.leb ?a ?b] => destruct (Z.leb_spec a b)
               end; simpl; lia. }
      unfold progressing. rewrite Hnext. cbn [loop_body iteration_count].
      repeat split; try lia.
      exists e. split; [exact Hcov' | lia].
    + left. rewrite (He4 Hge) in Hcov'. exact Hcov'.
Qed.

Lemma coverage_invariant_iter (k : nat) :
  (forall j, (j < k)%nat ->
     loop_cond t (Nat.iter j (loop_body cfg t name) init_state) = true) ->
  coverage_invariant (Nat.iter k (loop_body cfg t name) init_state).
Proof.
  induction k as [|k IH]; intros Hj.
  - apply coverage_invariant_init.
  - rewrite Nat.iter_succ. apply coverage_invariant_step.
    + apply IH. intros j Hlt. apply Hj. lia.
    + apply Hj. lia.
Qed.

(** When the loop leaves, the whole text is covered: the cap cannot
    have stopped it earlier. *)
Lemma coverage_at_exit (st : loop_state) :
  coverage_invariant st -> loop_cond t st = false ->
  covers (chunks st) (len t).
Proof.
  intros [Hdone|Hprog] Hcond; [exact Hdone|].
  destruct Hprog as [H0 [H1 [Hic _]]]. exfalso.
  unfold loop_cond in Hcond. apply andb_false_iff in Hcond as [Hc|Hc].
  - apply Z.ltb_ge in Hc. lia.
  - apply Z.ltb_ge in Hc. unfold max_iterations in Hc.
    pose proof (Z.div_mod (len t) 100 ltac:(lia)).
    pose proof (Z.mod_pos_bound (len t) 100 ltac:(lia)). lia.
Qed.

End Coverage.

(** Coverage for any sizes that are [well_sized]. *)
Lemma create_text_chunks_covers (cfg : config) (text name : str) :
  well_sized cfg ->
  min_chunk_size cfg <= len (_clean_text text) ->
  covers (create_text_chunks cfg text name) (len (_clean_text text)).
Proof.
  intros Hsized Hlen.
  destruct (create_text_chunks_exit cfg text name Hlen)
    as [k [_ [Hj [Hex [-> _]]]]].
  apply coverage_at_exit with (cfg := cfg); [|exact Hex].
  apply coverage_invariant_iter; try assumption.
  apply clean_text_normalized.
Qed.

(** C3. With the sizes that [__init__] sets, for every text whose
    cleaned form has at least [min_chunk_size] characters, every
    position of the cleaned text lies in the range from [start_char] to
    [end_char] of some returned chunk: the ranges cover the text without
    a gap. *)
Theorem chunks_cover_the_text (text name : str) :
  min_chunk_size init_config <= len (_clean_text text) ->
  forall p, 0 <= p < len (_clean_text text) ->
    exists c, In c (create_text_chunks init_config text name)
              /\ start_char c <= p < end_char c.
Proof.
  intros Hlen.
  apply (create_text_chunks_covers init_config text name
           init_config_well_sized Hlen).
Qed.

(** The statement at a text of 2500 letters. *)
Lemma chunks_cover_the_text_witness :
  min_chunk_size init_config <= len (_clean_text (repeat "a"%char 2500))
  /\ covers (create_text_chunks init_config (repeat "a"%char 2500) []) 2500.
Proof.
  assert (E : len (_clean_text (repeat "a"%char 2500)) = 2500)
    by (vm_compute; reflexivity).
  assert (H : min_chunk_size init_config
              <= len (_clean_text (repeat "a"%char 2500)))
    by (rewrite E; vm_compute; discriminate).
  split; [exact H|]. unfold covers. rewrite <- E.
  apply (chunks_cover_the_text (repeat "a"%char 2500) [] H).
Defined.

End ChunkerFacts.

(** ** Parsing the model's answer *)

Module ExtractorFacts.
Import PyStr PyStrFacts Json Extractor.

(** The rows that a call of [json.loads] yields when it returns a
    non-empty array. *)
Definition non_empty_array (r : loads_result) : option (list json) :=
  match r with
  | Parsed (JArray (row :: rows)) => Some (row :: rows)
  | _ => None
  end.

Lemma split_aux_nonempty (s sep cur : str) (skip : nat) :
  (1 <= List.length (split_aux skip cur s sep))%nat.
Proof.
  revert skip cur. induction s as [|c s IH]; intros skip cur; simpl; [lia|].
  destruct skip as [|k]; [|apply IH].
  destruct (startswith (c :: s) sep); [simpl; lia | apply IH].
Qed.

Lemma split_aux_found (sep s : str) :
  sep <> [] ->
  forall (i : nat) (cur : str),
    find_from i s sep <> None ->
    (2 <= List.length (split_aux 0 cur s sep))%nat.
Proof.
  intros Hsep. induction s as [|c s IH]; intros i cur H.
  - cbn [find_from] in H. destruct sep; [congruence|]. simpl in H. congruence.
  - cbn [find_from] in H. cbn [split_aux].
    destruct (startswith (c :: s) sep) eqn:E.
    + pose proof (split_aux_nonempty s sep [] (List.length sep - 1)).
      cbn [List.length]. lia.
    + apply (IH (S i)). exact H.
Qed.

(** A separator that occurs splits the string into two pieces at least. *)
Lemma split_contains (sep s : str) :
  sep <> [] -> contains s sep = true ->
  (2 <= List.length (split s sep))%nat.
Proof.
  intros Hsep H. unfold contains in H. unfold split.
  apply (split_aux_found sep s Hsep 0%nat).
  destruct (find_from 0 s sep); [discriminate | discriminate].
Qed.

(** Taking the text out of the fence never fails. *)
Lemma remove_markdown_total (response_text : str) :
  exists inner, remove_markdown response_text = Some inner.
Proof.
  assert (Hfirst : forall s, exists x, nth_error (split s FENCE) 0 = Some x).
  { intros s. pose proof (split_aux_nonempty s FENCE [] 0) as H.
    unfold split. destruct (split_aux 0 [] s FENCE); [simpl in H; lia|].
    eexists. reflexivity. }
  assert (Hsecond : forall s sep, sep <> [] -> contains s sep = true ->
                      exists x, nth_error (split s sep) 1 = Some x).
  { intros s sep Hsep Hc. pose proof (split_contains sep s Hsep Hc) as H.
    destruct (split s sep) as [|a [|b l]]; simpl in H; try lia.
    eexists. reflexivity. }
  unfold remove_markdown.
  destruct (contains response_text JSON_FENCE) eqn:E1.
  - destruct (Hsecond _ JSON_FENCE ltac:(discriminate) E1) as [x ->]. apply Hfirst.
  - destruct (contains response_text FENCE) eqn:E2.
    + destruct (Hsecond _ FENCE ltac:(discriminate) E2) as [x ->]. apply Hfirst.
    + eexists. reflexivity.
Qed.

Section Candidates.

Variable json_loads : str -> loads_result.

Lemma try_candidates_first (candidates : list str) :
  forall (i : nat) (c : str) (rows : list json),
    nth_error candidates i = Some c ->
    non_empty_array (json_loads c) = Some rows ->
    (forall j c', (j < i)%nat -> nth_error candidates j = Some c' ->
                  json_loads c' <> OtherException
                  /\ non_empty_array (json_loads c') = None) ->
    try_candidates json_loads candidates = rows.
Proof.
  induction candidates as [|c0 cs IH]; intros i c rows Hi Hrows Hbefore.
  - destruct i; discriminate.
  - destruct i as [|i]; simpl in Hi.
    + injection Hi as ->. simpl.
      destruct (json_loads c) as [[| | | | |[|r rs]|]| |]; simpl in Hrows;
        try discriminate. congruence.
    + destruct (Hbefore 0%nat c0 ltac:(lia) eq_refl) as [Hne Hnone].
      cbn [try_candidates].
      assert (Hrest : try_candidates json_loads cs = rows).
      { apply (IH i c rows Hi Hrows). intros j c' Hj Hc'.
        apply (Hbefore (S j) c'); [lia | exact Hc']. }
      destruct (json_loads c0) as [[| | | | |[|r rs]|]| |]; simpl in Hnone;
        try discriminate; try exact Hrest. congruence.
Qed.

Lemma try_candidates_none (candidates : list str) :
  (forall c, In c candidates -> non_empty_array (json_loads c) = None) ->
  try_candidates json_loads candidates = [].
Proof.
  induction candidates as [|c0 cs IH]; intros H; [reflexivity|].
  cbn [try_candidates]. pose proof (H c0 (or_introl eq_refl)) as H0.
  assert (Hrest : try_candidates json_loads cs = [])
    by (apply IH; intros c Hc; apply H; right; exact Hc).
  destruct (json_loads c0) as [[| | | | |[|r rs]|]| |]; simpl in H0;
    try discriminate; try exact Hrest. reflexivity.
Qed.

Lemma try_candidates_other_exception (candidates : list str) :
  forall (i : nat) (c : str),
    nth_error candidates i = Some c ->
    json_loads c = OtherException ->
    (forall j c', (j < i)%nat -> nth_error candidates j = Some c' ->
                  non_empty_array (json_loads c') = None) ->
    try_candidates json_loads candidates = [].
Proof.
  induction candidates as [|c0 cs IH]; intros i c Hi Hexc Hbefore.
  - reflexivity.
  - destruct i as [|i]; simpl in Hi.
    + injection Hi as ->. simpl. rewrite Hexc. reflexivity.
    + pose proof (Hbefore 0%nat c0 ltac:(lia) eq_refl) as Hnone.
      cbn [try_candidates].
      assert (Hrest : try_candidates json_loads cs = []).
      { apply (IH i c Hi Hexc). intros j c' Hj Hc'.
        apply (Hbefore (S j) c'); [lia | exact Hc']. }
      destruct (json_loads c0) as [[| | | | |[|r rs]|]| |]; simpl in Hnone;
        try discriminate; try exact Hrest. reflexivity.
Qed.

End Candidates.

(** The candidates that [parse_ai_response] tries, in order. *)
Definition candidates_of (response_text : str) : list str :=
  match remove_markdown response_text with
  | Some inner => json_candidates (strip inner)
  | None => []
  end.

Lemma parse_ai_response_candidates (json_loads : str -> loads_result)
  (response_text : str) :
  parse_ai_response json_loads response_text
  = try_candidates json_loads (candidates_of response_text).
Proof.
  unfold parse_ai_response, candidates_of.
  destruct (remove_markdown response_text); reflexivity.
Qed.

(** The two answers of the specification. *)
Definition fenced_answer : str :=
  lit "Here is the data:" ++ [NL] ++ lit "```json" ++ [NL]
  ++ lit "[{" ++ [DQ] ++ lit "a" ++ [DQ] ++ lit ":1}]" ++ [NL]
  ++ lit "```" ++ [NL] ++ lit "Thanks!".

Definition fenced_array : str :=
  lit "[{" ++ [DQ] ++ lit "a" ++ [DQ] ++ lit ":1}]".

Definition invalid_answer : str := lit "[invalid json".

Lemma rev'_rev {A : Type} (l : list A) : rev' l = rev l.
Proof. unfold rev'. rewrite <- rev_alt. reflexivity. Qed.

(** *** Occurrences of a separator *)

(** [sep] occurs nowhere in [s]. *)
Definition absent (sep s : str) : Prop := forall k : nat, ~ occurs s sep k.

(** [s] is [pre], then its first occurrence of [sep], then [post]. *)
Definition first_occurrence (sep s pre post : str) : Prop :=
  s = pre ++ sep ++ post
  /\ forall k : nat, (k < List.length pre)%nat -> ~ occurs s sep k.

(** [piece] is the text of [s] before its first [sep], or all of [s]
    when [sep] does not occur in it. *)
Definition up_to (sep s piece : str) : Prop :=
  (absent sep s /\ piece = s) \/ exists post, first_occurrence sep s piece post.

Lemma occurs_decompose (s sep : str) (k : nat) :
  occurs s sep k ->
  s = firstn k s ++ sep ++ skipn (k + List.length sep) s.
Proof.
  unfold occurs. intros H.
  apply startswith_app in H as [r Hr].
  rewrite <- (firstn_skipn k s) at 1. f_equal.
  rewrite Hr. f_equal.
  rewrite Nat.add_comm, <- skipn_skipn, Hr.
  rewrite skipn_app, skipn_all, Nat.sub_diag. reflexivity.
Qed.

Lemma occurs_here (sep post : str) : occurs (sep ++ post) sep 0.
Proof.
  unfold occurs. simpl. apply startswith_app. eexists. reflexivity.
Qed.

Lemma find_from_cases (s sep : str) :
  (find_from 0 s sep = None /\ absent sep s)
  \/ (exists k, find_from 0 s sep = Some k
                /\ first_occurrence sep s (firstn k s)
                     (skipn (k + List.length sep) s)
                /\ occurs s sep k).
Proof.
  pose proof (find_from_spec s sep 0) as H.
  destruct (find_from 0 s sep) as [j|].
  - right. destruct H as [k [Hj [Hk Hmin]]]. simpl in Hj. subst j.
    exists k. split; [reflexivity|]. split; [|exact Hk]. split.
    + apply occurs_decompose, Hk.
    + intros k' Hk'. apply Hmin.
      rewrite length_firstn in Hk'. lia.
  - left. split; [reflexivity | exact H].
Qed.

Lemma contains_cases (s sep : str) :
  (contains s sep = false /\ absent sep s)
  \/ (contains s sep = true
      /\ exists pre post, first_occurrence sep s pre post).
Proof.
  unfold contains.
  destruct (find_from_cases s sep) as [[-> Ha]|[k [-> [Hf _]]]].
  - left. auto.
  - right. split; [reflexivity|]. eauto.
Qed.

(** *** [split] *)

Lemma split_aux_skip (sep a rest : str) :
  forall cur, split_aux (List.length a) cur (a ++ rest) sep
              = split_aux 0 cur rest sep.
Proof.
  induction a as [|x a IH]; intros cur; [reflexivity|].
  cbn [List.length app split_aux]. apply IH.
Qed.

Lemma split_aux_at (h : ascii) (sep' rest cur : str) :
  split_aux 0 cur ((h :: sep') ++ rest) (h :: sep')
  = rev' cur :: split_aux 0 [] rest (h :: sep').
Proof.
  cbn [app split_aux].
  assert (E : startswith (h :: sep' ++ rest) (h :: sep') = true)
    by (apply startswith_app; eexists; reflexivity).
  rewrite E. f_equal.
  cbn [List.length]. rewrite Nat.sub_1_r. cbn [Nat.pred]. apply split_aux_skip.
Qed.

Lemma split_aux_first (h : ascii) (sep' post : str) (pre : str) :
  forall cur,
    (forall k : nat, (k < List.length pre)%nat ->
                     ~ occurs (pre ++ (h :: sep') ++ post) (h :: sep') k) ->
    split_aux 0 cur (pre ++ (h :: sep') ++ post) (h :: sep')
    = rev' (rev pre ++ cur) :: split_aux 0 [] post (h :: sep').
Proof.
  induction pre as [|c pre IH]; intros cur Hmin.
  - apply split_aux_at.
  - cbn [app split_aux].
    match goal with
    | |- context [startswith ?a ?b] => destruct (startswith a b) eqn:E
    end.
    + exfalso. apply (Hmin 0%nat); [simpl; lia | exact E].
    + change (h :: sep' ++ post) with ((h :: sep') ++ post). rewrite IH.
      * cbn [rev]. rewrite <- app_assoc. reflexivity.
      * intros k Hk Hocc. apply (Hmin (S k)); [simpl; lia | exact Hocc].
Qed.

(** Splitting at a separator: the first piece ends at the first
    occurrence, and the rest is split in the same way. *)
Lemma split_first_occurrence (sep s pre post : str) :
  sep <> [] -> first_occurrence sep s pre post ->
  split s sep = pre :: split post sep.
Proof.
  intros Hsep [-> Hmin]. destruct sep as [|h sep']; [congruence|].
  unfold split. rewrite split_aux_first by exact Hmin.
  rewrite app_nil_r, rev'_rev, rev_involutive. reflexivity.
Qed.

Lemma split_aux_none (sep s : str) :
  forall i cur, find_from i s sep = None ->
    sep <> [] ->
    split_aux 0 cur s sep = [rev' (rev s ++ cur)].
Proof.
  induction s as [|c s IH]; intros i cur H Hsep.
  - reflexivity.
  - cbn [find_from] in H. cbn [split_aux].
    destruct (startswith (c :: s) sep); [discriminate|].
    rewrite (IH (S i) (c :: cur) H Hsep). cbn [rev]. rewrite <- app_assoc.
    reflexivity.
Qed.

Lemma split_absent (sep s : str) :
  sep <> [] -> absent sep s -> split s sep = [s].
Proof.
  intros Hsep Ha. unfold split.
  destruct (find_from_cases s sep) as [[E _]|[k [_ [_ Hk]]]].
  - rewrite (split_aux_none sep s 0 [] E Hsep).
    rewrite app_nil_r, rev'_rev, rev_involutive. reflexivity.
  - exfalso. exact (Ha k Hk).
Qed.

(** The first piece of a split. *)
Lemma split_head (sep s : str) :
  sep <> [] ->
  exists piece, nth_error (split s sep) 0 = Some piece /\ up_to sep s piece.
Proof.
  intros Hsep.
  destruct (find_from_cases s sep) as [[_ Ha]|[k [_ [Hf _]]]].
  - exists s. rewrite split_absent by assumption. split; [reflexivity|].
    left. auto.
  - exists (firstn k s). rewrite (split_first_occurrence sep s _ _ Hsep Hf).
    split; [reflexivity|]. right. eauto.
Qed.

(** *** The text inside the fence *)

(** The text that follows the first [opening] in [response] up to the
    next [opening] or the end, cut at its first closing fence. *)
Definition fenced_by (opening response inner : str) : Prop :=
  exists pre rest piece,
    first_occurrence opening response pre rest
    /\ up_to opening rest piece
    /\ up_to FENCE piece inner.

(** The text that [parse_ai_response] goes on with: the text fenced by
    [```json] when the answer holds one, otherwise the text fenced by
    [```] when it holds one, otherwise the whole answer. *)
Definition text_in_fence (response inner : str) : Prop :=
  fenced_by JSON_FENCE response inner
  \/ (absent JSON_FENCE response /\ fenced_by FENCE response inner)
  \/ (absent FENCE response /\ inner = response).

Lemma fenced_text (opening response : str) :
  opening <> [] ->
  (exists pre post, first_occurrence opening response pre post) ->
  exists inner,
    match nth_error (split response opening) 1 with
    | Some piece => nth_error (split piece FENCE) 0
    | None => None
    end = Some inner
    /\ fenced_by opening response inner.
Proof.
  intros Hop [pre [rest Hfirst]].
  rewrite (split_first_occurrence opening response pre rest Hop Hfirst).
  change (nth_error (pre :: split rest opening) 1)
    with (nth_error (split rest opening) 0).
  destruct (split_head opening rest Hop) as [piece [-> Hpiece]].
  destruct (split_head FENCE piece ltac:(discriminate)) as [inner [-> Hinner]].
  exists inner. split; [reflexivity|]. exists pre, rest, piece. auto.
Qed.

Lemma remove_markdown_spec (response_text : str) :
  exists inner,
    remove_markdown response_text = Some inner
    /\ text_in_fence response_text inner.
Proof.
  unfold remove_markdown, text_in_fence.
  destruct (contains_cases response_text JSON_FENCE) as [[-> Hj]|[-> Hj]].
  - destruct (contains_cases response_text FENCE) as [[-> Hf]|[-> Hf]].
    + exists response_text. auto.
    + destruct (fenced_text FENCE response_text ltac:(discriminate) Hf)
        as [inner [-> H]].
      exists inner. auto.
  - destruct (fenced_text JSON_FENCE response_text ltac:(discriminate) Hj)
      as [inner [-> H]].
    exists inner. auto.
Qed.

(** *** Brackets *)

Definition OPEN : ascii := "["%char.
Definition CLOSE : ascii := "]"%char.

(** [s] holds no opening bracket with a closing bracket after it. *)
Definition no_bracket_pair (s : str) : Prop :=
  forall pre mid post, s <> pre ++ OPEN :: mid ++ CLOSE :: post.

(** The span from the first opening bracket to the last closing
    bracket, when the one comes before the other. *)
Definition outer_span (text : str) (span : list str) : Prop :=
  (exists pre mid post,
     text = pre ++ OPEN :: mid ++ CLOSE :: post
     /\ ~ In OPEN pre /\ ~ In CLOSE post
     /\ span = [OPEN :: mid ++ [CLOSE]])
  \/ (no_bracket_pair text /\ span = []).

(** The bracket-delimited substrings in order: each runs from the next
    opening bracket to the first closing bracket after it, and the
    search goes on behind that closing bracket. *)
Inductive blocks_of : str -> list str -> Prop :=
| blocks_none (s : str) : no_bracket_pair s -> blocks_of s []
| blocks_cons (pre body post : str) (rest : list str) :
    ~ In OPEN pre -> ~ In CLOSE body -> blocks_of post rest ->
    blocks_of (pre ++ OPEN :: body ++ CLOSE :: post)
      ((OPEN :: body ++ [CLOSE]) :: rest).

Lemma split_at_first (c : ascii) (s : str) :
  In c s -> exists a b, s = a ++ c :: b /\ ~ In c a.
Proof.
  induction s as [|x s IH]; intros H; [destruct H|].
  destruct (ascii_dec x c) as [->|Hne].
  - exists [], s. split; [reflexivity | intros []].
  - destruct H as [H|H]; [contradiction|].
    destruct (IH H) as [a [b [-> Ha]]].
    exists (x :: a), b. split; [reflexivity|].
    intros [E|E]; [contradiction | exact (Ha E)].
Qed.

Lemma split_at_last (c : ascii) (s : str) :
  In c s -> exists a b, s = a ++ c :: b /\ ~ In c b.
Proof.
  intros H. apply in_rev in H.
  destruct (split_at_first c (rev s) H) as [a [b [E Ha]]].
  exists (rev b), (rev a). split.
  - rewrite <- (rev_involutive s), E, rev_app_distr. simpl.
    rewrite <- app_assoc. reflexivity.
  - intros Hin. apply Ha. apply in_rev. exact Hin.
Qed.

(** What follows the first [c] holds whatever follows any [c]. *)
Lemma after_first (c : ascii) (pre r pre' x : str) :
  ~ In c pre -> pre ++ c :: r = pre' ++ c :: x ->
  forall d, In d x -> In d r.
Proof.
  revert pre'. induction pre as [|a pre IH]; intros pre' Hno E d Hd.
  - destruct pre' as [|b pre']; simpl in E.
    + injection E as <-. exact Hd.
    + injection E as _ ->. apply in_or_app. right. right. exact Hd.
  - destruct pre' as [|b pre']; simpl in E.
    + injection E as <- _. exfalso. apply Hno. left. reflexivity.
    + injection E as _ E. apply (IH pre'); [|exact E|exact Hd].
      intros Hin. apply Hno. right. exact Hin.
Qed.

Lemma no_pair_without_open (s : str) : ~ In OPEN s -> no_bracket_pair s.
Proof.
  intros Hno pre mid post ->. apply Hno. apply in_or_app. right. left. reflexivity.
Qed.

Lemma no_pair_without_close (pre r : str) :
  ~ In OPEN pre -> ~ In CLOSE r -> no_bracket_pair (pre ++ OPEN :: r).
Proof.
  intros Hpre Hr pre' mid post E. apply Hr.
  apply (after_first OPEN pre r pre' (mid ++ CLOSE :: post) Hpre E).
  apply in_or_app. right. left. reflexivity.
Qed.

(** *** [find] and [rfind] of one character *)

Lemma find_from_char_absent (c : ascii) (s : str) :
  ~ In c s -> forall i, find_from i s [c] = None.
Proof.
  induction s as [|a s IH]; intros Hno i; [reflexivity|].
  cbn [find_from startswith].
  destruct (Ascii.eqb_spec c a) as [->|_]; [exfalso; apply Hno; left; reflexivity|].
  cbn [andb]. apply IH. intros H. apply Hno. right. exact H.
Qed.

Lemma find_from_char_first (c : ascii) (pre rest : str) :
  ~ In c pre ->
  forall i, find_from i (pre ++ c :: rest) [c] = Some (i + List.length pre)%nat.
Proof.
  induction pre as [|a pre IH]; intros Hno i.
  - cbn [app find_from startswith]. rewrite Ascii.eqb_refl. simpl. f_equal. lia.
  - cbn [app find_from startswith].
    destruct (Ascii.eqb_spec c a) as [->|_]; [exfalso; apply Hno; left; reflexivity|].
    cbn [andb]. rewrite IH by (intros H; apply Hno; right; exact H).
    f_equal. simpl. lia.
Qed.

Lemma rfind_from_char_absent (c : ascii) (s : str) :
  ~ In c s -> forall i, rfind_from i s [c] = None.
Proof.
  induction s as [|a s IH]; intros Hno i; [reflexivity|].
  cbn [rfind_from]. rewrite IH by (intros H; apply Hno; right; exact H).
  cbn [startswith].
  destruct (Ascii.eqb_spec c a) as [->|_]; [exfalso; apply Hno; left; reflexivity|].
  reflexivity.
Qed.

Lemma rfind_from_char_last (c : ascii) (pre post : str) :
  ~ In c post ->
  forall i, rfind_from i (pre ++ c :: post) [c] = Some (i + List.length pre)%nat.
Proof.
  intros Hno. induction pre as [|a pre IH]; intros i.
  - cbn [app rfind_from]. rewrite rfind_from_char_absent by exact Hno.
    cbn [startswith]. rewrite Ascii.eqb_refl. simpl. f_equal. lia.
  - cbn [app rfind_from]. rewrite IH. f_equal. simpl. lia.
Qed.

Lemma rfind_from_bound (c : ascii) (s : str) :
  forall i j, rfind_from i s [c] = Some j -> (j < i + List.length s)%nat.
Proof.
  induction s as [|a s IH]; intros i j H.
  - discriminate.
  - cbn [rfind_from] in H.
    destruct (rfind_from (S i) s [c]) as [j'|] eqn:E.
    + injection H as <-. apply IH in E. simpl. lia.
    + destruct (startswith (a :: s) [c]); [|discriminate].
      injection H as <-. simpl. lia.
Qed.

(** *** The candidates *)

Lemma slice_middle (pre mid post : str) :
  slice (pre ++ mid ++ post) (len pre) (len pre + len mid) = mid.
Proof.
  pose proof (len_nonneg pre). pose proof (len_nonneg mid).
  pose proof (len_nonneg post).
  rewrite slice_inside by (rewrite ?len_app; lia).
  replace (len pre + len mid - len pre) with (len mid) by lia.
  unfold len. rewrite !Nat2Z.id.
  rewrite skipn_app, skipn_all, Nat.sub_diag, skipn_O. cbn [app].
  rewrite firstn_app, firstn_all, Nat.sub_diag, firstn_O. apply app_nil_r.
Qed.

Lemma span_candidate (text : str) :
  let json_start := find text (lit "[") in
  let json_end := rfind text (lit "]") + 1 in
  outer_span text
    (if (0 <=? json_start) && (json_start <? json_end)
     then [slice text json_start json_end] else []).
Proof.
  cbv zeta. change (lit "[") with [OPEN]. change (lit "]") with [CLOSE].
  unfold find, rfind.
  destruct (in_dec ascii_dec OPEN text) as [Hin|Hno].
  - destruct (split_at_first OPEN text Hin) as [pre [r [-> Hpre]]].
    rewrite find_from_char_first by exact Hpre.
    destruct (in_dec ascii_dec CLOSE r) as [Hc|Hnc].
    + destruct (split_at_last CLOSE r Hc) as [mid [post [-> Hpost]]].
      left. exists pre, mid, post.
      split; [reflexivity|]. split; [exact Hpre|]. split; [exact Hpost|].
      replace (pre ++ OPEN :: mid ++ CLOSE :: post)
        with ((pre ++ OPEN :: mid) ++ CLOSE :: post)
        by (rewrite <- app_assoc; reflexivity).
      rewrite rfind_from_char_last by exact Hpost.
      rewrite length_app. cbn [List.length Nat.add].
      destruct (Z.leb_spec 0 (Z.of_nat (List.length pre))); [|lia].
      destruct (Z.ltb_spec (Z.of_nat (List.length pre))
                  (Z.of_nat (List.length pre + S (List.length mid)) + 1)); [|lia].
      cbn [andb]. f_equal.
      replace ((pre ++ OPEN :: mid) ++ CLOSE :: post)
        with (pre ++ (OPEN :: mid ++ [CLOSE]) ++ post)
        by (rewrite <- !app_assoc; simpl; rewrite <- app_assoc; reflexivity).
      replace (Z.of_nat (List.length pre + S (List.length mid)) + 1)
        with (len pre + len (OPEN :: mid ++ [CLOSE]))
        by (unfold len; simpl; rewrite length_app; simpl; lia).
      apply slice_middle.
    + right. split; [apply no_pair_without_close; assumption|].
      destruct (rfind_from 0 (pre ++ OPEN :: r) [CLOSE]) as [j|] eqn:E.
      * assert (Hj : (j < List.length pre)%nat).
        { destruct (in_dec ascii_dec CLOSE pre) as [Hp|Hnp].
          - destruct (split_at_last CLOSE pre Hp) as [a [b [Eab Hb]]].
            rewrite Eab, <- app_assoc in E. cbn [app] in E.
            rewrite rfind_from_char_last in E.
            + injection E as <-. rewrite Eab, length_app. simpl. lia.
            + intros H. apply in_app_or in H as [H|[H|H]];
                [exact (Hb H) | discriminate H | exact (Hnc H)].
          - rewrite rfind_from_char_absent in E; [discriminate|].
            intros H. apply in_app_or in H as [H|[H|H]];
              [exact (Hnp H) | discriminate H | exact (Hnc H)]. }
        cbn [Nat.add].
        destruct (Z.ltb_spec (Z.of_nat (List.length pre)) (Z.of_nat j + 1));
          [lia|]. rewrite andb_false_r. reflexivity.
      * cbn [Nat.add].
        destruct (Z.ltb_spec (Z.of_nat (List.length pre)) (-1 + 1)); [lia|].
        rewrite andb_false_r. reflexivity.
  - right. split; [apply no_pair_without_open, Hno|].
    rewrite find_from_char_absent by exact Hno. reflexivity.
Qed.

Lemma bracket_blocks_skip (pre s : str) :
  ~ In OPEN pre -> bracket_blocks None (pre ++ s) = bracket_blocks None s.
Proof.
  induction pre as [|a pre IH]; intros Hno; [reflexivity|].
  cbn [app bracket_blocks].
  destruct (Ascii.eqb_spec a "[") as [->|_]; [exfalso; apply Hno; left; reflexivity|].
  apply IH. intros H. apply Hno. right. exact H.
Qed.

Lemma bracket_blocks_body (body s acc : str) :
  ~ In CLOSE body ->
  bracket_blocks (Some acc) (body ++ s) = bracket_blocks (Some (rev body ++ acc)) s.
Proof.
  revert acc. induction body as [|a body IH]; intros acc Hno; [reflexivity|].
  cbn [app bracket_blocks].
  destruct (Ascii.eqb_spec a "]") as [->|_]; [exfalso; apply Hno; left; reflexivity|].
  rewrite IH by (intros H; apply Hno; right; exact H).
  cbn [rev]. rewrite <- app_assoc. reflexivity.
Qed.

Lemma bracket_blocks_open_only (s acc : str) :
  ~ In CLOSE s -> bracket_blocks (Some acc) s = [].
Proof.
  revert acc. induction s as [|a s IH]; intros acc Hno; [reflexivity|].
  cbn [bracket_blocks].
  destruct (Ascii.eqb_spec a "]") as [->|_]; [exfalso; apply Hno; left; reflexivity|].
  apply IH. intros H. apply Hno. right. exact H.
Qed.

Lemma bracket_blocks_closed (s : str) :
  ~ In OPEN s -> bracket_blocks None s = [].
Proof.
  intros Hno. rewrite <- (app_nil_r s). rewrite bracket_blocks_skip by exact Hno.
  reflexivity.
Qed.

(** The pattern search yields the bracket-delimited substrings in
    order. *)
Lemma findall_blocks (text : str) :
  blocks_of text (findall_bracket_blocks text).
Proof.
  unfold findall_bracket_blocks.
  remember (List.length text) as n eqn:Hn.
  revert text Hn. induction n as [n IH] using lt_wf_ind. intros text Hn.
  destruct (in_dec ascii_dec OPEN text) as [Hin|Hno].
  - destruct (split_at_first OPEN text Hin) as [pre [r [-> Hpre]]].
    rewrite bracket_blocks_skip by exact Hpre.
    change (bracket_blocks None (OPEN :: r)) with (bracket_blocks (Some [OPEN]) r).
    destruct (in_dec ascii_dec CLOSE r) as [Hc|Hnc].
    + destruct (split_at_first CLOSE r Hc) as [body [post [-> Hbody]]].
      rewrite bracket_blocks_body by exact Hbody.
      change (bracket_blocks (Some (rev body ++ [OPEN])) (CLOSE :: post))
        with (rev' (CLOSE :: rev body ++ [OPEN]) :: bracket_blocks None post).
      replace (rev' (CLOSE :: rev body ++ [OPEN])) with (OPEN :: body ++ [CLOSE]).
      * apply blocks_cons; [exact Hpre | exact Hbody|].
        apply (IH (List.length post)); [|reflexivity].
        rewrite Hn, !length_app. simpl. rewrite length_app. simpl. lia.
      * rewrite rev'_rev. cbn [rev]. rewrite rev_app_distr, rev_involutive.
        reflexivity.
    + rewrite bracket_blocks_open_only by exact Hnc.
      apply blocks_none, no_pair_without_close; assumption.
  - rewrite bracket_blocks_closed by exact Hno.
    apply blocks_none, no_pair_without_open, Hno.
Qed.

(** The candidates that are tried: the span, then the blocks. *)
Lemma json_candidates_spec (text : str) :
  exists span blocks,
    json_candidates text = span ++ blocks
    /\ outer_span text span
    /\ blocks_of text blocks.
Proof.
  eexists. eexists. split; [reflexivity|]. split.
  - apply span_candidate.
  - apply findall_blocks.
Qed.

(** C4 as stated: the rows of the first candidate that parses as a
    non-empty array are returned. *)
Definition returns_first_parsing_candidate (json_loads : str -> loads_result)
  (response_text : str) : Prop :=
  forall (i : nat) (c : str) (rows : list json),
    nth_error (candidates_of response_text) i = Some c ->
    non_empty_array (json_loads c) = Some rows ->
    (forall j c', (j < i)%nat ->
                  nth_error (candidates_of response_text) j = Some c' ->
                  non_empty_array (json_loads c') = None) ->
    parse_ai_response json_loads response_text = rows.

(** C4, as amended. Whatever [json.loads] does on each text, and for
    every answer of the model, [parse_ai_response] returns a list. It
    goes on with the text inside the fence: the text that follows the
    first [```json] (the first [```] when the answer holds no
    [```json]) up to the next such fence or the end, cut at its first
    [```]; the whole answer when it holds no fence. Of that text,
    stripped, the candidates are the span from the first opening
    bracket to the last closing bracket, when the one comes before the
    other, and then the bracket-delimited substrings in the order in
    which they occur. The rows of the first candidate that parses as a
    non-empty array are returned when no candidate before it makes
    [json.loads] raise anything but a decode error; the empty list is
    returned when no candidate parses as a non-empty array, and also
    when [json.loads] raises another exception on a candidate before any
    has parsed. The fenced answer yields its one row (given that
    [json.loads] parses the array inside the fence), and
    ["[invalid json"] yields the empty list. *)
Theorem parse_ai_response_first_candidate
  (json_loads : str -> loads_result) (response_text : str) :
  (exists inner span blocks,
     text_in_fence response_text inner
     /\ outer_span (strip inner) span
     /\ blocks_of (strip inner) blocks
     /\ candidates_of response_text = span ++ blocks
     /\ let candidates := span ++ blocks in
        let result := parse_ai_response json_loads response_text in
        (forall (i : nat) (c : str) (rows : list json),
           nth_error candidates i = Some c ->
           non_empty_array (json_loads c) = Some rows ->
           (forall j c', (j < i)%nat -> nth_error candidates j = Some c' ->
                         json_loads c' <> OtherException
                         /\ non_empty_array (json_loads c') = None) ->
           result = rows)
        /\ ((forall c, In c candidates -> non_empty_array (json_loads c) = None) ->
            result = [])
        /\ (forall (i : nat) (c : str),
              nth_error candidates i = Some c ->
              json_loads c = OtherException ->
              (forall j c', (j < i)%nat -> nth_error candidates j = Some c' ->
                            non_empty_array (json_loads c') = None) ->
              result = []))
  /\ (json_loads fenced_array = Parsed (JArray [JObject [(lit "a", JInt 1)]]) ->
      parse_ai_response json_loads fenced_answer = [JObject [(lit "a", JInt 1)]])
  /\ parse_ai_response json_loads invalid_answer = [].
Proof.
  split; [|split].
  - destruct (remove_markdown_spec response_text) as [inner [E Hfence]].
    destruct (json_candidates_spec (strip inner)) as [span [blocks [Ec [Hs Hb]]]].
    assert (Hc : candidates_of response_text = span ++ blocks)
      by (unfold candidates_of; rewrite E; exact Ec).
    exists inner, span, blocks.
    split; [exact Hfence|]. split; [exact Hs|]. split; [exact Hb|].
    split; [exact Hc|]. cbv zeta.
    rewrite parse_ai_response_candidates, Hc.
    split; [|split].
    + apply try_candidates_first.
    + apply try_candidates_none.
    + apply try_candidates_other_exception.
  - intros H. rewrite parse_ai_response_candidates.
    apply (try_candidates_first json_loads _ 0%nat fenced_array).
    + vm_compute. reflexivity.
    + rewrite H. reflexivity.
    + intros j c' Hj. lia.
  - reflexivity.
Qed.

(** An answer with an array before the fence and another inside it, and
    an answer whose second bracket block is the first that parses. *)
Definition array_before_fence : str := lit "[1] ```json [2] ```".

Definition second_block_parses : str := lit "x [a] y [3] z [4]".

(** The amended statement for a decoder with CPython's default recursion
    limit, at the fenced answer; the array inside the fence is read, not
    the one before it, and the blocks are tried in their order. *)
Lemma parse_ai_response_witness :
  loads 1000 fenced_array = Parsed (JArray [JObject [(lit "a", JInt 1)]])
  /\ parse_ai_response (loads 1000) fenced_answer = [JObject [(lit "a", JInt 1)]]
  /\ parse_ai_response (loads 1000) array_before_fence = [JInt 2]
  /\ parse_ai_response (loads 1000) second_block_parses = [JInt 3].
Proof.
  assert (H : loads 1000 fenced_array
              = Parsed (JArray [JObject [(lit "a", JInt 1)]]))
    by (vm_compute; reflexivity).
  split; [exact H|].
  destruct (parse_ai_response_first_candidate (loads 1000) fenced_answer)
    as [_ [Hex _]].
  split; [exact (Hex H)|].
  split; vm_compute; reflexivity.
Defined.

(** CPython raises [RecursionError], which is not a decode error, when
    a document nests deeper than the interpreter allows; the limit
    differs between releases (1000 frames by default in the older ones)
    and is the parameter of [Json.loads]. This answer opens 100000
    brackets, closes one, and then holds the array [[1]]. *)
Definition deep_answer : str :=
  repeat "["%char (Z.to_nat 100000) ++ lit "] [1]".

(** C4 as stated fails: the third candidate of [deep_answer] is [[1]],
    the first one that parses as a non-empty array, but decoding the
    first candidate exceeds the recursion limit, the exception is not a
    decode error, and the empty list is returned. *)
Lemma first_parsing_candidate_not_returned :
  nth_error (candidates_of deep_answer) 2 = Some (lit "[1]")
  /\ non_empty_array (loads 1000 (lit "[1]")) = Some [JInt 1]
  /\ option_map (loads 1000) (nth_error (candidates_of deep_answer) 0)
     = Some OtherException
  /\ option_map (loads 1000) (nth_error (candidates_of deep_answer) 1)
     = Some OtherException
  /\ parse_ai_response (loads 1000) deep_answer = []
  /\ ~ returns_first_parsing_candidate (loads 1000) deep_answer.
Proof.
  assert (H2 : nth_error (candidates_of deep_answer) 2 = Some (lit "[1]"))
    by (vm_compute; reflexivity).
  assert (Hrows : non_empty_array (loads 1000 (lit "[1]")) = Some [JInt 1])
    by (vm_compute; reflexivity).
  assert (H0 : option_map (loads 1000) (nth_error (candidates_of deep_answer) 0)
               = Some OtherException) by (vm_compute; reflexivity).
  assert (H1 : option_map (loads 1000) (nth_error (candidates_of deep_answer) 1)
               = Some OtherException) by (vm_compute; reflexivity).
  assert (Hres : parse_ai_response (loads 1000) deep_answer = [])
    by (vm_compute; reflexivity).
  repeat (split; [assumption|]). intros Hclaim.
  specialize (Hclaim 2%nat (lit "[1]") [JInt 1] H2 Hrows).
  rewrite Hres in Hclaim. discriminate Hclaim.
  intros j c' Hj Hc'. destruct j as [|[|j]]; [| |lia].
  - rewrite Hc' in H0. simpl in H0. injection H0 as ->. reflexivity.
  - rewrite Hc' in H1. simpl in H1. injection H1 as ->. reflexivity.
Qed.

End ExtractorFacts.

(** ** The cash-flow projection *)

Module CashflowFacts.
Import PyStr Tables.

(** The cells that the loop reads from a row of the schedule. *)
Definition schedule_value_of (cols : list str) (schedule_row : list cell) : cell :=
  row_get cols schedule_row (lit "Valor") (CInt 0).

Definition description_of (cols : list str) (schedule_row : list cell) : cell :=
  row_get cols schedule_row DESCRICAO_ACCENTED
    (row_get cols schedule_row (lit "Descricao") (CStr [])).

(** The value is pandas' missing value: the cell of a row for which the
    answer of the model gave no [Valor]. *)
Definition is_missing (v : cell) : bool :=
  match v with
  | CNaN => true
  | _ => false
  end.

(** The row carries an explicit value that is not zero: a number other
    than zero, a true boolean or a non-empty string. *)
Definition has_own_value (v : cell) : bool :=
  match v with
  | CInt n => negb (n =? 0)
  | CFloat x => negb (Qeq_bool x 0)
  | CBool b => b
  | CStr (_ :: _) => true
  | _ => false
  end.

(** [Valor_Estimado] in a record of the projection. *)
Definition estimated_value_of (record : list cell) : cell := nth 3 record CNone.

(** What the estimate of one row of the schedule is. Nothing is said of
    a row whose value is missing. *)
Definition estimate_matches (total : Q) (schedule_len : Z) (cols : list str)
  (schedule_row record : list cell) : Prop :=
  let v := schedule_value_of cols schedule_row in
  if is_missing v then True
  else if has_own_value v then estimated_value_of record = v
  else
    exists d,
      description_of cols schedule_row = CStr d
      /\ estimated_value_of record
         = CFloat (if contains (lower d) (lit "entrada") then total * (3 # 10)
                   else if contains (lower d) (lit "parcela") then total * (2 # 10)
                   else if contains (lower d) (lit "final") then total * (1 # 10)
                   else total / inject_Z schedule_len)%Q.

(** The row cannot make the loop raise: its description is a string and
    its value is not a non-empty string. *)
Definition plain_row (cols : list str) (schedule_row : list cell) : Prop :=
  (exists d, description_of cols schedule_row = CStr d)
  /\ match schedule_value_of cols schedule_row with
     | CStr (_ :: _) => False
     | _ => True
     end.

(** The test of the loop, for a value that is not missing. *)
Lemma own_value_test (v : cell) :
  is_missing v = false ->
  negb (truthy v) || equals_zero v = negb (has_own_value v).
Proof.
  destruct v as [| |b|n|x|[|c s]]; simpl; intros H; try discriminate;
    try reflexivity.
  - destruct b; reflexivity.
  - destruct (n =? 0); reflexivity.
  - destruct (Qeq_bool x 0); reflexivity.
Qed.

Lemma cashflow_record_estimate (clk : clock) (filename : str) (total : Q)
  (n : Z) (cols : list str) (schedule_row record : list cell) :
  cashflow_record clk filename total n cols schedule_row = Some record ->
  estimate_matches total n cols schedule_row record.
Proof.
  unfold cashflow_record, estimate_matches.
  fold (schedule_value_of cols schedule_row).
  fold (description_of cols schedule_row).
  destruct (is_missing (schedule_value_of cols schedule_row)) eqn:Em;
    [intros _; exact I|].
  rewrite (own_value_test _ Em).
  destruct (has_own_value (schedule_value_of cols schedule_row)); simpl.
  - destruct (Qlt_le_dec 0 total).
    + destruct (percent_of_total _ total); [|discriminate].
      intros H. injection H as <-. reflexivity.
    + intros H. injection H as <-. reflexivity.
  - destruct (description_of cols schedule_row) as [| | | | |d]; simpl;
      try discriminate.
    destruct (Qlt_le_dec 0 total); simpl;
      intros H; injection H as <-; exists d; split; reflexivity.
Qed.

Lemma cashflow_record_plain (clk : clock) (filename : str) (total : Q)
  (n : Z) (cols : list str) (schedule_row : list cell) :
  plain_row cols schedule_row ->
  exists record, cashflow_record clk filename total n cols schedule_row
                 = Some record.
Proof.
  intros [[d Hd] Hv]. unfold cashflow_record.
  fold (schedule_value_of cols schedule_row).
  fold (description_of cols schedule_row).
  rewrite Hd.
  destruct (schedule_value_of cols schedule_row) as [| |b|z|x|[|c s]];
    try contradiction; simpl.
  all: try destruct b; try destruct (z =? 0); try destruct (Qeq_bool x 0);
    simpl; destruct (Qlt_le_dec 0 total); simpl; eexists; reflexivity.
Qed.

Lemma cashflow_records_estimates (clk : clock) (filename : str) (total : Q)
  (n : Z) (cols : list str) (schedule_rows : list (list cell)) :
  forall records,
    cashflow_records clk filename total n cols schedule_rows = Some records ->
    Forall2 (estimate_matches total n cols) schedule_rows records.
Proof.
  induction schedule_rows as [|row rest IH]; intros records H; simpl in H.
  - injection H as <-. constructor.
  - destruct (cashflow_record clk filename total n cols row) as [r|] eqn:E;
      [|discriminate].
    destruct (cashflow_records clk filename total n cols rest) as [rs|];
      [|discriminate].
    simpl in H. injection H as <-. constructor.
    + apply (cashflow_record_estimate clk filename). exact E.
    + apply IH. reflexivity.
Qed.

Lemma cashflow_records_plain (clk : clock) (filename : str) (total : Q)
  (n : Z) (cols : list str) (schedule_rows : list (list cell)) :
  (forall row, In row schedule_rows -> plain_row cols row) ->
  exists records,
    cashflow_records clk filename total n cols schedule_rows = Some records
    /\ List.length records = List.length schedule_rows.
Proof.
  induction schedule_rows as [|row rest IH]; intros H; simpl.
  - exists []. auto.
  - destruct (cashflow_record_plain clk filename total n cols row) as [r ->];
      [apply H; left; reflexivity|].
    destruct IH as [rs [-> Hlen]]; [intros r' Hr'; apply H; right; exact Hr'|].
    exists (r :: rs). simpl. auto.
Qed.

(** C8, as amended. When the schedule and the contract values are both
    present and non-empty, every table that
    [create_cashflow_delta_table] builds has one record per row of the
    schedule, in order, and in each record of a row whose value is not
    missing: a row carrying an explicit value that is not zero keeps
    that value as its estimate; a row without one (no [Valor] column,
    [None], zero, [False] or an empty string) has a string description
    and is given 30% of the total contract value when the lower-cased
    description contains ['entrada'], otherwise 20% when it contains
    ['parcela'], otherwise 10% when it contains ['final'], and otherwise
    the total contract value divided by the number of rows of the
    schedule. Nothing is said of a row whose value is pandas' missing
    value. The table is built whenever every row has a string
    description and no non-empty string as its value. *)
Theorem cashflow_estimates (lib : pylib) (clk : clock) (tables_data : tables)
  (filename : str) (schedule_df values_df : dataframe) :
  get tables_data (lit "cronograma_pagamentos") = Some schedule_df ->
  get tables_data (lit "valores_contrato") = Some values_df ->
  df_empty schedule_df = false -> df_empty values_df = false ->
  let total := total_contract_value lib values_df in
  let n := Z.of_nat (List.length (rows schedule_df)) in
  (forall out,
     create_cashflow_delta_table lib clk tables_data filename = Some out ->
     columns out = cashflow_columns
     /\ Forall2 (estimate_matches total n (columns schedule_df))
          (rows schedule_df) (rows out))
  /\ ((forall row, In row (rows schedule_df) ->
                   plain_row (columns schedule_df) row) ->
      exists out,
        create_cashflow_delta_table lib clk tables_data filename = Some out).
Proof.
  intros Hs Hv Hse Hve total n. unfold create_cashflow_delta_table.
  rewrite Hs, Hv, Hse, Hve. simpl. fold total. fold n.
  assert (Hrows : rows schedule_df <> []).
  { unfold df_empty in Hse. destruct (columns schedule_df); [discriminate|].
    destruct (rows schedule_df); [discriminate | discriminate]. }
  split.
  - intros out H.
    destruct (cashflow_records clk filename total n (columns schedule_df)
                (rows schedule_df)) as [records|] eqn:E; [|discriminate].
    simpl in H. injection H as <-.
    pose proof (cashflow_records_estimates _ _ _ _ _ _ _ E) as Hf.
    unfold from_records. destruct records as [|r rs].
    + inversion Hf as [Hnil|]. congruence.
    + simpl. auto.
  - intros Hplain.
    destruct (cashflow_records_plain clk filename total n (columns schedule_df)
                (rows schedule_df) Hplain) as [records [-> _]].
    simpl. eexists. reflexivity.
Qed.

(** The Python runtime of the examples; no table of the examples holds
    a float, so the text of a float is never asked for. *)
Definition example_lib : pylib :=
  {| float_str := fun _ => lit "0.0";
     content_hash := fun df => int_str (Z.of_nat (List.length (rows df)));
     row_hash := fun _ => 0;
     parquet_size := fun df => Z.of_nat (List.length (rows df));
     column_stats := fun _ => [] |}.

Definition example_clock : clock :=
  {| stamp_compact := lit "20250101120000";
     stamp_csv := lit "20250101_120000";
     stamp_iso := lit "2025-01-01T12:00:00";
     stamp_sql := lit "2025-01-01 12:00:00";
     stamp_br := lit "01/01/2025 12:00";
     epoch_ms := 1735732800000;
     table_uuid := lit "11111111-1111-4111-8111-111111111111";
     txn_uuid := lit "22222222-2222-4222-8222-222222222222" |}.

(** A schedule of a down payment and a delivery, neither with a value,
    for a contract of 100. *)
Definition example_schedule : dataframe :=
  {| columns := [lit "Data/Prazo"; DESCRICAO_ACCENTED; lit "Valor"];
     rows := [ [CStr (lit "01/02/2025"); CStr (lit "Entrada"); CStr []];
               [CStr (lit "01/03/2025"); CStr (lit "Entrega"); CStr []] ] |}.

Definition example_values : dataframe :=
  {| columns := [lit "Descricao"; lit "valor"];
     rows := [ [CStr (lit "valor total do contrato"); CStr (lit "R$ 100")] ] |}.

Definition example_tables : tables :=
  [ (lit "cronograma_pagamentos", example_schedule);
    (lit "valores_contrato", example_values) ].

(** A schedule with a down payment of 40, an instalment with the value
    zero, a final payment without a value and a delivery without a
    value, for a contract of 100. *)
Definition priced_schedule : dataframe :=
  {| columns := [lit "Data/Prazo"; DESCRICAO_ACCENTED; lit "Valor"];
     rows := [ [CStr (lit "01/02/2025"); CStr (lit "Entrada"); CInt 40];
               [CStr (lit "01/03/2025"); CStr (lit "Parcela 1"); CInt 0];
               [CStr (lit "01/04/2025"); CStr (lit "Pagamento final"); CNone];
               [CStr (lit "01/05/2025"); CStr (lit "Entrega"); CStr []] ] |}.

Definition priced_tables : tables :=
  [ (lit "cronograma_pagamentos", priced_schedule);
    (lit "valores_contrato", example_values) ].

(** The amended statement at that schedule. *)
Lemma cashflow_estimates_witness :
  exists out,
    create_cashflow_delta_table example_lib example_clock priced_tables
      (lit "contrato.pdf") = Some out
    /\ Forall2 (estimate_matches (total_contract_value example_lib example_values)
                  4 (columns priced_schedule))
         (rows priced_schedule) (rows out)
    /\ map has_own_value
         (map (schedule_value_of (columns priced_schedule)) (rows priced_schedule))
       = [true; false; false; false]
    /\ map estimated_value_of (rows out)
       = [CInt 40; CFloat (100 * (2 # 10)); CFloat (100 * (1 # 10));
          CFloat (100 / inject_Z 4)].
Proof.
  destruct (cashflow_estimates example_lib example_clock priced_tables
              (lit "contrato.pdf") priced_schedule example_values
              eq_refl eq_refl eq_refl eq_refl) as [H1 H2].
  destruct H2 as [out Hout].
  - intros row Hin. simpl in Hin.
    destruct Hin as [<-|[<-|[<-|[<-|[]]]]]; (split; [eexists; reflexivity | exact I]).
  - exists out. split; [exact Hout|]. split; [apply (H1 out Hout)|].
    split; [reflexivity|].
    vm_compute in Hout. injection Hout as <-. reflexivity.
Defined.

(** C8 as stated, for the rows that have neither a value nor a keyword:
    what is left of the total once the estimates of the other rows are
    taken off, split evenly among those rows. *)
Definition even_split_of_remaining (total : Q) (other_estimates : list Q)
  (rows_left : Z) : Q :=
  ((total - fold_right Qplus 0 other_estimates) / inject_Z rows_left)%Q.

(** C8 as stated fails: of a contract of 100, the down payment is given
    30 and the other row 100 / 2 = 50, which is the total split over
    all rows of the schedule; the remaining 70, split among the rows
    left (one) or even among all rows (two), is not 50. *)
Lemma even_split_is_of_the_total :
  option_map (fun out => map estimated_value_of (rows out))
    (create_cashflow_delta_table example_lib example_clock example_tables
       (lit "contrato.pdf"))
  = Some [CFloat (100 * (3 # 10)); CFloat (100 / inject_Z 2)]
  /\ (100 / inject_Z 2 == 50)%Q
  /\ ~ (100 / inject_Z 2 == even_split_of_remaining 100 [100 * (3 # 10)] 1)%Q
  /\ ~ (100 / inject_Z 2 == even_split_of_remaining 100 [100 * (3 # 10)] 2)%Q.
Proof.
  split; [vm_compute; reflexivity|].
  split; [reflexivity|].
  split; intros H; vm_compute in H; discriminate H.
Qed.

End CashflowFacts.

(** ** Snapshots and exports *)

Module SnapshotFacts.
Import PyStr PyStrFacts Tables Snapshot CashflowFacts.

(** *** The keys of a table *)

Definition manifest_key (self : processor) (table_name : str) : str :=
  delta_prefix self table_name ++ lit "_symlink_format_manifest".

Definition parquet_key (self : processor) (table_name file_name : str) : str :=
  delta_prefix self table_name ++ file_name.

(** The listing of a prefix holds the keys of the bucket that start with
    the prefix. *)
Lemma list_keys_spec (w : world) (prefix key : str) :
  key ∈ list_keys w prefix
  <-> startswith key prefix = true /\ exists obj, s3 w !! key = Some obj.
Proof.
  unfold list_keys. rewrite list_elem_of_filter, list_elem_of_fmap. split.
  - intros [Hp [[k obj] [-> Hin]]]. split; [exact Hp|].
    exists obj. apply elem_of_map_to_list in Hin. exact Hin.
  - intros [Hp [obj Hobj]]. split; [exact Hp|].
    exists (key, obj). split; [reflexivity|].
    apply elem_of_map_to_list. exact Hobj.
Qed.

(** The existence check succeeds exactly when the bucket holds an object
    under the log prefix of the table. *)
Lemma check_existing_spec (self : processor) (w : world) (table_name : str) :
  check_existing_delta_table_in_s3 self w (delta_prefix self table_name) = true
  <-> exists key obj,
        startswith key (log_prefix self table_name) = true
        /\ s3 w !! key = Some obj.
Proof.
  unfold check_existing_delta_table_in_s3. fold (log_prefix self table_name).
  split.
  - destruct (list_keys w (log_prefix self table_name)) as [|key l] eqn:E;
      [discriminate|]. intros _.
    assert (Hin : key ∈ list_keys w (log_prefix self table_name))
      by (rewrite E; left).
    apply list_keys_spec in Hin as [Hp [obj Hobj]]. exists key, obj. auto.
  - intros [key [obj [Hp Hobj]]].
    assert (Hin : key ∈ list_keys w (log_prefix self table_name))
      by (apply list_keys_spec; eauto).
    destruct (list_keys w (log_prefix self table_name)); [|reflexivity].
    inversion Hin.
Qed.

(** A key under the log prefix is neither the manifest nor a Parquet
    file of the table. *)
Lemma log_key_not_manifest (self : processor) (table_name key : str) :
  startswith key (log_prefix self table_name) = true ->
  manifest_key self table_name <> key.
Proof.
  intros H E. apply startswith_app in H as [r ->].
  unfold manifest_key, log_prefix in E. rewrite <- app_assoc in E.
  apply app_inv_head in E. discriminate E.
Qed.

Lemma log_key_not_parquet (self : processor) (table_name key part : str)
  (lib : pylib) (df : dataframe) :
  startswith key (log_prefix self table_name) = true ->
  delta_prefix self table_name ++ parquet_name part lib df <> key.
Proof.
  intros H E. apply startswith_app in H as [r ->].
  unfold log_prefix in E. rewrite <- app_assoc in E.
  apply app_inv_head in E. discriminate E.
Qed.

Lemma log_key_under_prefix (self : processor) (table_name : str) (v : Z) :
  startswith (log_key self table_name v) (log_prefix self table_name) = true.
Proof. apply startswith_app. eexists. reflexivity. Qed.

(** *** What the catalog step changes *)

Lemma manifest_s3 (self : processor) (w : world) (table_name key : str) :
  manifest_key self table_name <> key ->
  s3 (snd (generate_symlink_format_manifest self w table_name)) !! key
  = s3 w !! key.
Proof.
  intros Hne. unfold generate_symlink_format_manifest.
  destruct (map _ _); [reflexivity|]. simpl.
  apply lookup_insert_ne. exact Hne.
Qed.

Lemma setup_athena_s3 (self : processor) (w : world) (table_name : str)
  (df : dataframe) (location key : str) :
  manifest_key self table_name <> key ->
  s3 (setup_athena_compatibility self w table_name df location) !! key
  = s3 w !! key.
Proof.
  intros Hne. unfold setup_athena_compatibility.
  pose proof (manifest_s3 self w table_name key Hne) as H.
  destruct (generate_symlink_format_manifest self w table_name) as [m w1].
  simpl in H. unfold create_glue_table_from_delta.
  destruct (glue_client self); exact H.
Qed.

Lemma upload_s3 (w : world) (s3_delta_path parquet_filename log_filename : str)
  (df : dataframe) (log : list action) (key : str) :
  s3 (upload_delta_structure_to_s3 w s3_delta_path parquet_filename df
        log_filename log) !! key
  = if decide (s3_delta_path ++ lit "_delta_log/" ++ log_filename = key)
    then Some (LogFile log)
    else if decide (s3_delta_path ++ parquet_filename = key)
         then Some (ParquetFile df)
         else s3 w !! key.
Proof.
  unfold upload_delta_structure_to_s3, put_object. simpl.
  rewrite lookup_insert. destruct (decide _); [reflexivity|].
  rewrite lookup_insert. destruct (decide _); reflexivity.
Qed.

(** *** The log of a primary snapshot *)

(** The frame and the log lines that a write of [df] stores. *)
Definition stored_frame (self : processor) (clk : clock) (filename : str)
  (df : dataframe) : dataframe :=
  add_source_columns self clk filename df.

Definition create_entry (lib : pylib) (clk : clock) (self : processor)
  (filename : str) (df : dataframe) : list action :=
  create_delta_metadata lib clk (stored_frame self clk filename df).

Definition append_entry (lib : pylib) (clk : clock) (self : processor)
  (filename : str) (df : dataframe) : list action :=
  create_delta_append_metadata lib clk (stored_frame self clk filename df)
    (Z.of_nat (List.length (rows df))).

Lemma log_key_assoc (self : processor) (table_name : str) (v : Z) :
  delta_prefix self table_name ++ lit "_delta_log/" ++ log_file_name v
  = log_key self table_name v.
Proof. unfold log_key, log_prefix. rewrite <- app_assoc. reflexivity. Qed.

(** What one call of [save_or_append_delta_table_to_s3] does to the log
    of its table. *)
Lemma save_or_append_log (lib : pylib) (clk : clock) (self : processor)
  (w : world) (df : dataframe) (table_name filename : str) :
  s3_client self = true ->
  let w' := snd (save_or_append_delta_table_to_s3 lib clk self w df
                   table_name filename) in
  let existing :=
    check_existing_delta_table_in_s3 self w (delta_prefix self table_name) in
  let written := log_key self table_name (if existing then 1 else 0) in
  s3 w' !! written
  = Some (LogFile (if existing
                   then append_entry lib clk self filename df
                   else create_entry lib clk self filename df))
  /\ forall key,
       startswith key (log_prefix self table_name) = true ->
       key <> written -> s3 w' !! key = s3 w !! key.
Proof.
  intros Hs3 w' existing written. subst w' written.
  unfold save_or_append_delta_table_to_s3. rewrite Hs3. cbn [negb].
  fold existing. destruct existing; cbn [snd]; split.
  - rewrite setup_athena_s3
      by (apply log_key_not_manifest, log_key_under_prefix).
    rewrite upload_s3, log_key_assoc.
    destruct (decide _); [reflexivity | congruence].
  - intros key Hp Hne.
    rewrite setup_athena_s3 by (apply log_key_not_manifest, Hp).
    rewrite upload_s3, log_key_assoc.
    destruct (decide _); [congruence|].
    destruct (decide _) as [E|]; [|reflexivity].
    exfalso. exact (log_key_not_parquet _ _ _ _ _ _ Hp E).
  - rewrite setup_athena_s3
      by (apply log_key_not_manifest, log_key_under_prefix).
    rewrite upload_s3.
    change (lit "00000000000000000000.json") with (log_file_name 0).
    rewrite log_key_assoc.
    destruct (decide _); [reflexivity | congruence].
  - intros key Hp Hne.
    rewrite setup_athena_s3 by (apply log_key_not_manifest, Hp).
    rewrite upload_s3.
    change (lit "00000000000000000000.json") with (log_file_name 0).
    rewrite log_key_assoc.
    destruct (decide _); [congruence|].
    destruct (decide _) as [E|]; [|reflexivity].
    exfalso. exact (log_key_not_parquet _ _ _ _ _ _ Hp E).
Qed.

(** C2, as the code has it. A write to a table that has no object under
    its log prefix stores one log entry, with sequence number 0, that
    carries the commit, the schema and table identifier, the protocol
    and the added file; no other log entry exists afterwards. A write to
    a table that has a log stores its entry, of a commit and the added
    file only, under sequence number 1 whatever the log holds: every
    other log entry is left as it was, an entry 1 that was there is
    replaced, and no entry with a higher number is written. *)
Theorem log_entry_of_a_write (lib : pylib) (clk : clock) (self : processor)
  (w : world) (df : dataframe) (table_name filename : str) :
  s3_client self = true ->
  let w' := snd (save_or_append_delta_table_to_s3 lib clk self w df
                   table_name filename) in
  ((forall key obj, startswith key (log_prefix self table_name) = true ->
                    s3 w !! key <> Some obj) ->
   s3 w' !! log_key self table_name 0
   = Some (LogFile (create_entry lib clk self filename df))
   /\ (exists commit schema added,
         create_entry lib clk self filename df
         = [commit; MetaData (table_uuid clk) schema (epoch_ms clk);
            Protocol 1 2; added])
   /\ forall key, startswith key (log_prefix self table_name) = true ->
                  key <> log_key self table_name 0 -> s3 w' !! key = None)
  /\ ((exists key obj, startswith key (log_prefix self table_name) = true
                       /\ s3 w !! key = Some obj) ->
      s3 w' !! log_key self table_name 1
      = Some (LogFile (append_entry lib clk self filename df))
      /\ (exists commit added,
            append_entry lib clk self filename df = [commit; added])
      /\ forall key, startswith key (log_prefix self table_name) = true ->
                     key <> log_key self table_name 1 ->
                     s3 w' !! key = s3 w !! key).
Proof.
  intros Hs3 w'.
  destruct (save_or_append_log lib clk self w df table_name filename Hs3)
    as [Hwritten Hothers].
  fold w' in Hwritten, Hothers. split.
  - intros Hfresh.
    assert (E : check_existing_delta_table_in_s3 self w
                  (delta_prefix self table_name) = false).
    { destruct (check_existing_delta_table_in_s3 self w _) eqn:E;
        [|reflexivity].
      apply check_existing_spec in E as [key [obj [Hp Hobj]]].
      exfalso. exact (Hfresh key obj Hp Hobj). }
    rewrite E in Hwritten, Hothers. split; [exact Hwritten|]. split.
    + eexists _, _, _. reflexivity.
    + intros key Hp Hne. rewrite (Hothers key Hp Hne).
      destruct (s3 w !! key) as [obj|] eqn:Ek; [|reflexivity].
      exfalso. exact (Hfresh key obj Hp Ek).
  - intros Hexists. apply check_existing_spec in Hexists.
    rewrite Hexists in Hwritten, Hothers. split; [exact Hwritten|]. split.
    + eexists _, _. reflexivity.
    + exact Hothers.
Qed.

(** Three writes to the table [investimento] of a bucket that starts
    empty. *)
Definition example_processor : processor :=
  {| s3_client := true;
     glue_client := true;
     bucket_name := lit "dl-landing-zone-ca-central-1-stage";
     s3_folder := lit "chathib-prod";
     processing_metrics := None |}.

Definition empty_world : world :=
  {| s3 := ∅; glue_requests := []; local_files := [] |}.

Definition rows_frame (n : nat) : dataframe :=
  {| columns := [lit "empresa"];
     rows := map (fun i => [CInt (Z.of_nat i)]) (seq 1 n) |}.

Definition write_example (w : world) (n : nat) : world :=
  snd (save_or_append_delta_table_to_s3 example_lib example_clock
         example_processor w (rows_frame n) (lit "investimento")
         (lit "relatorio.pdf")).

Definition after_first_write : world := write_example empty_world 1.
Definition after_second_write : world := write_example after_first_write 2.
Definition after_third_write : world := write_example after_second_write 3.

Definition example_entry (n : nat) : list action :=
  append_entry example_lib example_clock example_processor
    (lit "relatorio.pdf") (rows_frame n).

(** The third write: its entry takes sequence number 1, where the entry
    of the second write was, and there is no entry 2. *)
Lemma third_write_replaces_entry_1 :
  s3 after_second_write !! log_key example_processor (lit "investimento") 1
  = Some (LogFile (example_entry 2))
  /\ s3 after_third_write !! log_key example_processor (lit "investimento") 1
     = Some (LogFile (example_entry 3))
  /\ example_entry 2 <> example_entry 3
  /\ s3 after_third_write !! log_key example_processor (lit "investimento") 2
     = None
  /\ List.length (list_keys after_third_write
                    (log_prefix example_processor (lit "investimento")))
     = 2%nat.
Proof.
  assert (H2 : s3 after_second_write
                 !! log_key example_processor (lit "investimento") 1
               = Some (LogFile (example_entry 2)))
    by (vm_compute; reflexivity).
  destruct (log_entry_of_a_write example_lib example_clock example_processor
              after_second_write (rows_frame 3) (lit "investimento")
              (lit "relatorio.pdf") eq_refl) as [_ Happend].
  destruct Happend as [H3 [_ Hothers]].
  { exists (log_key example_processor (lit "investimento") 1),
      (LogFile (example_entry 2)).
    split; [apply log_key_under_prefix | exact H2]. }
  split; [exact H2|]. split; [exact H3|].
  split; [vm_compute; discriminate|].
  split; [|vm_compute; reflexivity].
  fold after_third_write in Hothers. fold (write_example after_second_write 3).
  rewrite Hothers.
  - vm_compute. reflexivity.
  - apply log_key_under_prefix.
  - vm_compute. discriminate.
Defined.

(** *** The no-data policy *)

(** Neither primary table is present with rows. *)
Definition no_primary_data (tables_data : tables) : Prop :=
  (forall df, get tables_data (lit "investimento_financeiro") = Some df ->
              df_empty df = true)
  /\ (forall df, get tables_data (lit "renda_fixa") = Some df ->
                 df_empty df = true).

Lemma no_primary_data_has_data (tables_data : tables) :
  no_primary_data tables_data ->
  has_data tables_data (lit "investimento_financeiro") = false
  /\ has_data tables_data (lit "renda_fixa") = false.
Proof.
  intros [H1 H2]. unfold has_data. split.
  - destruct (get tables_data (lit "investimento_financeiro")) as [df|];
      [rewrite (H1 df eq_refl)|]; reflexivity.
  - destruct (get tables_data (lit "renda_fixa")) as [df|];
      [rewrite (H2 df eq_refl)|]; reflexivity.
Qed.

Lemma generate_nothing_without_primary (lib : pylib) (clk : clock)
  (self : processor) (w : world) (tables_data : tables) (filename : str) :
  no_primary_data tables_data ->
  generate_and_save_delta_tables_to_s3 lib clk self w tables_data filename
  = ([], w).
Proof.
  intros H. destruct (no_primary_data_has_data tables_data H) as [H1 H2].
  unfold generate_and_save_delta_tables_to_s3. rewrite H1, H2. reflexivity.
Qed.

(** C5. When neither [investimento_financeiro] nor [renda_fixa] is
    present with rows, [generate_and_save_delta_tables_to_s3] returns an
    empty mapping and leaves the bucket and the catalog as they were: no
    data file, no log entry and no registration. *)
Theorem no_snapshot_without_primary_data (lib : pylib) (clk : clock)
  (self : processor) (w : world) (tables_data : tables) (filename : str) :
  no_primary_data tables_data ->
  let '(delta_files, w') :=
    generate_and_save_delta_tables_to_s3 lib clk self w tables_data filename in
  delta_files = []
  /\ s3 w' = s3 w
  /\ glue_requests w' = glue_requests w
  /\ local_files w' = local_files w.
Proof.
  intros H. rewrite (generate_nothing_without_primary _ _ _ _ _ _ H). auto.
Qed.

(** Tables with contract parties only. *)
Definition parties_frame : dataframe :=
  {| columns := [lit "Tipo"; lit "Nome"];
     rows := [ [CStr (lit "Contratante"); CStr (lit "ACME Ltda")] ] |}.

Definition parties_only : tables :=
  [ (lit "partes_contrato", parties_frame); (lit "renda_fixa", empty_frame) ].

Lemma parties_only_no_primary : no_primary_data parties_only.
Proof.
  split; intros df H; vm_compute in H; [discriminate|].
  injection H as <-. reflexivity.
Qed.

(** The statement at those tables, after the first example write. *)
Lemma no_snapshot_witness :
  no_primary_data parties_only
  /\ generate_and_save_delta_tables_to_s3 example_lib example_clock
       example_processor after_first_write parties_only (lit "contrato.pdf")
     = ([], after_first_write).
Proof.
  split; [exact parties_only_no_primary|].
  pose proof (no_snapshot_without_primary_data example_lib example_clock
                example_processor after_first_write parties_only
                (lit "contrato.pdf") parties_only_no_primary) as H.
  destruct (generate_and_save_delta_tables_to_s3 _ _ _ _ _ _) as [d w'].
  destruct H as [-> [H1 [H2 H3]]]. f_equal.
  destruct w', after_first_write. simpl in *. congruence.
Defined.

(** *** CSV exports *)

Definition csv_prefix (self : processor) : str := s3_folder self ++ lit "/csv/".

Lemma csv_key_inj (self : processor) (clk : clock) (base t t' : str) :
  csv_key self clk base t = csv_key self clk base t' -> t = t'.
Proof.
  unfold csv_key, csv_file_name. intros E.
  repeat apply app_inv_head in E. apply app_inv_tail in E. exact E.
Qed.

Lemma csv_key_under_prefix (self : processor) (clk : clock) (base t : str) :
  startswith (csv_key self clk base t) (csv_prefix self) = true.
Proof.
  apply startswith_app. unfold csv_key, csv_prefix.
  eexists. rewrite <- app_assoc. reflexivity.
Qed.

(** *** What the snapshot step leaves alone *)

Lemma startswith_false_neq (key prefix rest : str) :
  startswith key prefix = false -> prefix ++ rest <> key.
Proof.
  intros H E. subst key.
  assert (Ht : startswith (prefix ++ rest) prefix = true)
    by (apply startswith_app; eexists; reflexivity).
  congruence.
Qed.

(** A write of a table changes no object outside the prefix of the
    table. *)
Lemma save_or_append_outside (lib : pylib) (clk : clock) (self : processor)
  (w : world) (df : dataframe) (table_name filename key : str) :
  startswith key (delta_prefix self table_name) = false ->
  s3 (snd (save_or_append_delta_table_to_s3 lib clk self w df table_name filename))
    !! key = s3 w !! key.
Proof.
  intros Hout. unfold save_or_append_delta_table_to_s3.
  destruct (s3_client self); simpl; [|reflexivity].
  destruct (check_existing_delta_table_in_s3 _ _ _); simpl;
    (rewrite setup_athena_s3 by (apply startswith_false_neq; exact Hout));
    rewrite upload_s3;
    (destruct (decide _) as [E|_];
       [exfalso; revert E; apply startswith_false_neq; exact Hout|]);
    (destruct (decide _) as [E|_];
       [exfalso; revert E; apply startswith_false_neq; exact Hout|]);
    reflexivity.
Qed.

Lemma save_delta_table_outside (lib : pylib) (clk : clock) (self : processor)
  (w : world) (df : dataframe) (table_name key : str) :
  startswith key (delta_prefix self table_name) = false ->
  s3 (snd (save_delta_table_to_s3 lib clk self w df table_name)) !! key
  = s3 w !! key.
Proof.
  intros Hout. unfold save_delta_table_to_s3.
  destruct (s3_client self); simpl; [|reflexivity].
  rewrite setup_athena_s3 by (apply startswith_false_neq; exact Hout).
  rewrite upload_s3.
  destruct (decide _) as [E|_];
    [exfalso; revert E; apply startswith_false_neq; exact Hout|].
  destruct (decide _) as [E|_];
    [exfalso; revert E; apply startswith_false_neq; exact Hout|].
  reflexivity.
Qed.

Lemma setup_athena_local (self : processor) (w : world) (table_name : str)
  (df : dataframe) (location : str) :
  local_files (setup_athena_compatibility self w table_name df location)
  = local_files w.
Proof.
  unfold setup_athena_compatibility, generate_symlink_format_manifest,
    create_glue_table_from_delta.
  destruct (map _ _); destruct (glue_client self); reflexivity.
Qed.

Lemma save_or_append_local (lib : pylib) (clk : clock) (self : processor)
  (w : world) (df : dataframe) (table_name filename : str) :
  local_files
    (snd (save_or_append_delta_table_to_s3 lib clk self w df table_name filename))
  = local_files w.
Proof.
  unfold save_or_append_delta_table_to_s3.
  destruct (s3_client self); simpl; [|reflexivity].
  destruct (check_existing_delta_table_in_s3 _ _ _); simpl;
    rewrite setup_athena_local; reflexivity.
Qed.

Lemma save_delta_table_local (lib : pylib) (clk : clock) (self : processor)
  (w : world) (df : dataframe) (table_name : str) :
  local_files (snd (save_delta_table_to_s3 lib clk self w df table_name))
  = local_files w.
Proof.
  unfold save_delta_table_to_s3.
  destruct (s3_client self); simpl; [|reflexivity].
  rewrite setup_athena_local. reflexivity.
Qed.

(** A property of the result that holds before any step and that every
    step keeps holds for what the function returns. *)
Lemma generate_ind (P : progress -> Prop) (lib : pylib) (clk : clock)
  (self : processor) (w : world) (tables_data : tables) (filename : str) :
  P ([], w) ->
  (forall p delta table_name result_key,
     P p -> P (save_primary lib clk self filename delta table_name result_key p)) ->
  (forall p delta name result_key,
     P p -> P (save_analytical lib clk self delta name result_key p)) ->
  P (generate_and_save_delta_tables_to_s3 lib clk self w tables_data filename).
Proof.
  intros H0 H1 H3. unfold generate_and_save_delta_tables_to_s3.
  destruct (negb (has_data tables_data (lit "investimento_financeiro"))
            && negb (has_data tables_data (lit "renda_fixa"))); [exact H0|].
  set (p1 := if has_data tables_data (lit "investimento_financeiro") then _ else _).
  assert (Hp1 : P p1).
  { subst p1. destruct (has_data tables_data (lit "investimento_financeiro"));
      [apply H1|]; exact H0. }
  clearbody p1.
  set (p2 := if has_data tables_data (lit "renda_fixa") then _ else _).
  assert (Hp2 : P p2).
  { subst p2. destruct (has_data tables_data (lit "renda_fixa"));
      [apply H1|]; exact Hp1. }
  clearbody p2.
  assert (Hd3 : forall p, P p ->
            P (if has_data tables_data (lit "investimento_financeiro")
                  && has_key tables_data (lit "cronograma_pagamentos")
                  && has_values tables_data
               then match create_cashflow_delta_table lib clk tables_data filename with
                    | Some cashflow_delta =>
                        save_analytical lib clk self cashflow_delta
                          (splitext_root filename ++ lit "_delta_fluxo_caixa_"
                           ++ stamp_compact clk)
                          (lit "delta_fluxo_caixa") p
                    | None => p
                    end
               else p)).
  { intros p Hp. destruct (_ && _ && _); [|exact Hp].
    destruct (create_cashflow_delta_table _ _ _ _); [apply H3|]; exact Hp. }
  destruct (_ && (_ || _) && _).
  - destruct (create_product_value_delta_table _ _ _ _ _ _); [|exact Hp2].
    apply Hd3, H3, Hp2.
  - apply Hd3, Hp2.
Qed.

(** The snapshot step changes no object outside the prefixes of the
    snapshot tables. *)
Lemma generate_outside (lib : pylib) (clk : clock) (self : processor)
  (w : world) (tables_data : tables) (filename key : str) :
  (forall table_name, startswith key (delta_prefix self table_name) = false) ->
  s3 (snd (generate_and_save_delta_tables_to_s3 lib clk self w tables_data
             filename)) !! key
  = s3 w !! key.
Proof.
  intros Hout.
  apply (generate_ind (fun p => s3 (snd p) !! key = s3 w !! key)).
  - reflexivity.
  - intros [files w1] delta table_name result_key H1. unfold save_primary.
    destruct (negb (df_empty delta)); [|assumption].
    pose proof (save_or_append_outside lib clk self w1 delta table_name filename
                  key (Hout table_name)) as Ha.
    destruct (save_or_append_delta_table_to_s3 _ _ _ _ _ _ _) as [info w2].
    cbn [snd] in *. congruence.
  - intros [files w1] delta name result_key H1. unfold save_analytical.
    destruct (negb (df_empty delta)); [|assumption].
    pose proof (save_delta_table_outside lib clk self w1 delta name key
                  (Hout name)) as Ha.
    destruct (save_delta_table_to_s3 _ _ _ _ _ _) as [info w2].
    cbn [snd] in *. congruence.
Qed.

(** The snapshot step writes no local file. *)
Lemma generate_local (lib : pylib) (clk : clock) (self : processor)
  (w : world) (tables_data : tables) (filename : str) :
  local_files (snd (generate_and_save_delta_tables_to_s3 lib clk self w
                      tables_data filename))
  = local_files w.
Proof.
  apply (generate_ind (fun p => local_files (snd p) = local_files w)).
  - reflexivity.
  - intros [files w1] delta table_name result_key H1. unfold save_primary.
    destruct (negb (df_empty delta)); [|assumption].
    pose proof (save_or_append_local lib clk self w1 delta table_name filename)
      as Hb.
    destruct (save_or_append_delta_table_to_s3 _ _ _ _ _ _ _) as [info w2].
    cbn [snd] in *. congruence.
  - intros [files w1] delta name result_key H1. unfold save_analytical.
    destruct (negb (df_empty delta)); [|assumption].
    pose proof (save_delta_table_local lib clk self w1 delta name) as Hb.
    destruct (save_delta_table_to_s3 _ _ _ _ _ _) as [info w2].
    cbn [snd] in *. congruence.
Qed.

Lemma startswith_common (a x y : str) :
  startswith (a ++ x) (a ++ y) = startswith x y.
Proof.
  induction a as [|c a IH]; [reflexivity|].
  simpl. rewrite Ascii.eqb_refl. exact IH.
Qed.

(** A key of the [csv] folder lies under the prefix of no snapshot
    table. *)
Lemma csv_key_not_delta (self : processor) (clk : clock) (base t name : str) :
  startswith (csv_key self clk base t) (delta_prefix self name) = false.
Proof.
  unfold csv_key, delta_prefix. rewrite startswith_common. reflexivity.
Qed.

(** What the loop of [save_tables_to_s3_csv] leaves in the bucket: the
    CSV of every table with rows whose write does not raise, and nothing
    else. *)
Lemma upload_tables_spec (flt : csv_faults) (self : processor) (clk : clock)
  (base : str) (tbls : tables) :
  forall w, List.NoDup (map fst tbls) ->
  let r := upload_tables flt self clk w tbls base in
  (forall t df, In (t, df) tbls -> df_empty df = false ->
     write_raises flt (csv_key self clk base t) = false ->
     s3 (snd r) !! csv_key self clk base t = Some (CsvFile df)
     /\ In (t, s3_uri self (csv_key self clk base t)) (fst r))
  /\ (forall t path, In (t, path) (fst r) ->
        exists df, In (t, df) tbls /\ df_empty df = false
                   /\ write_raises flt (csv_key self clk base t) = false
                   /\ path = s3_uri self (csv_key self clk base t))
  /\ (forall key,
        (forall t df, In (t, df) tbls -> df_empty df = false ->
                      write_raises flt (csv_key self clk base t) = false ->
                      key <> csv_key self clk base t) ->
        s3 (snd r) !! key = s3 w !! key)
  /\ glue_requests (snd r) = glue_requests w
  /\ local_files (snd r) = local_files w.
Proof.
  induction tbls as [|[t0 df0] rest IH]; intros w Hnd; cbn [upload_tables].
  - simpl. split; [intros t df []|]. split; [intros t path []|]. auto.
  - inversion Hnd as [|? ? Hnotin Hnd']; subst.
    assert (Hskip :
      forall r : list (str * str) * world,
        df_empty df0 = true \/ write_raises flt (csv_key self clk base t0) = true ->
        ((forall t df, In (t, df) rest -> df_empty df = false ->
            write_raises flt (csv_key self clk base t) = false ->
            s3 (snd r) !! csv_key self clk base t = Some (CsvFile df)
            /\ In (t, s3_uri self (csv_key self clk base t)) (fst r))
         /\ (forall t path, In (t, path) (fst r) ->
               exists df, In (t, df) rest /\ df_empty df = false
                          /\ write_raises flt (csv_key self clk base t) = false
                          /\ path = s3_uri self (csv_key self clk base t))
         /\ (forall key,
               (forall t df, In (t, df) rest -> df_empty df = false ->
                             write_raises flt (csv_key self clk base t) = false ->
                             key <> csv_key self clk base t) ->
               s3 (snd r) !! key = s3 w !! key)
         /\ glue_requests (snd r) = glue_requests w
         /\ local_files (snd r) = local_files w) ->
        (forall t df, In (t, df) ((t0, df0) :: rest) -> df_empty df = false ->
            write_raises flt (csv_key self clk base t) = false ->
            s3 (snd r) !! csv_key self clk base t = Some (CsvFile df)
            /\ In (t, s3_uri self (csv_key self clk base t)) (fst r))
        /\ (forall t path, In (t, path) (fst r) ->
              exists df, In (t, df) ((t0, df0) :: rest) /\ df_empty df = false
                         /\ write_raises flt (csv_key self clk base t) = false
                         /\ path = s3_uri self (csv_key self clk base t))
        /\ (forall key,
              (forall t df, In (t, df) ((t0, df0) :: rest) -> df_empty df = false ->
                            write_raises flt (csv_key self clk base t) = false ->
                            key <> csv_key self clk base t) ->
              s3 (snd r) !! key = s3 w !! key)
        /\ glue_requests (snd r) = glue_requests w
        /\ local_files (snd r) = local_files w).
    { intros r Hwhy [H1 [H2 [H3 [H4 H5]]]].
      split; [|split; [|split; [|split]]]; auto.
      - intros t df [Heq|Hin] Hne Hok; [|apply H1; assumption].
        injection Heq as <- <-. destruct Hwhy; congruence.
      - intros t path Hin. destruct (H2 t path Hin) as [df [Ha Hb]].
        exists df. split; [right; exact Ha | exact Hb].
      - intros key Hkey. apply H3. intros t df Hin. apply Hkey. right. exact Hin. }
    destruct (df_empty df0) eqn:E0; cbn [negb].
    + apply Hskip; [left; reflexivity|]. apply (IH w Hnd').
    + destruct (write_raises flt (csv_key self clk base t0)) eqn:Ew.
      * apply Hskip; [right; reflexivity|]. apply (IH w Hnd').
      * specialize (IH (put_object w (csv_key self clk base t0) (CsvFile df0)) Hnd').
        cbv zeta in IH.
        destruct (upload_tables flt self clk _ rest base) as [saved w2].
        cbn [fst snd] in *. destruct IH as [H1 [H2 [H3 [H4 H5]]]].
        split; [|split; [|split; [|split]]]; auto.
        -- intros t df [Heq|Hin] Hne Hok.
           ++ injection Heq as <- <-. split; [|left; reflexivity].
              rewrite H3.
              ** unfold put_object. simpl. apply lookup_insert_eq.
              ** intros t' df' Hin' _ _ E. apply csv_key_inj in E. subst t'.
                 apply Hnotin. apply (in_map fst) in Hin'. exact Hin'.
           ++ destruct (H1 t df Hin Hne Hok) as [Ha Hb].
              split; [exact Ha | right; exact Hb].
        -- intros t path [Heq|Hin].
           ++ injection Heq as <- <-. exists df0.
              split; [left; reflexivity|]. auto.
           ++ destruct (H2 t path Hin) as [df [Ha Hb]].
              exists df. split; [right; exact Ha | exact Hb].
        -- intros key Hkey. rewrite H3.
           ++ unfold put_object. simpl. apply lookup_insert_ne.
              intros E. apply (Hkey t0 df0); auto. left. reflexivity.
           ++ intros t df Hin. apply Hkey. right. exact Hin.
Qed.

(** Some table with rows cannot be written to the local directory. *)
Definition local_fault (flt : csv_faults) (clk : clock) (base : str)
  (tbls : tables) : bool :=
  existsb (fun '(t, df) =>
             negb (df_empty df) && write_raises flt (local_csv_path clk base t))
          tbls.

(** What the loop of [save_tables_locally] leaves in the [datasets]
    directory. *)
Lemma write_tables_locally_spec (flt : csv_faults) (clk : clock) (base : str)
  (tbls : tables) :
  forall w,
  let r := write_tables_locally flt clk w tbls base in
  s3 (snd r) = s3 w
  /\ glue_requests (snd r) = glue_requests w
  /\ (forall f, In f (local_files w) -> In f (local_files (snd r)))
  /\ (local_fault flt clk base tbls = true -> fst r = None)
  /\ (local_fault flt clk base tbls = false ->
      exists saved,
        fst r = Some saved
        /\ forall t df, In (t, df) tbls -> df_empty df = false ->
             In (local_csv_path clk base t, df) (local_files (snd r))
             /\ In (t, local_csv_path clk base t) saved)
  /\ (forall before after,
        tbls = before ++ after -> local_fault flt clk base before = false ->
        forall t df, In (t, df) before -> df_empty df = false ->
          In (local_csv_path clk base t, df) (local_files (snd r))).
Proof.
  induction tbls as [|[t0 df0] rest IH]; intros w;
    cbn [write_tables_locally local_fault existsb].
  - cbv zeta. cbn [fst snd]. repeat split; auto; try discriminate.
    + intros _. exists []. split; [reflexivity|]. intros t df [].
    + intros before after E _ t df Hin.
      destruct before; [destruct Hin | discriminate].
  - fold (local_fault flt clk base rest).
    destruct (df_empty df0) eqn:E0; cbn [negb andb orb].
    + specialize (IH w). cbv zeta in IH.
      destruct IH as [H1 [H2 [H3 [H4 [H5 H6]]]]]. cbv zeta.
      repeat split; auto.
      * intros Hf. destruct (H5 Hf) as [saved [Hs Hall]].
        exists saved. split; [exact Hs|].
        intros t df [Heq|Hin] Hne; [|apply Hall; assumption].
        injection Heq as <- <-. congruence.
      * intros before after E Hf t df Hin Hne.
        destruct before as [|[t1 df1] before]; [destruct Hin|].
        injection E as <- <- E. cbn [local_fault existsb] in Hf.
        rewrite E0 in Hf. cbn [negb andb orb] in Hf.
        destruct Hin as [Heq|Hin]; [injection Heq as <- <-; congruence|].
        apply (H6 before after E Hf t df Hin Hne).
    + destruct (write_raises flt (local_csv_path clk base t0)) eqn:Ew;
        cbn [orb].
      * cbv zeta. cbn [fst snd]. repeat split; auto; try discriminate.
        intros before after E Hf t df Hin Hne.
        destruct before as [|[t1 df1] before]; [destruct Hin|].
        injection E as <- <- E. cbn [local_fault existsb] in Hf.
        rewrite E0, Ew in Hf. discriminate Hf.
      * match goal with
        | |- context [write_tables_locally flt clk ?w1 rest base] =>
            specialize (IH w1); cbv zeta in IH;
            destruct (write_tables_locally flt clk w1 rest base) as [saved w2]
        end.
        cbn [fst snd local_files s3 glue_requests] in *.
        destruct IH as [H1 [H2 [H3 [H4 [H5 H6]]]]].
        repeat split; auto.
        -- intros f Hf. apply H3, in_or_app. left. exact Hf.
        -- intros Hf. rewrite (H4 Hf). reflexivity.
        -- intros Hf. destruct (H5 Hf) as [saved' [-> Hall]].
           eexists. split; [reflexivity|].
           intros t df [Heq|Hin] Hne.
           ++ injection Heq as <- <-. split; [|left; reflexivity].
              apply H3, in_or_app. right. left. reflexivity.
           ++ destruct (Hall t df Hin Hne) as [Ha Hb].
              split; [exact Ha | right; exact Hb].
        -- intros before after E Hf t df Hin Hne.
           destruct before as [|[t1 df1] before]; [destruct Hin|].
           injection E as <- <- E. cbn [local_fault existsb] in Hf.
           rewrite E0, Ew in Hf. cbn [negb andb orb] in Hf.
           destruct Hin as [Heq|Hin].
           ++ injection Heq as <- <-.
              apply H3, in_or_app. right. left. reflexivity.
           ++ apply (H6 before after E Hf t df Hin Hne).
Qed.

(** The base of the CSV file names of a run. *)
Definition base_filename_of (pdf_path : str) (original_filename : option str)
  : str :=
  match original_filename with
  | Some (c :: n) => splitext_root (c :: n)
  | _ => splitext_root (basename pdf_path)
  end.

(** C10 as stated: the run stores the CSV of every extracted table that
    has rows, in the bucket when the S3 client exists and in the local
    [datasets] directory otherwise, and lists it in its answer. *)
Definition exports_every_table (self : processor) (clk : clock) (base : str)
  (tbls : tables) (run : option processing_result * world) : Prop :=
  exists result,
    fst run = Some result
    /\ forall t df, In (t, df) tbls -> df_empty df = false ->
         if s3_client self
         then s3 (snd run) !! csv_key self clk base t = Some (CsvFile df)
              /\ In (t, s3_uri self (csv_key self clk base t))
                   (s3_csv_files result)
         else In (local_csv_path clk base t, df) (local_files (snd run))
              /\ In (t, local_csv_path clk base t) (s3_csv_files result).

Lemma run_base (pdf_path : str) (original_filename : option str) :
  match match original_filename with
        | Some (c :: n) => Some (c :: n)
        | _ => None
        end with
  | Some name => splitext_root name
  | None => splitext_root (basename pdf_path)
  end = base_filename_of pdf_path original_filename.
Proof.
  unfold base_filename_of. destruct original_filename as [[|c n]|]; reflexivity.
Qed.

(** C10, as amended. In every run the tables that have rows are exported
    as CSV before any snapshot is written, whether or not a primary
    table is present. With an S3 client the run returns; the CSV of
    each table with rows whose write does not raise is in the bucket
    under the [csv] folder at the end of the run and is listed in the
    answer, only such tables are listed, and a table whose write raises
    is skipped: its key is as before. Without a client the tables are
    written to the local [datasets] directory: when no call raises, the
    run returns and every table with rows is written and listed; when
    [os.makedirs] or a write raises, the exception leaves the run, and
    the tables before the first one that raises have been written.
    When neither primary table is present with rows, the run sends no
    registration to the catalog, changes no key outside the [csv]
    folder, and its answer holds no snapshot. *)
Theorem csv_exports_without_snapshots (lib : pylib) (clk : clock)
  (flt : csv_faults) (self : processor) (w : world) (tbls : tables)
  (pdf_path : str) (original_filename : option str) :
  List.NoDup (map fst tbls) ->
  let run := process_pdf_with_table_extraction lib clk flt self w tbls pdf_path
               original_filename in
  let base := base_filename_of pdf_path original_filename in
  (s3_client self = true ->
   exists result,
     fst run = Some result
     /\ (forall t df, In (t, df) tbls -> df_empty df = false ->
           write_raises flt (csv_key self clk base t) = false ->
           s3 (snd run) !! csv_key self clk base t = Some (CsvFile df)
           /\ In (t, s3_uri self (csv_key self clk base t))
                (s3_csv_files result))
     /\ (forall t path, In (t, path) (s3_csv_files result) ->
           exists df, In (t, df) tbls /\ df_empty df = false
                      /\ write_raises flt (csv_key self clk base t) = false
                      /\ path = s3_uri self (csv_key self clk base t))
     /\ (forall t df, In (t, df) tbls ->
           write_raises flt (csv_key self clk base t) = true ->
           s3 (snd run) !! csv_key self clk base t
           = s3 w !! csv_key self clk base t))
  /\ (s3_client self = false ->
      (makedirs_raises flt = false -> local_fault flt clk base tbls = false ->
       exists result,
         fst run = Some result
         /\ forall t df, In (t, df) tbls -> df_empty df = false ->
              In (local_csv_path clk base t, df) (local_files (snd run))
              /\ In (t, local_csv_path clk base t) (s3_csv_files result))
      /\ (tbls <> [] ->
          makedirs_raises flt = true \/ local_fault flt clk base tbls = true ->
          fst run = None)
      /\ (makedirs_raises flt = false ->
          forall before after,
            tbls = before ++ after -> local_fault flt clk base before = false ->
            forall t df, In (t, df) before -> df_empty df = false ->
              In (local_csv_path clk base t, df) (local_files (snd run))))
  /\ (no_primary_data tbls ->
      glue_requests (snd run) = glue_requests w
      /\ (forall key, startswith key (csv_prefix self) = false ->
                      s3 (snd run) !! key = s3 w !! key)
      /\ forall result, fst run = Some result -> s3_delta_files result = []).
Proof.
  intros Hnd run base. subst run.
  unfold process_pdf_with_table_extraction.
  destruct tbls as [|p rest] eqn:Et.
  - cbn [fst snd]. split; [|split].
    + intros _. eexists. split; [reflexivity|].
      cbn [s3_csv_files].
      split; [intros t df []|]. split; [intros t path []|]. intros t df [].
    + intros _. split; [|split].
      * intros _ _. eexists. split; [reflexivity|]. intros t df [].
      * congruence.
      * intros _ before after E _ t df Hin.
        destruct before; [destruct Hin | discriminate].
    + intros _. split; [reflexivity|]. split; [reflexivity|].
      intros result H. injection H as <-. reflexivity.
  - rewrite <- Et in *. clear Et p rest.
    rewrite run_base. fold base.
    set (name := match match original_filename with
                       | Some (c :: n) => Some (c :: n)
                       | _ => None
                       end with
                 | Some name => name
                 | None => basename pdf_path
                 end).
    unfold save_tables_to_s3_csv.
    destruct (s3_client self) eqn:Es3; cbn [negb].
    + pose proof (upload_tables_spec flt self clk base tbls w Hnd) as Hup.
      cbv zeta in Hup.
      destruct (upload_tables flt self clk w tbls base) as [saved w1].
      cbn [fst snd] in Hup. destruct Hup as [H1 [H2 [H3 [H4 H5]]]].
      assert (Hgen : forall key,
                 (forall table_name,
                    startswith key (delta_prefix self table_name) = false) ->
                 s3 (snd (generate_and_save_delta_tables_to_s3 lib clk self w1
                            tbls name)) !! key = s3 w1 !! key).
      { intros key Hkey. apply (generate_outside lib clk self w1 tbls name key Hkey). }
      pose proof (generate_nothing_without_primary lib clk self w1 tbls name)
        as Hnone.
      destruct (generate_and_save_delta_tables_to_s3 lib clk self w1 tbls name)
        as [deltas w2].
      cbn [fst snd s3_delta_files s3_csv_files] in *.
      split; [|split; [discriminate|]].
      * intros _. eexists. split; [reflexivity|]. cbn [s3_csv_files].
        split; [|split; [exact H2|]].
        -- intros t df Hin Hne Hok. destruct (H1 t df Hin Hne Hok) as [Ha Hb].
           split; [|exact Hb].
           rewrite Hgen by (intros n; apply csv_key_not_delta). exact Ha.
        -- intros t df Hin Hraise.
           rewrite Hgen by (intros n; apply csv_key_not_delta).
           apply H3. intros t' df' _ _ Hok E. rewrite <- E in Hok. congruence.
      * intros Hnp. specialize (Hnone Hnp). injection Hnone as -> ->.
        split; [exact H4|]. split.
        -- intros key Hkey. apply H3. intros t df _ _ _ E. subst key.
           rewrite csv_key_under_prefix in Hkey. discriminate.
        -- intros result H. injection H as <-. reflexivity.
    + unfold save_tables_locally.
      pose proof (write_tables_locally_spec flt clk base tbls w) as Hloc.
      cbv zeta in Hloc.
      pose proof (fun w1 => generate_local lib clk self w1 tbls name) as Hgen.
      pose proof (fun w1 => generate_nothing_without_primary lib clk self w1 tbls
                              name) as Hnone.
      destruct (makedirs_raises flt) eqn:Em.
      * cbn [fst snd]. split; [discriminate|]. split; [split; [|split]|].
        -- discriminate.
        -- reflexivity.
        -- discriminate.
        -- intros _. split; [reflexivity|]. split; [reflexivity | discriminate].
      * destruct (write_tables_locally flt clk w tbls base) as [saved w1].
        cbn [fst snd] in Hloc. destruct Hloc as [H1 [H2 [H3 [H4 [H5 H6]]]]].
        destruct saved as [saved|].
        -- specialize (Hgen w1). specialize (Hnone w1).
           destruct (generate_and_save_delta_tables_to_s3 lib clk self w1 tbls name)
             as [deltas w2].
           cbn [fst snd s3_delta_files s3_csv_files] in *.
           assert (Hl : local_files w2 = local_files w1) by exact Hgen.
           split; [discriminate|]. split; [split; [|split]|].
           ++ intros _ Hf. destruct (H5 Hf) as [saved' [E Hall]].
              injection E as <-. eexists. split; [reflexivity|].
              cbn [s3_csv_files]. intros t df Hin Hne. rewrite Hl.
              apply Hall; assumption.
           ++ intros _ [Hm|Hf]; [discriminate|]. specialize (H4 Hf). discriminate.
           ++ intros _ before after E Hf t df Hin Hne. rewrite Hl.
              apply (H6 before after E Hf t df Hin Hne).
           ++ intros Hnp. specialize (Hnone Hnp). injection Hnone as -> ->.
              split; [exact H2|]. split.
              ** intros key _. rewrite H1. reflexivity.
              ** intros result H. injection H as <-. reflexivity.
        -- cbn [fst snd]. split; [discriminate|]. split; [split; [|split]|].
           ++ intros _ Hf. destruct (H5 Hf) as [saved' [E _]]. discriminate.
           ++ reflexivity.
           ++ intros _ before after E Hf t df Hin Hne.
              apply (H6 before after E Hf t df Hin Hne).
           ++ intros _. split; [exact H2|]. split.
              ** intros key _. rewrite H1. reflexivity.
              ** discriminate.
Qed.

(** A run in which the contract parties and the contract values were
    extracted, no primary table has rows, and the upload of the
    contract values raises. *)
Definition parties_and_values : tables :=
  [ (lit "partes_contrato", parties_frame);
    (lit "valores_contrato", example_values);
    (lit "renda_fixa", empty_frame) ].

Definition values_key : str :=
  lit "chathib-prod/csv/contrato_valores_contrato_20250101_120000.csv".

Definition parties_key : str :=
  lit "chathib-prod/csv/contrato_partes_contrato_20250101_120000.csv".

Definition values_upload_fails : csv_faults :=
  {| makedirs_raises := false;
     write_raises := fun destination => bool_decide (destination = values_key) |}.

Definition faulty_run : option processing_result * world :=
  process_pdf_with_table_extraction example_lib example_clock
    values_upload_fails example_processor empty_world parties_and_values
    (lit "/tmp/upload.pdf") (Some (lit "contrato.pdf")).

(** The amended statement at that run: the CSV of the parties is stored
    and listed, the contract values are skipped, and there is no
    snapshot. *)
Lemma csv_exports_witness :
  List.NoDup (map fst parties_and_values)
  /\ no_primary_data parties_and_values
  /\ s3 (snd faulty_run) !! parties_key = Some (CsvFile parties_frame)
  /\ s3 (snd faulty_run) !! values_key = None
  /\ option_map s3_delta_files (fst faulty_run) = Some []
  /\ list_keys (snd faulty_run) (lit "chathib-prod/delta_datasets/") = [].
Proof.
  assert (Hnd : List.NoDup (map fst parties_and_values))
    by (repeat constructor; simpl; intuition discriminate).
  assert (Hnp : no_primary_data parties_and_values).
  { split; intros df H; vm_compute in H; [discriminate|].
    injection H as <-. reflexivity. }
  split; [exact Hnd|]. split; [exact Hnp|].
  destruct (csv_exports_without_snapshots example_lib example_clock
              values_upload_fails example_processor empty_world
              parties_and_values (lit "/tmp/upload.pdf")
              (Some (lit "contrato.pdf")) Hnd)
    as [Hs3 [_ Hnone]].
  fold faulty_run in Hs3, Hnone.
  destruct (Hs3 eq_refl) as [result [Hres [Hok [_ Hskip]]]].
  destruct (Hnone Hnp) as [_ [_ Hd]].
  split; [|split; [|split]].
  - change parties_key
      with (csv_key example_processor example_clock
              (base_filename_of (lit "/tmp/upload.pdf") (Some (lit "contrato.pdf")))
              (lit "partes_contrato")).
    apply (Hok (lit "partes_contrato") parties_frame); [left|..]; reflexivity.
  - change values_key
      with (csv_key example_processor example_clock
              (base_filename_of (lit "/tmp/upload.pdf") (Some (lit "contrato.pdf")))
              (lit "valores_contrato")).
    rewrite (Hskip (lit "valores_contrato") example_values);
      [reflexivity | right; left; reflexivity | reflexivity].
  - rewrite Hres. simpl. rewrite (Hd result Hres). reflexivity.
  - vm_compute. reflexivity.
Defined.

(** C10 as stated fails: the contract values have rows, but their
    upload raises, the handler of the loop skips them, and the run
    returns without their CSV. *)
Lemma a_failed_upload_is_skipped :
  In (lit "valores_contrato", example_values) parties_and_values
  /\ df_empty example_values = false
  /\ option_map s3_csv_files (fst faulty_run)
     = Some [(lit "partes_contrato",
              lit "s3://dl-landing-zone-ca-central-1-stage/" ++ parties_key)]
  /\ s3 (snd faulty_run) !! values_key = None
  /\ ~ exports_every_table example_processor example_clock (lit "contrato")
         parties_and_values faulty_run.
Proof.
  assert (Hk : s3 (snd faulty_run) !! values_key = None)
    by (vm_compute; reflexivity).
  split; [right; left; reflexivity|]. split; [reflexivity|].
  split; [vm_compute; reflexivity|]. split; [exact Hk|].
  intros [result [_ Hall]].
  destruct (Hall (lit "valores_contrato") example_values
              ltac:(right; left; reflexivity) eq_refl) as [Hstored _].
  change (csv_key example_processor example_clock (lit "contrato")
            (lit "valores_contrato")) with values_key in Hstored.
  rewrite Hk in Hstored. discriminate Hstored.
Qed.

End SnapshotFacts.

(** ** More on [_clean_text] *)

Module CleanTextFacts.
Import PyStr PyStrFacts Chunker ChunkerFacts.

Lemma single_spaced_nth (t : str) :
  single_spaced t ->
  forall i c, nth_error t i = Some c -> is_space c = true ->
    c = SP /\ forall d, nth_error t (S i) = Some d -> is_space d = false.
Proof.
  induction t as [|a t IH]; intros Hs i c Hi Hc.
  - destruct i; discriminate.
  - destruct Hs as [Ha Hs]. destruct i as [|i]; simpl in Hi.
    + injection Hi as ->. destruct (Ha Hc) as [-> Hcl]. split; [reflexivity|].
      intros d Hd. simpl in Hd. destruct t as [|b t]; [discriminate|].
      simpl in Hd. injection Hd as <-. exact Hcl.
    + apply (IH Hs i c Hi Hc).
Qed.

(** X1. In the text that [_clean_text] returns every whitespace character is
    a space that stands strictly inside the text, directly before a
    character that is not whitespace. *)
Theorem clean_text_single_spaces (s : str) :
  let t := _clean_text s in
  forall i c, nth_error t i = Some c -> is_space c = true ->
    c = SP /\ (0 < i)%nat
    /\ exists d, nth_error t (S i) = Some d /\ is_space d = false.
Proof.
  intros t i c Hi Hc.
  destruct (clean_text_normalized s) as [Hs [Hstart Hend]]. fold t in Hs, Hstart, Hend.
  destruct (single_spaced_nth t Hs i c Hi Hc) as [-> Hnext].
  split; [reflexivity|]. split.
  - destruct i as [|i]; [|lia]. destruct t as [|a t']; [discriminate|].
    simpl in Hi. injection Hi as ->. simpl in Hstart. rewrite Hstart in Hc. discriminate.
  - destruct (nth_error t (S i)) as [d|] eqn:Hd.
    + exists d. split; [reflexivity | apply Hnext; reflexivity].
    + exfalso. apply nth_error_None in Hd.
      assert (Hlen : (i < List.length t)%nat) by (apply nth_error_Some; rewrite Hi; discriminate).
      assert (Hlast : nth_error t (List.length t - 1) = Some SP).
      { replace (List.length t - 1)%nat with i by lia. exact Hi. }
      pose proof (ends_clean_last t SP Hend Hlast) as E. rewrite E in Hc. discriminate.
Qed.

(** A text with spaces at both ends, a tab and a blank line. *)
Definition messy_text : str :=
  lit "  a " ++ [NL; NL] ++ lit " b" ++ [ascii_of_nat 9] ++ lit " c  ".

Lemma clean_text_single_spaces_witness :
  _clean_text messy_text = lit "a b c"
  /\ nth_error (_clean_text messy_text) 1 = Some SP
  /\ exists d, nth_error (_clean_text messy_text) 2 = Some d
               /\ is_space d = false.
Proof.
  split; [vm_compute; reflexivity|].
  assert (H : nth_error (_clean_text messy_text) 1 = Some SP)
    by (vm_compute; reflexivity).
  split; [exact H|].
  destruct (clean_text_single_spaces messy_text 1 SP H eq_refl) as [_ [_ Hd]].
  exact Hd.
Defined.


(** X2. The second substitution of [_clean_text] never changes the text. *)
Theorem clean_text_blank_line_rule_is_idle (s : str) :
  sub_blank_lines 0 (sub_space_runs false s) = sub_space_runs false s
  /\ _clean_text s = strip (sub_space_runs false s)
  /\ ~ In NL (_clean_text s).
Proof.
  destruct (sub_space_runs_single_spaced s false) as [H _].
  pose proof (sub_blank_lines_id _ (single_spaced_no_newline _ H)) as E.
  split; [exact E|]. split.
  - unfold _clean_text. rewrite E. reflexivity.
  - intros Hin. apply In_nth_error in Hin as [i Hi].
    destruct (clean_text_normalized s) as [Hs _].
    destruct (single_spaced_nth _ Hs i NL Hi eq_refl) as [Habs _].
    discriminate.
Qed.

End CleanTextFacts.

Module CleanTextWords.
Import PyStr PyStrFacts Chunker ChunkerFacts.
Import Tables.

Lemma words_aux_sub_space_runs (s : str) :
  forall (in_run : bool) (cur : str),
    (in_run = true -> cur = []) ->
    words_aux cur (sub_space_runs in_run s) = words_aux cur s.
Proof.
  induction s as [|c s IH]; intros in_run cur Hcur; simpl; [reflexivity|].
  destruct (is_space c) eqn:E.
  - destruct in_run.
    + rewrite (Hcur eq_refl). apply IH. reflexivity.
    + cbn [words_aux]. rewrite is_space_SP. rewrite (IH true []) by reflexivity. reflexivity.
  - simpl. rewrite E. apply IH. discriminate.
Qed.

Lemma words_aux_spaces (w : str) :
  forallb is_space w = true ->
  forall cur, words_aux cur w = match cur with [] => [] | _ => [rev cur] end.
Proof.
  induction w as [|c w IH]; intros H cur; simpl; [reflexivity|].
  simpl in H. apply andb_true_iff in H as [-> H].
  rewrite (IH H []). reflexivity.
Qed.

Lemma words_aux_app_spaces (x w : str) :
  forallb is_space w = true ->
  forall cur, words_aux cur (x ++ w) = words_aux cur x.
Proof.
  intros H. induction x as [|c x IH]; intros cur; simpl.
  - rewrite (words_aux_spaces w H). reflexivity.
  - destruct (is_space c); rewrite ?IH; reflexivity.
Qed.

Lemma words_aux_spaces_app (w x : str) :
  forallb is_space w = true ->
  words_aux [] (w ++ x) = words_aux [] x.
Proof.
  induction w as [|c w IH]; intros H; simpl; [reflexivity|].
  simpl in H. apply andb_true_iff in H as [-> H]. apply IH. exact H.
Qed.

Lemma words_strip (s : str) : words (strip s) = words s.
Proof.
  destruct (strip_split s) as [a [b [E [Ha Hb]]]].
  unfold words. rewrite E at 2.
  rewrite words_aux_spaces_app by exact Ha.
  rewrite words_aux_app_spaces by exact Hb. reflexivity.
Qed.

(** [len(s.split())] is the number of words of [s.split()]. *)
Lemma count_words_aux (s : str) :
  forall cur,
    Z.of_nat (List.length (words_aux cur s))
    = count_words (match cur with [] => false | _ => true end) s
      + (match cur with [] => 0 | _ => 1 end).
Proof.
  induction s as [|c s IH]; intros cur; simpl.
  - destruct cur; reflexivity.
  - destruct (is_space c).
    + destruct cur; simpl length; rewrite ?Nat2Z.inj_succ, (IH []); simpl; lia.
    + rewrite (IH (c :: cur)). destruct cur; lia.
Qed.

Lemma word_count_words (s : str) :
  PyStr.word_count s = Z.of_nat (List.length (words s)).
Proof. unfold PyStr.word_count, words. rewrite (count_words_aux s []). lia. Qed.

Lemma len_sub_space_runs (s : str) (in_run : bool) :
  len (sub_space_runs in_run s) <= len s.
Proof.
  revert in_run. induction s as [|c s IH]; intros in_run; simpl; [lia|].
  destruct (is_space c); [destruct in_run|]; rewrite ?len_cons;
    [specialize (IH true) | specialize (IH true) | specialize (IH false)]; lia.
Qed.

Lemma len_strip (s : str) : len (strip s) <= len s.
Proof.
  destruct (strip_split s) as [a [b [E _]]]. rewrite E at 2.
  rewrite !len_app. pose proof (len_nonneg a). pose proof (len_nonneg b). lia.
Qed.

(** X3. Cleaning a text touches whitespace only. *)
Theorem clean_text_keeps_the_words (s : str) :
  words (_clean_text s) = words s
  /\ PyStr.word_count (_clean_text s) = PyStr.word_count s
  /\ len (_clean_text s) <= len s.
Proof.
  assert (E : _clean_text s = strip (sub_space_runs false s)).
  { unfold _clean_text.
    destruct (sub_space_runs_single_spaced s false) as [H _].
    rewrite (sub_blank_lines_id _ (single_spaced_no_newline _ H)). reflexivity. }
  assert (W : words (_clean_text s) = words s).
  { rewrite E, words_strip. unfold words.
    apply words_aux_sub_space_runs. discriminate. }
  split; [exact W|]. split.
  - rewrite !word_count_words, W. reflexivity.
  - rewrite E. pose proof (len_strip (sub_space_runs false s)).
    pose proof (len_sub_space_runs s false). lia.
Qed.

End CleanTextWords.

(** ** More on [_find_natural_break] *)

Module BreakFacts.
Import PyStr PyStrFacts Chunker ChunkerFacts.






End BreakFacts.

(** ** More on [create_text_chunks] *)

Module ChunkFacts.
Import PyStr PyStrFacts Chunker ChunkerFacts.

(** A property that the first state has and every iteration keeps
    holds after any number of iterations. *)
Lemma loop_invariant (P : loop_state -> Prop) (cfg : config) (t name : str) :
  P init_state ->
  (forall st, P st -> loop_cond t st = true -> P (loop_body cfg t name st)) ->
  forall k : nat,
    (forall j, (j < k)%nat ->
       loop_cond t (Nat.iter j (loop_body cfg t name) init_state) = true) ->
    P (Nat.iter k (loop_body cfg t name) init_state).
Proof.
  intros Hinit Hstep k. induction k as [|k IH]; intros Hrun.
  - exact Hinit.
  - simpl. apply Hstep.
    + apply IH. intros j Hj. apply Hrun. lia.
    + apply Hrun. lia.
Qed.

Lemma create_text_chunks_short (cfg : config) (text name : str) :
  len (_clean_text text) < min_chunk_size cfg ->
  create_text_chunks cfg text name = [whole_text_chunk (_clean_text text) name].
Proof.
  intros Hshort. unfold create_text_chunks, create_text_chunks_fuel.
  destruct (Z.ltb_spec (len (_clean_text text)) (min_chunk_size cfg)); [|lia].
  reflexivity.
Qed.

(** What [create_text_chunks] returns has a property that the
    whole-text chunk has and that the loop establishes. *)
Lemma create_text_chunks_ind (P : list chunk -> Prop) (cfg : config)
  (text name : str) :
  let t := _clean_text text in
  (len t < min_chunk_size cfg -> P [whole_text_chunk t name]) ->
  (min_chunk_size cfg <= len t ->
   forall k : nat,
     (forall j, (j < k)%nat ->
        loop_cond t (Nat.iter j (loop_body cfg t name) init_state) = true) ->
     P (chunks (Nat.iter k (loop_body cfg t name) init_state))) ->
  P (create_text_chunks cfg text name).
Proof.
  intros t Hshort Hloop.
  destruct (Z.lt_ge_cases (len t) (min_chunk_size cfg)) as [Hlt|Hge].
  - rewrite create_text_chunks_short by exact Hlt. apply Hshort, Hlt.
  - destruct (create_text_chunks_exit cfg text name Hge) as [k [_ [Hrun [_ [-> _]]]]].
    apply Hloop; assumption.
Qed.

(** *** Chunk numbers *)

Definition numbered (st : loop_state) : Prop :=
  map chunk_index (chunks st) = map Z.of_nat (seq 0 (List.length (chunks st)))
  /\ next_index st = Z.of_nat (List.length (chunks st)).

Lemma numbered_step (cfg : config) (t name : str) (st : loop_state) :
  numbered st -> numbered (loop_body cfg t name st).
Proof.
  intros [Hmap Hnext]. unfold numbered, loop_body. cbn [chunks next_index].
  destruct (min_chunk_size cfg <=? _).
  - rewrite length_app, map_app, Hmap. cbn [List.length map chunk_index].
    rewrite Nat.add_1_r, seq_S, map_app, Hnext. cbn [map Nat.add].
    split; [reflexivity | lia].
  - split; assumption.
Qed.

(** X6. The chunks are numbered 0, 1, 2, ... in the order of the list. *)
Theorem chunk_indexes_are_consecutive (cfg : config) (text name : str) :
  forall i c, nth_error (create_text_chunks cfg text name) i = Some c ->
              chunk_index c = Z.of_nat i.
Proof.
  assert (H : map chunk_index (create_text_chunks cfg text name)
              = map Z.of_nat (seq 0 (List.length (create_text_chunks cfg text name)))).
  { apply (create_text_chunks_ind
             (fun cs => map chunk_index cs = map Z.of_nat (seq 0 (List.length cs)))).
    - intros _. reflexivity.
    - intros _ k Hrun.
      apply (loop_invariant numbered cfg (_clean_text text) name); try assumption.
      + split; reflexivity.
      + intros st Hst _. apply numbered_step, Hst. }
  intros i c Hi.
  assert (Hlt : (i < List.length (create_text_chunks cfg text name))%nat)
    by (apply nth_error_Some; rewrite Hi; discriminate).
  pose proof (map_nth_error chunk_index _ _ Hi) as Hm. rewrite H in Hm.
  rewrite nth_error_map, nth_error_seq in Hm.
  destruct (Nat.ltb_spec i (List.length (create_text_chunks cfg text name))); [|lia].
  simpl in Hm. injection Hm as <-. reflexivity.
Qed.

(** A text of 2500 letters without whitespace. *)
Definition long_word : str := repeat "a"%char 2500.

Lemma chunk_indexes_witness :
  map chunk_index (create_text_chunks init_config long_word []) = [0; 1; 2; 3]
  /\ exists c, nth_error (create_text_chunks init_config long_word []) 2 = Some c
               /\ chunk_index c = 2.
Proof.
  split; [vm_compute; reflexivity|].
  assert (H : exists c, nth_error (create_text_chunks init_config long_word []) 2
                        = Some c) by (vm_compute; eexists; reflexivity).
  destruct H as [c H]. exists c. split; [exact H|].
  exact (chunk_indexes_are_consecutive init_config long_word [] 2%nat c H).
Defined.

(** *** Offsets and counts *)

(** The fields of a chunk agree with each other and with the cleaned
    text [t]. *)
Definition located (t name : str) (c : chunk) : Prop :=
  chunk_text c = strip (slice t (start_char c) (end_char c))
  /\ chunk_char_count c = len (chunk_text c)
  /\ chunk_word_count c = PyStr.word_count (chunk_text c)
  /\ pdf_name c = name.

Lemma located_step (cfg : config) (t name : str) (st : loop_state) :
  Forall (located t name) (chunks st) ->
  Forall (located t name) (chunks (loop_body cfg t name st)).
Proof.
  intros H. unfold loop_body. cbn [chunks].
  destruct (min_chunk_size cfg <=? _); [|exact H].
  apply Forall_app. split; [exact H|]. constructor; [|constructor].
  repeat split.
Qed.

Lemma slice_whole (t : str) : slice t 0 (len t) = t.
Proof.
  pose proof (len_nonneg t).
  rewrite slice_inside by lia. simpl. rewrite Z.sub_0_r.
  unfold len. rewrite Nat2Z.id. apply firstn_all.
Qed.

(** X7. The offsets of a chunk are offsets into the cleaned text: the text
    of the chunk is the stripped slice between them, and the character
    and word counts are those of the chunk text. *)
Theorem chunk_fields_agree (cfg : config) (text name : str) :
  forall c, In c (create_text_chunks cfg text name) ->
    chunk_text c
    = strip (slice (_clean_text text) (start_char c) (end_char c))
    /\ chunk_char_count c = len (chunk_text c)
    /\ chunk_word_count c = PyStr.word_count (chunk_text c)
    /\ pdf_name c = name
    /\ strip (chunk_text c) = chunk_text c.
Proof.
  assert (H : Forall (located (_clean_text text) name)
                (create_text_chunks cfg text name)).
  { apply (create_text_chunks_ind (Forall (located (_clean_text text) name))).
    - intros _. constructor; [|constructor].
      unfold located, whole_text_chunk. cbn.
      rewrite slice_whole.
      destruct (clean_text_normalized text) as [_ [H1 H2]].
      rewrite strip_id by assumption. repeat split.
    - intros _ k Hrun.
      apply (loop_invariant (fun st => Forall (located (_clean_text text) name) (chunks st))
               cfg (_clean_text text) name); try assumption.
      + constructor.
      + intros st Hst _. apply located_step, Hst. }
  intros c Hc. rewrite List.Forall_forall in H. destruct (H c Hc) as [H1 [H2 [H3 H4]]].
  repeat split; try assumption.
  rewrite H1. apply strip_id; [apply strip_starts_clean | apply strip_ends_clean].
Qed.

(** A sentence that is shorter than a chunk. *)
Definition short_text : str := lit "  Contrato de  investimento. ".

Lemma chunk_fields_agree_witness :
  exists c,
    In c (create_text_chunks init_config short_text (lit "a.pdf"))
    /\ chunk_text c = lit "Contrato de investimento."
    /\ chunk_char_count c = 25
    /\ chunk_word_count c = 3
    /\ pdf_name c = lit "a.pdf".
Proof.
  assert (H : exists c,
             In c (create_text_chunks init_config short_text (lit "a.pdf"))
             /\ (start_char c, end_char c) = (0, 25))
    by (vm_compute; eexists; split; [left; reflexivity | reflexivity]).
  destruct H as [c [Hin Hpos]]. injection Hpos as Hs He.
  exists c. split; [exact Hin|].
  destruct (chunk_fields_agree init_config short_text (lit "a.pdf") c Hin)
    as [Ht [Hc [Hw [Hn _]]]].
  assert (Etext : chunk_text c = lit "Contrato de investimento.")
    by (rewrite Ht, Hs, He; vm_compute; reflexivity).
  split; [exact Etext|].
  split; [rewrite Hc, Etext; reflexivity|].
  split; [rewrite Hw, Etext; reflexivity | exact Hn].
Defined.

(** *** Sizes *)

(** The upper end of the range in which a break is found. *)
Lemma find_natural_break_upper (text : str) (start preferred_end : Z) :
  0 <= start -> start < preferred_end -> preferred_end < len text ->
  _find_natural_break text start preferred_end
  <= preferred_end + Z.max 1 (search_window start preferred_end).
Proof.
  intros H0 H1 H2.
  destruct (window_bounds text start preferred_end H0 H1 H2)
    as [Hw0 [Hw50 [Hw2 [Hss [Hs1 [Hs2 [He1 He2]]]]]]].
  destruct (find_natural_break_cases text start preferred_end H0 H1 H2)
    as [[brk [p [Hin [[Hp1 [Hp2 Hocc]] Hr]]]]|[[i [Hi [Hsp Hr]]]|Hr]].
  - unfold window_end in Hp2. lia.
  - lia.
  - lia.
Qed.

Lemma chunk_end_upper (cfg : config) (text : str) (s : Z) :
  1 <= chunk_size cfg -> 0 <= s -> s < len text ->
  chunk_end cfg text s <= s + chunk_size cfg + 50.
Proof.
  intros Hcs H0 H1. unfold chunk_end.
  destruct (Z.ltb_spec (s + chunk_size cfg) (len text)) as [Hlt|Hge]; [|lia].
  pose proof (find_natural_break_upper text s (s + chunk_size cfg)
                H0 ltac:(lia) Hlt) as Hup.
  destruct (window_bounds text s (s + chunk_size cfg) H0 ltac:(lia) Hlt)
    as [_ [Hw50 _]].
  lia.
Qed.

Section Sizes.

Variables (cfg : config) (t name : str).
Hypothesis positive_size : 1 <= chunk_size cfg.

Definition sized (c : chunk) : Prop :=
  0 <= start_char c /\ start_char c < end_char c /\ end_char c <= len t
  /\ end_char c - start_char c <= chunk_size cfg + 50
  /\ min_chunk_size cfg <= chunk_char_count c
  /\ chunk_char_count c <= end_char c - start_char c.

Lemma sized_step (st : loop_state) :
  0 <= start st /\ Forall sized (chunks st) ->
  loop_cond t st = true ->
  0 <= start (loop_body cfg t name st)
  /\ Forall sized (chunks (loop_body cfg t name st)).
Proof.
  intros [H0 Hall] Hcond.
  unfold loop_cond in Hcond. apply andb_true_iff in Hcond as [H1 _].
  apply Z.ltb_lt in H1.
  destruct (chunk_end_range cfg t (start st) positive_size H0 H1) as [He1 [He2 _]].
  pose proof (chunk_end_upper cfg t (start st) positive_size H0 H1) as He3.
  pose proof (next_start_advances cfg t (start st) positive_size H0 H1) as Hadv.
  split; [cbn [loop_body start]; lia|].
  cbn [loop_body chunks].
  destruct (Z.leb_spec (min_chunk_size cfg)
              (len (strip (slice t (start st) (chunk_end cfg t (start st))))))
    as [Hemit|_]; [|exact Hall].
  apply Forall_app. split; [exact Hall|]. constructor; [|constructor].
  unfold sized. cbn.
  pose proof (CleanTextWords.len_strip (slice t (start st) (chunk_end cfg t (start st)))) as Hs.
  rewrite len_slice in Hs by lia. lia.
Qed.

End Sizes.

(** X8. When the loop runs, every chunk starts inside the cleaned text,
    spans at most [chunk_size + 50] positions of it, and holds between
    [min_chunk_size] and [chunk_size + 50] characters. *)
Theorem chunk_sizes_are_bounded (cfg : config) (text name : str) :
  1 <= chunk_size cfg ->
  min_chunk_size cfg <= len (_clean_text text) ->
  forall c, In c (create_text_chunks cfg text name) ->
    0 <= start_char c /\ start_char c < end_char c
    /\ end_char c <= len (_clean_text text)
    /\ end_char c - start_char c <= chunk_size cfg + 50
    /\ min_chunk_size cfg <= chunk_char_count c
    /\ chunk_char_count c <= chunk_size cfg + 50.
Proof.
  intros Hcs Hlen.
  assert (H : Forall (sized cfg (_clean_text text)) (create_text_chunks cfg text name)).
  { apply (create_text_chunks_ind (Forall (sized cfg (_clean_text text)))).
    - intros Hshort. lia.
    - intros _ k Hrun.
      apply (loop_invariant
               (fun st => 0 <= start st
                          /\ Forall (sized cfg (_clean_text text)) (chunks st))
               cfg (_clean_text text) name); try assumption.
      + split; [simpl; lia | constructor].
      + intros st Hst Hcond. apply sized_step; assumption. }
  intros c Hc. rewrite List.Forall_forall in H.
  destruct (H c Hc) as [H1 [H2 [H3 [H4 [H5 H6]]]]]. repeat split; lia.
Qed.

Lemma chunk_sizes_are_bounded_witness :
  forallb (fun c => (100 <=? chunk_char_count c) && (chunk_char_count c <=? 1050))
    (create_text_chunks init_config long_word []) = true.
Proof.
  apply forallb_forall. intros c Hc.
  destruct (chunk_sizes_are_bounded init_config long_word []
              ltac:(vm_compute; discriminate) ltac:(vm_compute; discriminate) c Hc)
    as [_ [_ [_ [_ [H5 H6]]]]].
  change (min_chunk_size init_config) with 100 in H5.
  change (chunk_size init_config + 50) with 1050 in H6.
  apply andb_true_iff. split; apply Z.leb_le; assumption.
Defined.

(** *** Overlap of consecutive chunks *)

Lemma loop_body_emits (cfg : config) (t name : str) (st : loop_state) :
  min_chunk_size cfg
  <= len (strip (slice t (start st) (chunk_end cfg t (start st)))) ->
  exists c, chunks (loop_body cfg t name st) = chunks st ++ [c]
            /\ start_char c = start st
            /\ end_char c = chunk_end cfg t (start st).
Proof.
  intros Hemit. cbn [loop_body chunks].
  destruct (Z.leb_spec (min_chunk_size cfg)
              (len (strip (slice t (start st) (chunk_end cfg t (start st))))));
    [|lia].
  eexists. split; [reflexivity|]. split; reflexivity.
Qed.

Lemma next_start_plain (cfg : config) (t : str) (s e : Z) :
  0 <= s -> 1 <= chunk_overlap cfg -> s < e - chunk_overlap cfg ->
  next_start cfg t s e = e - chunk_overlap cfg.
Proof.
  intros H0 Hov Hlt. unfold next_start.
  repeat match goal with
         | |- context [Z.ltb ?a ?b] => destruct (Z.ltb_spec a b)
         | |- context [Z.leb ?a ?b] => destruct (Z.leb_spec a b)
         end; simpl; lia.
Qed.

Section Overlap.

Variables (cfg : config) (t name : str).
Hypothesis well : well_sized cfg.
Hypothesis min_positive : 1 <= min_chunk_size cfg.
Hypothesis min_below_overlap : min_chunk_size cfg < chunk_overlap cfg.
Hypothesis overlap_half : 2 * chunk_overlap cfg <= chunk_size cfg.
Hypothesis clean : normalized t.
Hypothesis long_enough : min_chunk_size cfg <= len t.

(** Each chunk starts [chunk_overlap] positions before the end of the
    chunk before it. *)
Definition consecutive (cs : list chunk) : Prop :=
  forall i c c',
    nth_error cs i = Some c -> nth_error cs (S i) = Some c' ->
    start_char c' = end_char c - chunk_overlap cfg
    /\ start_char c < start_char c'
    /\ end_char c <= end_char c'.

(** How the list of chunks ends once the loop has passed the end of the
    text. *)
Definition finished (cs : list chunk) : Prop :=
  (len t <= chunk_overlap cfg
   /\ exists c, cs = [c] /\ start_char c = 0 /\ end_char c = len t)
  \/ (chunk_overlap cfg < len t
      /\ exists cs' c1 c2,
           cs = cs' ++ [c1; c2]
           /\ end_char c1 = len t
           /\ start_char c1 < start_char c2
           /\ start_char c2 = len t - chunk_overlap cfg
           /\ end_char c2 = len t).

Inductive phase (st : loop_state) : Prop :=
| Fresh :
    chunks st = [] -> start st = 0 -> iteration_count st = 0 -> phase st
| Running (cs' : list chunk) (c : chunk) :
    chunks st = cs' ++ [c] -> end_char c < len t ->
    start st = end_char c - chunk_overlap cfg ->
    start_char c < start st -> 0 <= start_char c ->
    100 * iteration_count st <= start st -> phase st
| Tail (cs' : list chunk) (c : chunk) :
    chunks st = cs' ++ [c] -> end_char c = len t ->
    start st = len t - chunk_overlap cfg ->
    start_char c < start st -> 0 <= start_char c ->
    100 * iteration_count st <= len t + 100 -> phase st
| Done :
    len t <= start st -> finished (chunks st) -> phase st.

Lemma consecutive_snoc (cs' : list chunk) (c c' : chunk) :
  consecutive (cs' ++ [c]) ->
  start_char c' = end_char c - chunk_overlap cfg ->
  start_char c < start_char c' -> end_char c <= end_char c' ->
  consecutive ((cs' ++ [c]) ++ [c']).
Proof.
  intros Hcons H1 H2 H3 i a b Ha Hb.
  assert (Hlen : (S i < List.length ((cs' ++ [c]) ++ [c']))%nat)
    by (apply nth_error_Some; rewrite Hb; discriminate).
  rewrite !length_app in Hlen. simpl in Hlen.
  destruct (Nat.eq_dec (S i) (List.length cs' + 1)%nat) as [E|Hne].
  - assert (Ea : a = c).
    { rewrite nth_error_app1 in Ha by (rewrite length_app; simpl; lia).
      rewrite nth_error_app2 in Ha by lia.
      replace (i - List.length cs')%nat with 0%nat in Ha by lia.
      simpl in Ha. congruence. }
    assert (Eb : b = c').
    { rewrite nth_error_app2 in Hb by (rewrite length_app; simpl; lia).
      rewrite length_app in Hb. simpl in Hb.
      replace (S i - (List.length cs' + 1))%nat with 0%nat in Hb by lia.
      simpl in Hb. congruence. }
    subst. auto.
  - rewrite nth_error_app1 in Ha by (rewrite length_app; simpl; lia).
    rewrite nth_error_app1 in Hb by (rewrite length_app; simpl; lia).
    apply (Hcons i a b Ha Hb).
Qed.

Lemma consecutive_single (c : chunk) : consecutive [c].
Proof.
  intros i a b Ha Hb. destruct i as [|[|i]]; discriminate.
Qed.

Lemma overlap_step (st : loop_state) :
  consecutive (chunks st) /\ phase st ->
  loop_cond t st = true ->
  consecutive (chunks (loop_body cfg t name st)) /\ phase (loop_body cfg t name st).
Proof.
  intros [Hcons Hph] Hcond.
  unfold loop_cond in Hcond. apply andb_true_iff in Hcond as [H1 _].
  apply Z.ltb_lt in H1.
  destruct well as [Hcs [Hov [Hmo [Hmw How]]]].
  destruct clean as [Hss [Hsc Hec]].
  destruct (half_bounds (chunk_size cfg) Hcs) as [Hh1 Hh2].
  assert (Hhalf : chunk_overlap cfg <= chunk_size cfg / 2)
    by (apply Z.div_le_lower_bound; lia).
  set (w := Z.min 50 (chunk_size cfg / 2)) in *.
  assert (H0 : 0 <= start st) by (destruct Hph; lia).
  destruct (chunk_end_range cfg t (start st) Hcs H0 H1) as [He1 [He2 [He3 He4]]].
  cbv zeta in He3. fold w in He3.
  remember (chunk_end cfg t (start st)) as e eqn:Ee in *.
  assert (Hiter : iteration_count (loop_body cfg t name st) = iteration_count st + 1)
    by reflexivity.
  assert (Hstart : start (loop_body cfg t name st) = next_start cfg t (start st) e)
    by (cbn [loop_body start]; rewrite <- Ee; reflexivity).
  destruct (Z.lt_ge_cases (start st + chunk_size cfg) (len t)) as [Hlt|Hge].
  - (* an inner chunk *)
    destruct (He3 Hlt) as [Hlow [_ [Hend _]]]. specialize (Hend Hec).
    assert (Hemit : min_chunk_size cfg <= len (strip (slice t (start st) e))).
    { pose proof (strip_len_single (slice t (start st) e)
                    (single_spaced_slice t (start st) e Hss H0 ltac:(lia) He2)) as Hs.
      rewrite len_slice in Hs by lia. lia. }
    rewrite Ee in Hemit.
    destruct (loop_body_emits cfg t name st Hemit) as [c' [Hch [Hsc' Hec']]].
    rewrite <- Ee in Hec'.
    rewrite (next_start_plain cfg t (start st) e H0 ltac:(lia) ltac:(lia)) in Hstart.
    split.
    + rewrite Hch. destruct Hph as [Hnil _ _|cs' c Hcs' _ Hst Hsc0 _ _
                                    |cs' c Hcs' _ Hst Hsc0 _ _|Hdone _]; [| | |lia].
      * rewrite Hnil. apply consecutive_single.
      * rewrite Hcs' in Hcons |- *. apply consecutive_snoc; try assumption; lia.
      * rewrite Hcs' in Hcons |- *. apply consecutive_snoc; try assumption; lia.
    + apply (Running _ (chunks st) c'); try assumption; try lia.
      rewrite Hiter, Hstart. destruct Hph; lia.
  - (* a chunk that reaches the end of the text *)
    specialize (He4 Hge). rewrite He4 in *.
    destruct Hph as [Hnil Hst0 Hit|cs' c Hcs' Hend Hst Hsc0 Hc0 Hit
                     |cs' c Hcs' Hend Hst Hsc0 Hc0 Hit|Hdone _]; [| | |lia].
    + (* the first chunk *)
      assert (Hemit : min_chunk_size cfg <= len (strip (slice t (start st) (len t)))).
      { rewrite Hst0, slice_to_end by lia. simpl.
        rewrite strip_id by assumption. exact long_enough. }
      rewrite Ee in Hemit.
      destruct (loop_body_emits cfg t name st Hemit) as [c' [Hch [Hsc' Hec']]].
      rewrite <- Ee in Hec'. rewrite Hnil in Hch.
      change ([] ++ [c']) with [c'] in Hch.
      split; [rewrite Hch; apply consecutive_single|].
      destruct (Z.lt_ge_cases (start st) (len t - chunk_overlap cfg)) as [Hfar|Hnear].
      * rewrite (next_start_plain cfg t (start st) (len t) H0 ltac:(lia) Hfar)
          in Hstart.
        apply (Tail _ [] c'); try assumption; try lia.
      * assert (Hf : next_start cfg t (start st) (len t)
                     = start st + Z.max 1 (chunk_size cfg / 2)).
        { rewrite Ee. apply next_start_forced; try assumption. rewrite <- Ee. lia. }
        rewrite Hf in Hstart.
        apply Done; [lia|]. left. split; [lia|].
        exists c'. split; [exact Hch|]. split; lia.
    + (* a later chunk *)
      assert (Hemit : min_chunk_size cfg <= len (strip (slice t (start st) (len t)))).
      { pose proof (strip_len_single_end (slice t (start st) (len t))
                      (single_spaced_slice t (start st) (len t) Hss H0
                         ltac:(lia) ltac:(lia))
                      (ends_clean_slice_to_end t _ Hec H0 H1)) as Hs.
        rewrite len_slice in Hs by lia. lia. }
      rewrite Ee in Hemit.
      destruct (loop_body_emits cfg t name st Hemit) as [c' [Hch [Hsc' Hec']]].
      rewrite <- Ee in Hec'.
      rewrite (next_start_plain cfg t (start st) (len t) H0 ltac:(lia) ltac:(lia))
        in Hstart.
      split.
      * rewrite Hch. rewrite Hcs' in Hcons |- *.
        apply consecutive_snoc; try assumption; lia.
      * apply (Tail _ (chunks st) c'); try assumption; try lia.
    + (* the chunk of the last positions *)
      assert (Hemit : min_chunk_size cfg <= len (strip (slice t (start st) (len t)))).
      { pose proof (strip_len_single_end (slice t (start st) (len t))
                      (single_spaced_slice t (start st) (len t) Hss H0
                         ltac:(lia) ltac:(lia))
                      (ends_clean_slice_to_end t _ Hec H0 H1)) as Hs.
        rewrite len_slice in Hs by lia. lia. }
      rewrite Ee in Hemit.
      destruct (loop_body_emits cfg t name st Hemit) as [c' [Hch [Hsc' Hec']]].
      rewrite <- Ee in Hec'.
      assert (Hf : next_start cfg t (start st) (len t)
                   = start st + Z.max 1 (chunk_size cfg / 2)).
      { rewrite Ee. apply next_start_forced; try assumption. rewrite <- Ee. lia. }
      rewrite Hf in Hstart.
      split.
      * rewrite Hch. rewrite Hcs' in Hcons |- *.
        apply consecutive_snoc; try assumption; lia.
      * apply Done; [lia|]. right. split; [lia|].
        exists cs', c, c'. rewrite Hch, Hcs', <- app_assoc. simpl.
        split; [reflexivity|]. repeat split; lia.
Qed.

Lemma overlap_init : consecutive (chunks init_state) /\ phase init_state.
Proof.
  split.
  - intros i a b Ha. destruct i; discriminate.
  - apply Fresh; reflexivity.
Qed.

(** When the loop leaves, it has passed the end of the text. *)
Lemma overlap_exit (st : loop_state) :
  phase st -> loop_cond t st = false -> finished (chunks st).
Proof.
  intros Hph Hcond.
  destruct well as [Hcs [Hov _]].
  assert (Hmax : forall n, 100 * n <= len t + 100 -> n < max_iterations t).
  { intros n Hn. unfold max_iterations.
    pose proof (Z.div_mod (len t) 100 ltac:(lia)).
    pose proof (Z.mod_pos_bound (len t) 100 ltac:(lia)). lia. }
  unfold loop_cond in Hcond.
  destruct Hph as [Hnil Hst0 Hit|cs' c Hcs' Hend Hst Hsc0 Hc0 Hit
                   |cs' c Hcs' Hend Hst Hsc0 Hc0 Hit|Hdone Hfin];
    [exfalso | exfalso | exfalso | exact Hfin].
  all: apply andb_false_iff in Hcond as [Hc|Hc]; apply Z.ltb_ge in Hc;
    [lia | specialize (Hmax (iteration_count st)); lia].
Qed.

End Overlap.

Lemma init_config_overlap :
  well_sized init_config
  /\ 1 <= min_chunk_size init_config
  /\ min_chunk_size init_config < chunk_overlap init_config
  /\ 2 * chunk_overlap init_config <= chunk_size init_config.
Proof.
  split; [exact init_config_well_sized|].
  repeat split; vm_compute; congruence.
Qed.

(** With the sizes that [__init__] sets, at least one chunk is made of
    every text. *)
Lemma create_text_chunks_not_empty (text name : str) :
  create_text_chunks init_config text name <> [].
Proof.
  destruct init_config_overlap as [Hw [Hm [Hmo Hoh]]].
  set (t := _clean_text text).
  destruct (Z.lt_ge_cases (len t) (min_chunk_size init_config)) as [Hlt|Hlen].
  - rewrite create_text_chunks_short by exact Hlt. discriminate.
  - destruct (create_text_chunks_exit init_config text name Hlen)
      as [k [_ [Hrun [Hex [-> _]]]]]. fold t in Hrun, Hex |- *.
    assert (Hinv : consecutive init_config
                     (chunks (Nat.iter k (loop_body init_config t name) init_state))
                   /\ phase init_config t
                        (Nat.iter k (loop_body init_config t name) init_state)).
    { apply (loop_invariant
               (fun st => consecutive init_config (chunks st) /\ phase init_config t st)
               init_config t name); try assumption.
      + apply overlap_init.
      + intros st Hst Hcond. apply overlap_step; try assumption.
        apply clean_text_normalized. }
    assert (Hend : finished init_config t
                     (chunks (Nat.iter k (loop_body init_config t name) init_state)))
      by (eapply overlap_exit; [.. | exact (proj2 Hinv) | exact Hex]; assumption).
    destruct Hend as [[_ [c [-> _]]]|[_ [cs [c1 [c2 [-> _]]]]]].
    + discriminate.
    + destruct cs; discriminate.
Qed.

(** X9. With the sizes that [__init__] sets, each chunk after the first
    starts exactly 200 positions of the cleaned text before the end of
    the chunk before it, and later than that chunk starts. *)
Theorem consecutive_chunks_overlap (text name : str) :
  forall i c c',
    nth_error (create_text_chunks init_config text name) i = Some c ->
    nth_error (create_text_chunks init_config text name) (S i) = Some c' ->
    start_char c' = end_char c - 200
    /\ start_char c < start_char c'
    /\ end_char c <= end_char c'.
Proof.
  destruct init_config_overlap as [Hw [Hm [Hmo Hoh]]].
  apply (create_text_chunks_ind (consecutive init_config)).
  - intros _. apply consecutive_single.
  - intros Hlen k Hrun.
    apply (loop_invariant
             (fun st => consecutive init_config (chunks st)
                        /\ phase init_config (_clean_text text) st)
             init_config (_clean_text text) name); try assumption.
    + apply overlap_init.
    + intros st Hst Hcond. apply overlap_step; try assumption.
      apply clean_text_normalized.
Qed.

Lemma consecutive_chunks_overlap_witness :
  exists c c',
    nth_error (create_text_chunks init_config long_word []) 1 = Some c
    /\ nth_error (create_text_chunks init_config long_word []) 2 = Some c'
    /\ start_char c' = end_char c - 200
    /\ start_char c < start_char c'
    /\ end_char c <= end_char c'.
Proof.
  assert (H : exists c c',
             nth_error (create_text_chunks init_config long_word []) 1 = Some c
             /\ nth_error (create_text_chunks init_config long_word []) 2 = Some c')
    by (vm_compute; eexists; eexists; split; reflexivity).
  destruct H as [c [c' [H1 H2]]]. exists c, c'.
  split; [exact H1|]. split; [exact H2|].
  exact (consecutive_chunks_overlap long_word [] 1%nat c c' H1 H2).
Defined.

(** X10. With the sizes that [__init__] sets, a cleaned text of more than
    200 characters yields a last chunk that spans exactly its last 200
    positions, after a chunk that also reaches the end of the text: the
    last chunk repeats the end of the chunk before it. *)
Theorem last_chunk_repeats_the_tail (text name : str) :
  let t := _clean_text text in
  200 < len t ->
  exists cs c1 c2,
    create_text_chunks init_config text name = cs ++ [c1; c2]
    /\ end_char c1 = len t
    /\ start_char c1 < start_char c2
    /\ start_char c2 = len t - 200
    /\ end_char c2 = len t.
Proof.
  intros t Hlong.
  destruct init_config_overlap as [Hw [Hm [Hmo Hoh]]].
  assert (Hlen : min_chunk_size init_config <= len t)
    by (change (min_chunk_size init_config) with 100; lia).
  destruct (create_text_chunks_exit init_config text name Hlen)
    as [k [_ [Hrun [Hex [-> _]]]]]. fold t in Hrun, Hex |- *.
  assert (Hinv : consecutive init_config
                   (chunks (Nat.iter k (loop_body init_config t name) init_state))
                 /\ phase init_config t
                      (Nat.iter k (loop_body init_config t name) init_state)).
  { apply (loop_invariant
             (fun st => consecutive init_config (chunks st) /\ phase init_config t st)
             init_config t name); try assumption.
    + apply overlap_init.
    + intros st Hst Hcond. apply overlap_step; try assumption.
      apply clean_text_normalized. }
  assert (Hend : finished init_config t
                   (chunks (Nat.iter k (loop_body init_config t name) init_state)))
    by (eapply overlap_exit; [.. | exact (proj2 Hinv) | exact Hex]; assumption).
  destruct Hend as [[Hshort _]|[_ Hfin]].
  - change (chunk_overlap init_config) with 200 in Hshort. lia.
  - exact Hfin.
Qed.

Lemma last_chunk_repeats_the_tail_witness :
  200 < len (_clean_text long_word)
  /\ map (fun c => (start_char c, end_char c))
       (create_text_chunks init_config long_word [])
     = [(0, 1000); (800, 1800); (1600, 2500); (2300, 2500)]
  /\ exists cs c1 c2,
       create_text_chunks init_config long_word [] = cs ++ [c1; c2]
       /\ end_char c1 = len (_clean_text long_word)
       /\ start_char c1 < start_char c2
       /\ start_char c2 = len (_clean_text long_word) - 200
       /\ end_char c2 = len (_clean_text long_word).
Proof.
  assert (H : 200 < len (_clean_text long_word))
    by (vm_compute; reflexivity).
  split; [exact H|]. split; [vm_compute; reflexivity|].
  apply (last_chunk_repeats_the_tail long_word [] H).
Defined.

End ChunkFacts.

(** ** More on [extract_text_from_pdf] *)

Module ExtractionTotals.
Import PyStr PyStrFacts Chunker ChunkerFacts.

Definition total (f : page_info -> Z) (infos : list page_info) : Z :=
  fold_right (fun info acc => f info + acc) 0 infos.

Lemma total_app (f : page_info -> Z) (a b : list page_info) :
  total f (a ++ b) = total f a + total f b.
Proof. induction a as [|x a IH]; simpl; [reflexivity | rewrite IH; lia]. Qed.

Lemma total_snoc (f : page_info -> Z) (a : list page_info) (x : page_info) :
  total f (a ++ [x]) = total f a + f x.
Proof. rewrite total_app. simpl. lia. Qed.

Definition extracted (infos : list page_info) : Z :=
  total (fun info => match page_error info with None => 1 | Some _ => 0 end) infos.

Lemma extracted_snoc (a : list page_info) (x : page_info) :
  extracted (a ++ [x])
  = extracted a + match page_error x with None => 1 | Some _ => 0 end.
Proof. apply total_snoc. Qed.

Lemma count_words_sep (a b : str) :
  forall in_word, count_words in_word (a ++ NL :: b)
                  = count_words in_word a + count_words false b.
Proof.
  induction a as [|c a IH]; intros in_word; simpl.
  - reflexivity.
  - destruct (is_space c); rewrite IH; lia.
Qed.

(** The text collected so far is empty or ends with a newline. *)
Definition closed (t : str) : Prop := t = [] \/ exists t0, t = t0 ++ [NL].

Lemma word_count_closed_app (t p : str) :
  closed t -> PyStr.word_count (t ++ p) = PyStr.word_count t + PyStr.word_count p.
Proof.
  unfold PyStr.word_count. intros [->|[t0 ->]]; [reflexivity|].
  rewrite <- app_assoc. simpl. rewrite !count_words_sep. simpl. lia.
Qed.

Lemma extract_pages_totals (ps : list page_outcome) :
  forall (n : Z) (t : str) (infos : list page_info),
    closed t ->
    let r := extract_pages n ps (t, infos) in
    closed (fst r)
    /\ len (fst r) - len t
       = total char_count (snd r) - total char_count infos
         + 2 * (extracted (snd r) - extracted infos)
    /\ PyStr.word_count (fst r) - PyStr.word_count t
       = total Chunker.word_count (snd r) - total Chunker.word_count infos.
Proof.
  induction ps as [|page ps IH]; intros n t infos Hc; cbn [extract_pages].
  - cbv zeta. simpl. split; [exact Hc|]. lia.
  - destruct page as [page_text|e]; cbn [extract_page].
    + assert (Hc' : closed (t ++ page_text ++ [NL; NL])).
      { right. exists (t ++ page_text ++ [NL]). rewrite <- !app_assoc. reflexivity. }
      match goal with
      | |- context [infos ++ [?x]] => set (info := x)
      end.
      specialize (IH (n + 1) _ (infos ++ [info]) Hc').
      cbv zeta in IH |- *. destruct IH as [H1 [H2 H3]]. split; [exact H1|].
      rewrite extracted_snoc, (total_snoc char_count) in H2.
      rewrite (total_snoc Chunker.word_count) in H3.
      change (page_error info) with (@None str) in H2. cbv beta iota in H2.
      change (char_count info) with (len page_text) in H2.
      replace (Chunker.word_count info) with (PyStr.word_count page_text) in H3
        by (subst info; destruct page_text; reflexivity).
      rewrite !len_app in H2. change (len [NL; NL]) with 2 in H2.
      rewrite (word_count_closed_app t _ Hc) in H3.
      assert (Hw : PyStr.word_count (page_text ++ [NL; NL]) = PyStr.word_count page_text).
      { unfold PyStr.word_count. rewrite count_words_sep. simpl. lia. }
      rewrite Hw in H3. split; lia.
    + match goal with
      | |- context [infos ++ [?x]] => set (info := x)
      end.
      specialize (IH (n + 1) t (infos ++ [info]) Hc).
      cbv zeta in IH |- *. destruct IH as [H1 [H2 H3]]. split; [exact H1|].
      rewrite extracted_snoc, (total_snoc char_count) in H2.
      rewrite (total_snoc Chunker.word_count) in H3.
      change (page_error info) with (Some e) in H2. cbv beta iota in H2.
      change (char_count info) with 0 in H2.
      change (Chunker.word_count info) with 0 in H3.
      split; lia.
Qed.

(** X11. The totals of an extraction agree with its page records: the
    character total is the characters of the pages plus the two
    newlines added after each page that gave text, the word total is
    the words of the pages, and the full text is no longer than the
    character total says. *)
Theorem extraction_totals_agree_with_the_pages (ps : list page_outcome) :
  let r := extract_text_from_pdf (Readable ps) in
  total_chars r = total char_count (pages r) + 2 * extracted (pages r)
  /\ total_words r = total Chunker.word_count (pages r)
  /\ len (full_text r) <= total_chars r.
Proof.
  cbv zeta. unfold extract_text_from_pdf.
  pose proof (extract_pages_totals ps 0 [] [] (or_introl eq_refl)) as H.
  cbv zeta in H. destruct (extract_pages 0 ps ([], [])) as [t infos].
  cbn [fst snd] in H. destruct H as [_ [H2 H3]].
  cbn [total_chars total_words pages full_text].
  change (len []) with 0 in H2. change (PyStr.word_count []) with 0 in H3.
  change (extracted []) with 0 in H2.
  change (total char_count []) with 0 in H2.
  change (total Chunker.word_count []) with 0 in H3.
  assert (Hw : match t with [] => 0 | _ :: _ => PyStr.word_count t end
               = PyStr.word_count t) by (destruct t; reflexivity).
  rewrite Hw. pose proof (CleanTextWords.len_strip t). repeat split; lia.
Qed.

End ExtractionTotals.

(** ** Reading contract values *)

Module NumberFacts.
Import PyStr Tables.

Definition all_digits (s : str) : Prop := Forall (fun c => Json.is_digit c = true) s.
Definition no_digit (s : str) : Prop := Forall (fun c => Json.is_digit c = false) s.

Lemma span_digits_app (ds rest : str) :
  all_digits ds ->
  match rest with [] => True | c :: _ => Json.is_digit c = false end ->
  Json.span_digits (ds ++ rest) = (ds, rest).
Proof.
  intros Hd Hr. induction Hd as [|c ds Hc Hds IH]; cbn [app Json.span_digits].
  - destruct rest as [|c rest]; [reflexivity|].
    cbn [Json.span_digits]. rewrite Hr. reflexivity.
  - rewrite Hc, IH. reflexivity.
Qed.

Lemma commas_to_points_app (a b : str) :
  commas_to_points (a ++ b) = commas_to_points a ++ commas_to_points b.
Proof. apply map_app. Qed.

Lemma commas_to_points_digits (ds : str) :
  all_digits ds -> commas_to_points ds = ds.
Proof.
  intros H. induction H as [|c ds Hc Hds IH]; simpl; [reflexivity|].
  rewrite IH. f_equal. destruct (Ascii.eqb_spec c ","%char) as [->|]; [|reflexivity].
  discriminate Hc.
Qed.

Lemma commas_to_points_no_digit (s : str) :
  no_digit s -> no_digit (commas_to_points s).
Proof.
  intros H. induction H as [|c s Hc Hs IH]; simpl; constructor; [|exact IH].
  destruct (Ascii.eqb c ","%char); [reflexivity | exact Hc].
Qed.

Lemma first_number_lexeme_skip (pre s : str) :
  no_digit pre -> first_number_lexeme (pre ++ s) = first_number_lexeme s.
Proof.
  intros H. induction H as [|c pre Hc Hpre IH]; cbn [app first_number_lexeme];
    [reflexivity|].
  rewrite Hc. exact IH.
Qed.

(** X12. The number read from a text is the first run of digits, with the
    digits after one following point or comma as its fraction; what
    stands before the first digit is ignored, and so is everything
    after the fraction. *)
Theorem first_number_reads_the_first_digits
  (pre int_digits frac_digits rest : str) (sep : ascii) :
  no_digit pre -> all_digits int_digits -> int_digits <> [] ->
  all_digits frac_digits ->
  match rest with [] => True | c :: _ => Json.is_digit c = false end ->
  sep = ","%char \/ sep = "."%char ->
  first_number (pre ++ int_digits ++ [sep] ++ frac_digits ++ rest)
  = Some (lexeme_value int_digits frac_digits).
Proof.
  intros Hpre Hi Hne Hf Hrest Hsep. unfold first_number.
  rewrite !commas_to_points_app.
  rewrite (commas_to_points_digits _ Hi), (commas_to_points_digits _ Hf).
  rewrite first_number_lexeme_skip by (apply commas_to_points_no_digit, Hpre).
  assert (Es : commas_to_points [sep] = ["."%char])
    by (destruct Hsep as [-> | ->]; reflexivity).
  rewrite Es.
  assert (Hrest' : match commas_to_points rest with
                   | [] => True | c :: _ => Json.is_digit c = false end).
  { destruct rest as [|c rest]; simpl; [exact I|].
    destruct (Ascii.eqb c ","%char); [reflexivity | exact Hrest]. }
  destruct int_digits as [|d ds]; [contradiction|].
  inversion Hi as [|? ? Hd Hds]; subst.
  change ((d :: ds) ++ ["."%char] ++ frac_digits ++ commas_to_points rest)
    with (d :: (ds ++ "."%char :: frac_digits ++ commas_to_points rest)).
  cbn [first_number_lexeme]. rewrite Hd.
  pose proof (span_digits_app (d :: ds) ("."%char :: frac_digits ++ commas_to_points rest)
                Hi eq_refl) as Hspan.
  change ((d :: ds) ++ "."%char :: frac_digits ++ commas_to_points rest)
    with (d :: (ds ++ "."%char :: frac_digits ++ commas_to_points rest)) in Hspan.
  rewrite Hspan.
  rewrite (span_digits_app frac_digits (commas_to_points rest) Hf Hrest').
  reflexivity.
Qed.

(** An amount written with a point for the thousands and a comma for
    the cents is read up to the comma only: 1.234,56 gives 1.234. *)
Lemma first_number_reads_the_first_digits_witness :
  first_number (lit "R$ 1.234,56")
  = Some (lexeme_value (lit "1") (lit "234"))
  /\ (lexeme_value (lit "1") (lit "234") == 1234 # 1000)%Q.
Proof.
  split; [|vm_compute; reflexivity].
  apply (first_number_reads_the_first_digits (lit "R$ ") (lit "1") (lit "234")
           (lit ",56") "."%char).
  - repeat constructor.
  - repeat constructor.
  - discriminate.
  - repeat constructor.
  - reflexivity.
  - right. reflexivity.
Defined.

End NumberFacts.

Module ValueFacts.
Import PyStr Tables.

Lemma digits_value_from (ds : str) :
  forall acc, 0 <= acc ->
    Forall (fun c => Json.is_digit c = true) ds ->
    0 <= fold_left (fun a c => 10 * a + (Z.of_nat (nat_of_ascii c) - 48)) ds acc.
Proof.
  induction ds as [|c ds IH]; intros acc Hacc Hd; simpl; [exact Hacc|].
  inversion Hd as [|? ? Hc Hds]; subst. apply IH; [|exact Hds].
  unfold Json.is_digit in Hc. apply andb_true_iff in Hc as [Hc _].
  apply Nat.leb_le in Hc. lia.
Qed.

Lemma span_digits_digits (s : str) :
  Forall (fun c => Json.is_digit c = true) (fst (Json.span_digits s)).
Proof.
  induction s as [|c s IH]; simpl; [constructor|].
  destruct (Json.is_digit c) eqn:E; [|constructor].
  destruct (Json.span_digits s) as [ds r]. simpl in *. constructor; assumption.
Qed.

Lemma digits_value_nonneg (s : str) :
  0 <= Json.digits_value (fst (Json.span_digits s)).
Proof.
  unfold Json.digits_value. apply digits_value_from; [lia|apply span_digits_digits].
Qed.

Lemma first_number_lexeme_digits (s : str) :
  forall i f, first_number_lexeme s = Some (i, f) ->
    0 <= Json.digits_value i /\ 0 <= Json.digits_value f.
Proof.
  induction s as [|c s IH]; intros i f H; simpl in H; [discriminate|].
  destruct (Json.is_digit c) eqn:E.
  - pose proof (digits_value_nonneg (c :: s)) as Hi. simpl in Hi. rewrite E in Hi.
    destruct (Json.span_digits s) as [ds r]. simpl in Hi.
    destruct r as [|d r'].
    + injection H as <- <-. split; [exact Hi | vm_compute; discriminate].
    + destruct (Ascii.eqb_spec d "."%char) as [->|Hne].
      * injection H as <- <-. split; [exact Hi | apply digits_value_nonneg].
      * assert (H' : Some (c :: ds, []) = Some (i, f)).
        { destruct d as [[] [] [] [] [] [] [] []]; try exact H.
          exfalso. apply Hne. reflexivity. }
        injection H' as <- <-. split; [exact Hi | vm_compute; discriminate].
  - apply IH. exact H.
Qed.

Lemma lexeme_value_nonneg (i f : str) :
  0 <= Json.digits_value i -> 0 <= Json.digits_value f ->
  (0 <= lexeme_value i f)%Q.
Proof.
  intros Hi Hf. unfold lexeme_value.
  assert (Hp : 0 < 10 ^ Z.of_nat (List.length f)) by (apply Z.pow_pos_nonneg; lia).
  apply Qle_trans with (inject_Z (Json.digits_value i) + 0)%Q.
  - rewrite Qplus_0_r. change 0%Q with (inject_Z 0). rewrite <- Zle_Qle. exact Hi.
  - apply Qplus_le_compat; [apply Qle_refl|].
    apply Qle_shift_div_l.
    + change 0%Q with (inject_Z 0). rewrite <- Zlt_Qlt. exact Hp.
    + rewrite Qmult_0_l. change 0%Q with (inject_Z 0). rewrite <- Zle_Qle. exact Hf.
Qed.

Lemma first_number_nonneg (value_str : str) (x : Q) :
  first_number value_str = Some x -> (0 <= x)%Q.
Proof.
  unfold first_number.
  destruct (first_number_lexeme (commas_to_points value_str)) as [[i f]|] eqn:E;
    [|discriminate].
  intros H. injection H as <-.
  destruct (first_number_lexeme_digits _ i f E) as [Hi Hf].
  apply lexeme_value_nonneg; assumption.
Qed.

Lemma total_from_nonneg (lib : pylib) (cols : list str) (value_rows : list (list cell)) :
  forall acc : Q, (0 <= acc)%Q ->
    (0 <= fold_left
            (fun total value_row =>
               match contract_value lib cols value_row with
               | Some value => (total + value)%Q
               | None => total
               end) value_rows acc)%Q.
Proof.
  induction value_rows as [|row value_rows IH]; intros acc Hacc; simpl; [exact Hacc|].
  apply IH. destruct (contract_value lib cols row) as [v|] eqn:E; [|exact Hacc].
  unfold contract_value in E. apply first_number_nonneg in E.
  apply Qle_trans with (0 + 0)%Q; [apply Qle_refl|].
  apply Qplus_le_compat; assumption.
Qed.

(** X13. The value read from a cell is never negative: the pattern has no
    sign, so a minus sign before the digits is dropped. The total
    contract value, a sum of such values, is never negative either. *)
Theorem contract_values_are_never_negative (lib : pylib) (values_df : dataframe) :
  (forall value_row x,
     contract_value lib (columns values_df) value_row = Some x -> (0 <= x)%Q)
  /\ (0 <= total_contract_value lib values_df)%Q.
Proof.
  split.
  - intros value_row x H. unfold contract_value in H.
    apply first_number_nonneg in H. exact H.
  - unfold total_contract_value. apply total_from_nonneg. apply Qle_refl.
Qed.

End ValueFacts.

(** ** More on [parse_ai_response] *)

Module AnswerFacts.
Import PyStr PyStrFacts Json Extractor ExtractorFacts.

(** *** Answers without brackets *)

Lemma split_aux_chars (sep s : str) :
  forall (skip : nat) (cur piece : str) (c : ascii),
    In piece (split_aux skip cur s sep) -> In c piece -> In c cur \/ In c s.
Proof.
  induction s as [|a s IH]; intros skip cur piece c Hp Hc; simpl in Hp.
  - destruct Hp as [<-|[]]. rewrite rev'_rev in Hc. apply in_rev in Hc. auto.
  - destruct skip as [|k].
    + destruct (startswith (a :: s) sep).
      * destruct Hp as [<-|Hp].
        -- rewrite rev'_rev in Hc. apply in_rev in Hc. auto.
        -- destruct (IH _ _ _ _ Hp Hc) as [[]|H]. right. right. exact H.
      * destruct (IH _ _ _ _ Hp Hc) as [[<-|H]|H]; [right; left; reflexivity|auto|].
        right. right. exact H.
    + destruct (IH _ _ _ _ Hp Hc) as [H|H]; [auto|]. right. right. exact H.
Qed.

Lemma split_chars (s sep piece : str) (c : ascii) :
  In piece (split s sep) -> In c piece -> In c s.
Proof.
  intros Hp Hc. destruct (split_aux_chars sep s 0 [] piece c Hp Hc) as [[]|H].
  exact H.
Qed.

Lemma remove_markdown_chars (response_text inner : str) (c : ascii) :
  remove_markdown response_text = Some inner -> In c inner -> In c response_text.
Proof.
  unfold remove_markdown. intros H Hc.
  destruct (contains response_text JSON_FENCE).
  - destruct (nth_error (split response_text JSON_FENCE) 1) as [x|] eqn:E1;
      [|discriminate].
    apply nth_error_In in E1. apply nth_error_In in H.
    apply (split_chars _ _ _ _ E1). apply (split_chars _ _ _ _ H Hc).
  - destruct (contains response_text FENCE).
    + destruct (nth_error (split response_text FENCE) 1) as [x|] eqn:E1;
        [|discriminate].
      apply nth_error_In in E1. apply nth_error_In in H.
      apply (split_chars _ _ _ _ E1). apply (split_chars _ _ _ _ H Hc).
    + injection H as <-. exact Hc.
Qed.

Lemma strip_chars (s : str) (c : ascii) : In c (strip s) -> In c s.
Proof.
  intros H. destruct (strip_split s) as [a [b [E _]]]. rewrite E.
  apply in_or_app. right. apply in_or_app. left. exact H.
Qed.

Lemma bracket_blocks_no_close (s : str) :
  ~ In "]"%char s -> forall cur, bracket_blocks cur s = [].
Proof.
  induction s as [|c s IH]; intros H cur; simpl; [reflexivity|].
  assert (Hs : ~ In "]"%char s) by (intros Hin; apply H; right; exact Hin).
  destruct cur as [acc|].
  - destruct (Ascii.eqb_spec c "]"%char) as [->|_].
    + exfalso. apply H. left. reflexivity.
    + apply IH, Hs.
  - destruct (Ascii.eqb c "["%char); apply IH, Hs.
Qed.

Lemma json_candidates_without_brackets (s : str) :
  ~ In "["%char s \/ ~ In "]"%char s -> json_candidates s = [].
Proof.
  intros H. unfold json_candidates, findall_bracket_blocks.
  change (lit "[") with ["["%char]. change (lit "]") with ["]"%char].
  destruct H as [H|H].
  - unfold find. rewrite (find_from_char_absent _ _ H). simpl.
    apply bracket_blocks_closed, H.
  - unfold rfind. rewrite (rfind_from_char_absent _ _ H).
    rewrite (bracket_blocks_no_close _ H).
    destruct (find s ["["%char]) as [|p|p] eqn:E; reflexivity.
Qed.

(** X14. An answer that holds no opening bracket, or no closing bracket,
    gives no rows, whatever the JSON decoder does: no candidate is
    found, so the decoder is not even called. *)
Theorem answer_without_brackets_gives_no_rows
  (json_loads : str -> loads_result) (response_text : str) :
  ~ In "["%char response_text \/ ~ In "]"%char response_text ->
  candidates_of response_text = []
  /\ parse_ai_response json_loads response_text = [].
Proof.
  intros H.
  assert (Hc : candidates_of response_text = []).
  { unfold candidates_of.
    destruct (remove_markdown response_text) as [inner|] eqn:E; [|reflexivity].
    apply json_candidates_without_brackets.
    destruct H as [H|H]; [left|right]; intros Hin; apply H;
      apply (remove_markdown_chars _ _ _ E), strip_chars, Hin. }
  split; [exact Hc|].
  rewrite parse_ai_response_candidates, Hc. reflexivity.
Qed.

Lemma answer_without_brackets_witness :
  parse_ai_response (fun _ => OtherException)
    (lit "Nenhum dado encontrado no documento.") = [].
Proof.
  apply (answer_without_brackets_gives_no_rows (fun _ => OtherException)
           (lit "Nenhum dado encontrado no documento.")).
  left. intros H. vm_compute in H.
  repeat (destruct H as [H|H]; [discriminate H|]). exact H.
Defined.

End AnswerFacts.

(** ** The frame that a write stores *)

Module FrameFacts.
Import PyStr PyStrFacts Tables Snapshot.

(** A frame as pandas builds it from records: no column label is
    repeated, and every row has one cell per column. *)
Definition well_formed (df : dataframe) : Prop :=
  List.NoDup (columns df)
  /\ Forall (fun row => List.length row = List.length (columns df)) (rows df).

Lemma position_absent (cols : list str) (label : str) :
  position cols label = None -> ~ In label cols.
Proof.
  induction cols as [|c cols IH]; simpl; [intros _ []|].
  destruct (bool_decide_reflect (c = label)) as [E|N]; [discriminate|].
  destruct (position cols label); [discriminate|].
  intros _ [E|H]; [contradiction | exact (IH eq_refl H)].
Qed.

Lemma position_bound (cols : list str) (label : str) (i : nat) :
  position cols label = Some i -> (i < List.length cols)%nat.
Proof.
  revert i. induction cols as [|c cols IH]; intros i; simpl; [discriminate|].
  destruct (bool_decide (c = label)).
  - intros H. injection H as <-. lia.
  - destruct (position cols label) as [j|]; [|discriminate].
    intros H. injection H as <-. specialize (IH j eq_refl). lia.
Qed.

Lemma position_app_found (cols : list str) (label other : str) (i : nat) :
  position cols label = Some i -> position (cols ++ [other]) label = Some i.
Proof.
  revert i. induction cols as [|c cols IH]; intros i; simpl; [discriminate|].
  destruct (bool_decide (c = label)); [auto|].
  destruct (position cols label) as [j|]; [|discriminate].
  intros H. injection H as <-. rewrite (IH j eq_refl). reflexivity.
Qed.

Lemma position_app_new (cols : list str) (label : str) :
  position cols label = None ->
  position (cols ++ [label]) label = Some (List.length cols).
Proof.
  induction cols as [|c cols IH]; simpl.
  - intros _. rewrite bool_decide_eq_true_2 by reflexivity. reflexivity.
  - destruct (bool_decide (c = label)); [discriminate|].
    destruct (position cols label); [discriminate|].
    intros _. rewrite IH by reflexivity. reflexivity.
Qed.

Lemma position_app_other (cols : list str) (label other : str) :
  other <> label -> position cols label = None ->
  position (cols ++ [other]) label = None.
Proof.
  intros Hne. induction cols as [|c cols IH]; simpl.
  - intros _. rewrite bool_decide_eq_false_2 by exact Hne. reflexivity.
  - destruct (bool_decide (c = label)); [discriminate|].
    destruct (position cols label); [discriminate|].
    intros _. rewrite IH by reflexivity. reflexivity.
Qed.

Lemma position_injective (cols : list str) (a b : str) (i : nat) :
  position cols a = Some i -> position cols b = Some i -> a = b.
Proof.
  revert i. induction cols as [|c cols IH]; intros i; simpl; [discriminate|].
  destruct (bool_decide_reflect (c = a)) as [Ea|Na];
    destruct (bool_decide_reflect (c = b)) as [Eb|Nb].
  - congruence.
  - intros H. injection H as <-.
    destruct (position cols b); discriminate.
  - destruct (position cols a); [|discriminate].
    intros H1 H2. injection H2 as <-. discriminate.
  - destruct (position cols a) as [j|]; [|discriminate].
    destruct (position cols b) as [k|]; [|discriminate].
    intros H1 H2. injection H1 as <-. injection H2 as E.
    apply (IH j); [reflexivity | f_equal; lia].
Qed.

Lemma replace_nth_length (i : nat) (v : cell) (row : list cell) :
  List.length (replace_nth i v row) = List.length row.
Proof.
  revert i. induction row as [|c row IH]; intros [|i]; simpl; auto.
Qed.

Lemma replace_nth_same (i : nat) (v d : cell) (row : list cell) :
  (i < List.length row)%nat -> nth i (replace_nth i v row) d = v.
Proof.
  revert i. induction row as [|c row IH]; intros [|i] H; simpl in *; try lia.
  - reflexivity.
  - apply IH. lia.
Qed.

Lemma replace_nth_other (i j : nat) (v d : cell) (row : list cell) :
  i <> j -> nth j (replace_nth i v row) d = nth j row d.
Proof.
  revert i j. induction row as [|c row IH]; intros [|i] [|j] H; simpl; try reflexivity.
  - contradiction.
  - apply IH. lia.
Qed.

(** The rows of the frame after [df[label] = value_of(row)]. *)
Definition assign (df : dataframe) (label : str) (value_of : list cell -> cell)
  (row : list cell) : list cell :=
  match position (columns df) label with
  | Some i => replace_nth i (value_of row) row
  | None => row ++ [value_of row]
  end.

Lemma set_column_rows (df : dataframe) (label : str) (value_of : list cell -> cell) :
  rows (set_column df label value_of) = map (assign df label value_of) (rows df).
Proof.
  unfold set_column, assign. destruct (position (columns df) label); reflexivity.
Qed.

Lemma set_column_well_formed (df : dataframe) (label : str)
  (value_of : list cell -> cell) :
  well_formed df -> well_formed (set_column df label value_of).
Proof.
  unfold well_formed. rewrite set_column_rows. intros [Hnd H]. split.
  - unfold set_column.
    destruct (position (columns df) label) eqn:E; simpl; [exact Hnd|].
    rewrite <- (rev_involutive (columns df ++ [label])).
    apply List.NoDup_rev. rewrite rev_app_distr. simpl.
    constructor; [|apply List.NoDup_rev, Hnd].
    intros Hin. apply in_rev in Hin. exact (position_absent _ _ E Hin).
  - apply Forall_map. apply (Forall_impl _ _ _ H). clear H.
    intros row Hrow. unfold assign, set_column.
    destruct (position (columns df) label); simpl.
    + rewrite replace_nth_length. exact Hrow.
    + rewrite !length_app. simpl. lia.
Qed.

(** Reading the assigned column gives the assigned value, and reading
    any other column gives what it held before. *)
Lemma set_column_get (df : dataframe) (label : str) (value_of : list cell -> cell)
  (row : list cell) :
  List.length row = List.length (columns df) ->
  (forall d, row_get (columns (set_column df label value_of))
               (assign df label value_of row) label d = value_of row)
  /\ (forall other d, other <> label ->
        row_get (columns (set_column df label value_of))
          (assign df label value_of row) other d
        = row_get (columns df) row other d).
Proof.
  intros Hlen. unfold row_get, assign, set_column.
  destruct (position (columns df) label) as [i|] eqn:Ei; simpl.
  - split.
    + intros d. rewrite Ei. apply replace_nth_same.
      pose proof (position_bound _ _ _ Ei). lia.
    + intros other d Hne. destruct (position (columns df) other) as [j|] eqn:Ej;
        [|reflexivity].
      apply replace_nth_other. intros E. subst j.
      apply Hne. symmetry. apply (position_injective _ _ _ _ Ei Ej).
  - split.
    + intros d. rewrite position_app_new by exact Ei.
      rewrite app_nth2 by lia. rewrite Hlen, Nat.sub_diag. reflexivity.
    + intros other d Hne. destruct (position (columns df) other) as [j|] eqn:Ej.
      * rewrite (position_app_found _ _ _ _ Ej). apply app_nth1.
        pose proof (position_bound _ _ _ Ej). lia.
      * rewrite position_app_other by (auto; congruence). reflexivity.
Qed.

(** [df'] is [df] with constant columns [assigned] set, in rows that
    correspond through [g]. *)
Definition tagged (df df' : dataframe) (g : list cell -> list cell)
  (assigned : list (str * cell)) : Prop :=
  rows df' = map g (rows df)
  /\ forall row, In row (rows df) ->
       (forall l v d, In (l, v) assigned ->
                      row_get (columns df') (g row) l d = v)
       /\ (forall l d, ~ In l (map fst assigned) ->
                       row_get (columns df') (g row) l d
                       = row_get (columns df) row l d).

Lemma tagged_init (df : dataframe) : tagged df df (fun row => row) [].
Proof.
  split; [symmetry; apply map_id|]. intros row _. split.
  - intros l v d [].
  - reflexivity.
Qed.

Lemma tagged_step (df df' : dataframe) (g : list cell -> list cell)
  (assigned : list (str * cell)) (label : str) (v : cell) :
  well_formed df' -> tagged df df' g assigned ->
  ~ In label (map fst assigned) ->
  tagged df (set_constant df' label v)
    (fun row => assign df' label (fun _ => v) (g row))
    ((label, v) :: assigned).
Proof.
  intros Hwf [Hrows Hget] Hfresh. unfold set_constant. split.
  - rewrite set_column_rows, Hrows, map_map. reflexivity.
  - intros row Hin.
    assert (Hlen : List.length (g row) = List.length (columns df')).
    { destruct Hwf as [_ Hwf]. rewrite List.Forall_forall in Hwf. apply Hwf.
      rewrite Hrows. apply in_map. exact Hin. }
    destruct (set_column_get df' label (fun _ => v) (g row) Hlen) as [Hsame Hother].
    destruct (Hget row Hin) as [Hold Hrest]. split.
    + intros l x d [E|Hin'].
      * injection E as <- <-. apply Hsame.
      * assert (Hne : l <> label).
        { intros ->. apply Hfresh. apply (in_map fst) in Hin'. exact Hin'. }
        rewrite Hother by exact Hne. apply (Hold l x d Hin').
    + intros l d Hnot. simpl in Hnot.
      rewrite Hother by (intros ->; apply Hnot; left; reflexivity).
      apply Hrest. intros Hl. apply Hnot. right. exact Hl.
Qed.

(** The columns that a write adds. *)
Definition source_columns (self : processor) (clk : clock) (filename : str)
  : list (str * cell) :=
  [ (lit "tempo_processamento_llm_segundos", total_processing_time self);
    (lit "modelo_llm_usado", model_used self);
    (lit "Arquivo", CStr filename);
    (lit "data_insercao", CStr (stamp_sql clk));
    (lit "fonte_arquivo", CStr filename) ].

(** X15. The frame that a write stores is the written frame, row by row,
    with the five source columns set: every row names the file it
    came from, and no other column of any row is changed. *)
Theorem stored_rows_are_tagged (self : processor) (clk : clock) (filename : str)
  (df : dataframe) :
  well_formed df ->
  let stored := add_source_columns self clk filename df in
  well_formed stored
  /\ exists g,
       rows stored = map g (rows df)
       /\ forall row, In row (rows df) ->
            (forall l v d, In (l, v) (source_columns self clk filename) ->
                           row_get (columns stored) (g row) l d = v)
            /\ (forall l d, ~ In l (map fst (source_columns self clk filename)) ->
                            row_get (columns stored) (g row) l d
                            = row_get (columns df) row l d).
Proof.
  intros Hwf stored. subst stored. unfold add_source_columns.
  set (d1 := set_constant df (lit "fonte_arquivo") (CStr filename)).
  set (d2 := set_constant d1 (lit "data_insercao") (CStr (stamp_sql clk))).
  set (d3 := set_constant d2 (lit "Arquivo") (CStr filename)).
  set (d4 := set_constant d3 (lit "modelo_llm_usado") (model_used self)).
  assert (W1 : well_formed d1) by (apply set_column_well_formed, Hwf).
  assert (W2 : well_formed d2) by (apply set_column_well_formed, W1).
  assert (W3 : well_formed d3) by (apply set_column_well_formed, W2).
  assert (W4 : well_formed d4) by (apply set_column_well_formed, W3).
  split; [apply set_column_well_formed, W4|].
  pose proof (tagged_step df df _ [] (lit "fonte_arquivo") (CStr filename)
                Hwf (tagged_init df) ltac:(simpl; tauto)) as T1.
  fold d1 in T1.
  pose proof (tagged_step df d1 _ _ (lit "data_insercao") (CStr (stamp_sql clk))
                W1 T1 ltac:(simpl; intros [E|[]]; discriminate E)) as T2.
  fold d2 in T2.
  pose proof (tagged_step df d2 _ _ (lit "Arquivo") (CStr filename)
                W2 T2 ltac:(simpl; intros [E|[E|[]]]; discriminate E)) as T3.
  fold d3 in T3.
  pose proof (tagged_step df d3 _ _ (lit "modelo_llm_usado") (model_used self)
                W3 T3 ltac:(simpl; intros [E|[E|[E|[]]]]; discriminate E)) as T4.
  fold d4 in T4.
  pose proof (tagged_step df d4 _ _ (lit "tempo_processamento_llm_segundos")
                (total_processing_time self)
                W4 T4 ltac:(simpl; intros [E|[E|[E|[E|[]]]]]; discriminate E)) as T5.
  eexists. exact T5.
Qed.

(** A frame of two rows, written by the example processor. *)
Definition two_funds : dataframe :=
  {| columns := [lit "empresa"; lit "valor"];
     rows := [ [CStr (lit "ACME"); CInt 100]; [CStr (lit "Beta"); CInt 250] ] |}.

Lemma two_funds_well_formed : well_formed two_funds.
Proof.
  split.
  - repeat constructor; simpl; intuition discriminate.
  - repeat constructor.
Qed.

Lemma stored_rows_are_tagged_witness :
  well_formed two_funds
  /\ add_source_columns SnapshotFacts.example_processor
       CashflowFacts.example_clock (lit "relatorio.pdf") two_funds
     = {| columns := [lit "empresa"; lit "valor"; lit "fonte_arquivo";
                      lit "data_insercao"; lit "Arquivo"; lit "modelo_llm_usado";
                      lit "tempo_processamento_llm_segundos"];
          rows := [ [CStr (lit "ACME"); CInt 100; CStr (lit "relatorio.pdf");
                     CStr (lit "2025-01-01 12:00:00"); CStr (lit "relatorio.pdf");
                     CStr (lit "modelo_nao_identificado"); CInt 0];
                    [CStr (lit "Beta"); CInt 250; CStr (lit "relatorio.pdf");
                     CStr (lit "2025-01-01 12:00:00"); CStr (lit "relatorio.pdf");
                     CStr (lit "modelo_nao_identificado"); CInt 0] ] |}
  /\ well_formed (add_source_columns SnapshotFacts.example_processor
                    CashflowFacts.example_clock (lit "relatorio.pdf") two_funds).
Proof.
  split; [exact two_funds_well_formed|]. split; [vm_compute; reflexivity|].
  exact (proj1 (stored_rows_are_tagged SnapshotFacts.example_processor
                  CashflowFacts.example_clock (lit "relatorio.pdf") two_funds
                  two_funds_well_formed)).
Defined.

End FrameFacts.

(** ** More on the snapshots *)

Module DeltaFacts.
Import PyStr PyStrFacts Tables Snapshot CashflowFacts SnapshotFacts.

(** *** What one write returns and touches *)


Lemma save_delta_table_info (lib : pylib) (clk : clock) (self : processor)
  (w : world) (df : dataframe) (table_name : str) :
  fst (save_delta_table_to_s3 lib clk self w df table_name)
  = if s3_client self then s3_uri self (delta_prefix self table_name)
    else S3_NOT_CONFIGURED.
Proof.
  unfold save_delta_table_to_s3. destruct (s3_client self); reflexivity.
Qed.

Lemma manifest_key_under_prefix (self : processor) (table_name : str) :
  startswith (manifest_key self table_name) (delta_prefix self table_name) = true.
Proof. apply startswith_app. eexists. reflexivity. Qed.

(** *** The steps of [generate_and_save_delta_tables_to_s3] *)



(** *** Without an S3 client *)

Lemma save_primary_no_client (lib : pylib) (clk : clock) (self : processor)
  (filename : str) (delta : dataframe) (table_name result_key : str)
  (p : progress) :
  s3_client self = false ->
  save_primary lib clk self filename delta table_name result_key p
  = if negb (df_empty delta)
    then (fst p ++ [(result_key, S3_NOT_CONFIGURED)], snd p) else p.
Proof.
  intros Hno. destruct p as [delta_files w]. unfold save_primary.
  destruct (negb (df_empty delta)); [|reflexivity].
  unfold save_or_append_delta_table_to_s3. rewrite Hno. reflexivity.
Qed.

Lemma save_analytical_no_client (lib : pylib) (clk : clock) (self : processor)
  (delta : dataframe) (delta_filename result_key : str) (p : progress) :
  s3_client self = false ->
  save_analytical lib clk self delta delta_filename result_key p
  = if negb (df_empty delta)
    then (fst p ++ [(result_key, S3_NOT_CONFIGURED)], snd p) else p.
Proof.
  intros Hno. destruct p as [delta_files w]. unfold save_analytical.
  destruct (negb (df_empty delta)); [|reflexivity].
  unfold save_delta_table_to_s3. rewrite Hno. reflexivity.
Qed.

(** X16. Without an S3 client the snapshot step writes nothing at all, neither
    to the bucket nor to the catalog nor to local files, and every entry
    of its result is the message that S3 is not configured. *)
Theorem snapshots_need_the_s3_client (lib : pylib) (clk : clock)
  (self : processor) (w : world) (tables_data : tables) (filename : str) :
  s3_client self = false ->
  let r := generate_and_save_delta_tables_to_s3 lib clk self w tables_data
             filename in
  snd r = w /\ forall k v, In (k, v) (fst r) -> v = S3_NOT_CONFIGURED.
Proof.
  intros Hno r. subst r.
  apply (generate_ind
           (fun p => snd p = w
                     /\ forall k v, In (k, v) (fst p) -> v = S3_NOT_CONFIGURED)).
  - split; [reflexivity | intros k v []].
  - intros p delta table_name result_key [Hw Hall].
    rewrite save_primary_no_client by exact Hno.
    destruct (negb (df_empty delta)); [|auto]. simpl. split; [exact Hw|].
    intros k v Hin. apply in_app_or in Hin as [Hin|[E|[]]]; [eauto|congruence].
  - intros p delta name result_key [Hw Hall].
    rewrite save_analytical_no_client by exact Hno.
    destruct (negb (df_empty delta)); [|auto]. simpl. split; [exact Hw|].
    intros k v Hin. apply in_app_or in Hin as [Hin|[E|[]]]; [eauto|congruence].
Qed.

(** A processor without clients, and tables with two funds. *)
Definition offline_processor : processor :=
  {| s3_client := false;
     glue_client := false;
     bucket_name := lit "dl-landing-zone-ca-central-1-stage";
     s3_folder := lit "chathib-prod";
     processing_metrics := None |}.

Definition funds_only : tables :=
  [ (lit "investimento_financeiro", rows_frame 2) ].

Lemma snapshots_need_the_s3_client_witness :
  s3_client offline_processor = false
  /\ snd (generate_and_save_delta_tables_to_s3 example_lib example_clock
            offline_processor after_first_write funds_only (lit "relatorio.pdf"))
     = after_first_write
  /\ fst (generate_and_save_delta_tables_to_s3 example_lib example_clock
            offline_processor after_first_write funds_only (lit "relatorio.pdf"))
     = [(lit "delta_investimento", S3_NOT_CONFIGURED)].
Proof.
  split; [reflexivity|]. split; [|vm_compute; reflexivity].
  exact (proj1 (snapshots_need_the_s3_client example_lib example_clock
                  offline_processor after_first_write funds_only
                  (lit "relatorio.pdf") eq_refl)).
Defined.

(** *** The primary tables *)









(** *** The analytical tables *)

Lemma create_product_value_raises (lib : pylib) (clk : clock)
  (model_used total_processing_time : cell) (tables_data : tables)
  (filename : str) :
  has_key tables_data (lit "produtos_servicos") = true ->
  create_product_value_delta_table lib clk model_used total_processing_time
    tables_data filename = None.
Proof.
  unfold has_key, create_product_value_delta_table.
  destruct (get tables_data (lit "produtos_servicos")); [reflexivity|discriminate].
Qed.

(** With a [produtos_servicos] table among the extracted tables, the
    function stops at the analytical step or never reaches it. *)
Lemma generate_with_products (lib : pylib) (clk : clock)
  (self : processor) (w : world) (tables_data : tables) (filename : str) :
  has_key tables_data (lit "produtos_servicos") = true ->
  generate_and_save_delta_tables_to_s3 lib clk self w tables_data filename
  = if negb (has_data tables_data (lit "investimento_financeiro"))
       && negb (has_data tables_data (lit "renda_fixa"))
    then ([], w)
    else
      let p := if has_data tables_data (lit "investimento_financeiro")
               then save_primary lib clk self filename
                      (create_financial_delta_table lib clk tables_data filename)
                      (lit "investimento") (lit "delta_investimento") ([], w)
               else ([], w) in
      if has_data tables_data (lit "renda_fixa")
      then save_primary lib clk self filename
             (create_renda_fixa_delta_table lib clk tables_data filename)
             (lit "renda_fixa") (lit "delta_renda_fixa") p
      else p.
Proof.
  intros Hprod. unfold generate_and_save_delta_tables_to_s3.
  rewrite (create_product_value_raises _ _ _ _ _ _ Hprod), Hprod.
  destruct (_ && _); [reflexivity|]. cbv zeta.
  destruct (has_data tables_data (lit "investimento_financeiro")); simpl;
    [|reflexivity].
  destruct (has_values tables_data); [reflexivity|].
  rewrite andb_false_r. reflexivity.
Qed.

Lemma save_primary_keys (lib : pylib) (clk : clock) (self : processor)
  (filename : str) (delta : dataframe) (table_name result_key : str)
  (p : progress) (k v : str) :
  In (k, v) (fst (save_primary lib clk self filename delta table_name result_key p)) ->
  In (k, v) (fst p) \/ k = result_key.
Proof.
  destruct p as [delta_files w]. unfold save_primary.
  destruct (negb (df_empty delta)); [|auto].
  destruct (save_or_append_delta_table_to_s3 _ _ _ _ _ _ _) as [info w'].
  simpl. intros Hin. apply in_app_or in Hin as [Hin|[E|[]]]; [auto|].
  right. congruence.
Qed.

Lemma save_primary_outside (lib : pylib) (clk : clock) (self : processor)
  (filename : str) (delta : dataframe) (table_name result_key : str)
  (p : progress) (key : str) :
  startswith key (delta_prefix self table_name) = false ->
  s3 (snd (save_primary lib clk self filename delta table_name result_key p)) !! key
  = s3 (snd p) !! key.
Proof.
  intros Hout. destruct p as [delta_files w]. unfold save_primary.
  destruct (negb (df_empty delta)); [|reflexivity].
  pose proof (save_or_append_outside lib clk self w delta table_name filename key
                Hout) as H.
  destruct (save_or_append_delta_table_to_s3 _ _ _ _ _ _ _) as [info w'].
  exact H.
Qed.

(** X18. The lookup of a second frame for the products raises whenever the
    tables hold a [produtos_servicos] table, and the handler of the
    whole step ends the step there. So with such a table neither the
    product-value snapshot nor the cash-flow snapshot is ever produced:
    the result holds primary entries only, and no object outside the
    two primary tables changes. *)
Theorem product_table_blocks_analytical_snapshots (lib : pylib) (clk : clock)
  (self : processor) (w : world) (tables_data : tables) (filename : str) :
  has_key tables_data (lit "produtos_servicos") = true ->
  let r := generate_and_save_delta_tables_to_s3 lib clk self w tables_data
             filename in
  (forall k v, In (k, v) (fst r) ->
     k = lit "delta_investimento" \/ k = lit "delta_renda_fixa")
  /\ (forall key,
        startswith key (delta_prefix self (lit "investimento")) = false ->
        startswith key (delta_prefix self (lit "renda_fixa")) = false ->
        s3 (snd r) !! key = s3 w !! key).
Proof.
  intros Hprod r. subst r. rewrite (generate_with_products _ _ _ _ _ _ Hprod).
  destruct (_ && _); [split; [intros k v [] | reflexivity]|]. cbv zeta.
  split.
  - intros k v Hin.
    destruct (has_data tables_data (lit "renda_fixa"));
      [apply save_primary_keys in Hin as [Hin|E]; [|auto]|];
      (destruct (has_data tables_data (lit "investimento_financeiro"));
       [apply save_primary_keys in Hin as [[]|E]; auto | destruct Hin]).
  - intros key H1 H2.
    destruct (has_data tables_data (lit "renda_fixa"));
      [rewrite save_primary_outside by exact H2|];
      (destruct (has_data tables_data (lit "investimento_financeiro"));
       [rewrite save_primary_outside by exact H1|]); reflexivity.
Qed.

(** Funds, products, values and a schedule: everything the analytical
    tables would need. *)
Definition full_tables : tables :=
  [ (lit "investimento_financeiro", rows_frame 2);
    (lit "produtos_servicos", rows_frame 1);
    (lit "valores_contrato", example_values);
    (lit "cronograma_pagamentos", example_schedule) ].

Lemma product_table_witness :
  has_key full_tables (lit "produtos_servicos") = true
  /\ map fst (fst (generate_and_save_delta_tables_to_s3 example_lib example_clock
                     example_processor empty_world full_tables
                     (lit "relatorio.pdf")))
     = [lit "delta_investimento"]
  /\ s3 (snd (generate_and_save_delta_tables_to_s3 example_lib example_clock
                example_processor empty_world full_tables (lit "relatorio.pdf")))
       !! lit "chathib-prod/delta_datasets/relatorio_delta_fluxo_caixa_20250101120000/_delta_log/00000000000000000000.json"
     = None.
Proof.
  split; [reflexivity|]. split; [vm_compute; reflexivity|].
  destruct (product_table_blocks_analytical_snapshots example_lib example_clock
              example_processor empty_world full_tables (lit "relatorio.pdf")
              eq_refl) as [_ Hout].
  rewrite Hout; reflexivity.
Defined.

(** *** After a write *)




(** *** The manifest *)






End DeltaFacts.

(** ** Reading the text for the table extraction *)

Module ReaderFacts.
Import PyStr PyStrFacts Reader.

Definition gave_text (t : str) : bool :=
  match t with [] => false | _ => true end.

(** The entries that the loop adds for pages numbered from [n + 1]. *)
Fixpoint entries_from (n : Z) (texts : list str) : list page_entry :=
  match texts with
  | [] => []
  | t :: texts' =>
      (if gave_text t
       then [{| page := n + 1; text := t; char_count := len t |}] else [])
      ++ entries_from (n + 1) texts'
  end.

Lemma read_pages_texts (texts : list str) :
  forall n acc,
    read_pages n (map PageText texts) acc
    = inr (fst acc ++ concat (map (fun e => text e ++ [NL; NL]) (entries_from n texts)),
           snd acc ++ entries_from n texts).
Proof.
  induction texts as [|t texts IH]; intros n [ft es]; cbn [map read_pages entries_from].
  - simpl. rewrite !app_nil_r. reflexivity.
  - rewrite IH. destruct t as [|c t]; cbn [gave_text fst snd app].
    + reflexivity.
    + cbn [map concat text]. rewrite <- !app_assoc. simpl.
      rewrite <- !app_assoc. reflexivity.
Qed.

Lemma entries_from_spec (texts : list str) :
  forall n,
    map text (entries_from n texts) = List.filter gave_text texts
    /\ (forall e, In e (entries_from n texts) ->
          n + 1 <= page e /\ page e <= n + Z.of_nat (List.length texts)
          /\ nth_error texts (Z.to_nat (page e - n - 1)) = Some (text e)
          /\ char_count e = len (text e) /\ text e <> [])
    /\ (forall i j e e', (i < j)%nat ->
          nth_error (entries_from n texts) i = Some e ->
          nth_error (entries_from n texts) j = Some e' -> page e < page e').
Proof.
  induction texts as [|t texts IH]; intros n; cbn [entries_from List.filter].
  - split; [reflexivity|]. split; [intros e []|]. intros i j e e' _ Hi.
    destruct i; discriminate.
  - destruct (IH (n + 1)) as [Hmap [Hall Hinc]].
    assert (Hall' : forall e, In e (entries_from (n + 1) texts) ->
              n + 1 < page e /\ page e <= n + Z.of_nat (List.length (t :: texts))
              /\ nth_error (t :: texts) (Z.to_nat (page e - n - 1)) = Some (text e)
              /\ char_count e = len (text e) /\ text e <> []).
    { intros e He. destruct (Hall e He) as [H1 [H2 [H3 [H4 H5]]]].
      cbn [List.length]. rewrite Nat2Z.inj_succ.
      split; [lia|]. split; [lia|]. split; [|auto].
      replace (Z.to_nat (page e - n - 1)) with (S (Z.to_nat (page e - (n + 1) - 1)))
        by lia.
      exact H3. }
    destruct (gave_text t) eqn:Et; cbn [app map].
    + split; [rewrite Hmap; reflexivity|]. split.
      * intros e [<-|He].
        -- cbn [page text char_count List.length]. rewrite Nat2Z.inj_succ.
           split; [lia|]. split; [lia|].
           replace (n + 1 - n - 1) with 0 by lia. simpl.
           split; [reflexivity|]. split; [reflexivity|].
           destruct t; [discriminate Et | discriminate].
        -- destruct (Hall' e He) as [H1 H2]. split; [lia | exact H2].
      * intros i j e e' Hij Hi Hj. destruct j as [|j]; [lia|]. simpl in Hj.
        destruct i as [|i]; simpl in Hi.
        -- injection Hi as <-. apply nth_error_In in Hj.
           destruct (Hall' e' Hj) as [H1 _]. simpl. lia.
        -- apply (Hinc i j e e'); [lia | assumption | assumption].
    + split; [exact Hmap|]. split.
      * intros e He. destruct (Hall' e He) as [H1 H2]. split; [lia | exact H2].
      * exact Hinc.
Qed.

(** X21. When no page raises, the text read is the texts of the pages that
    gave text, each followed by a blank line and nothing stripped. A
    page without text gets no entry but keeps its number: the entries
    carry the original page numbers, in increasing order, and
    [page_count] counts every page. *)
Theorem reader_keeps_the_pages_with_text (is_encrypted : bool)
  (texts : list str) :
  exists entries,
    extract_text_from_pdf (Opened is_encrypted None (map PageText texts))
    = Read (concat (map (fun e => text e ++ [NL; NL]) entries)) entries
        (Z.of_nat (List.length texts))
        (len (concat (map (fun e => text e ++ [NL; NL]) entries)))
    /\ map text entries = List.filter gave_text texts
    /\ (forall e, In e entries ->
          1 <= page e /\ page e <= Z.of_nat (List.length texts)
          /\ nth_error texts (Z.to_nat (page e - 1)) = Some (text e)
          /\ char_count e = len (text e) /\ text e <> [])
    /\ (forall i j e e', (i < j)%nat ->
          nth_error entries i = Some e -> nth_error entries j = Some e' ->
          page e < page e').
Proof.
  exists (entries_from 0 texts).
  destruct (entries_from_spec texts 0) as [Hmap [Hall Hinc]].
  split; [|split; [exact Hmap|split; [|exact Hinc]]].
  - unfold extract_text_from_pdf.
    destruct is_encrypted; rewrite read_pages_texts, length_map; reflexivity.
  - intros e He. destruct (Hall e He) as [H1 [H2 [H3 H4]]].
    split; [lia|]. split; [lia|]. split; [|exact H4].
    replace (page e - 1) with (page e - 0 - 1) by lia. exact H3.
Qed.

Lemma read_pages_raises (texts : list str) (e : exn) (rest : list page_read) :
  forall n acc,
    read_pages n (map PageText texts ++ PageRaises e :: rest) acc = inl e.
Proof.
  induction texts as [|t texts IH]; intros n acc; cbn [map app read_pages].
  - reflexivity.
  - apply IH.
Qed.

(** X22. A page that raises fails the whole document: the result is the
    report of the first exception, the texts of the pages before it are
    not returned, and [process_pdf_with_table_extraction] answers with
    an error. *)
Theorem a_failing_page_fails_the_document (is_encrypted : bool)
  (texts : list str) (e : exn) (rest : list page_read) :
  extract_text_from_pdf
    (Opened is_encrypted None (map PageText texts ++ PageRaises e :: rest))
  = handle e
  /\ exists f,
       text_failure
         (extract_text_from_pdf
            (Opened is_encrypted None (map PageText texts ++ PageRaises e :: rest)))
       = Some f.
Proof.
  assert (E : extract_text_from_pdf
                (Opened is_encrypted None
                   (map PageText texts ++ PageRaises e :: rest))
              = handle e).
  { unfold extract_text_from_pdf.
    destruct is_encrypted; rewrite read_pages_raises; reflexivity. }
  split; [exact E|]. rewrite E. destruct e; simpl; eexists; reflexivity.
Qed.

(** X23. How a failure to read the text is typed. An [ImportError] is always
    a missing dependency. Any other exception whose message names
    PyCryptodome or AES is reported as an encrypted document, with the
    advice to remove the password; so is a failure of [decrypt], and so
    is any exception whose lower-cased message holds [crypt] or [aes].
    Every other exception is passed on with its message and without a
    type. *)
Theorem failures_to_read_are_typed :
  (forall m, exists error,
     text_failure (extract_text_from_pdf (Unopenable (ImportError m)))
     = Some {| error := error;
               solution := Some (lit "Execute: pip install PyCryptodome");
               error_type := Some (lit "dependency") |})
  /\ (forall m, names_the_cipher m = true ->
        option_map error_type
          (text_failure (extract_text_from_pdf (Unopenable (OtherError m))))
        = Some (Some (lit "encryption")))
  /\ (forall m ps, 
        option_map error_type
          (text_failure (extract_text_from_pdf (Opened true (Some m) ps)))
        = Some (Some (lit "encryption")))
  /\ (forall m, names_the_cipher m = false ->
        text_failure (extract_text_from_pdf (Unopenable (OtherError m)))
        = Some (if contains (lower m) (lit "crypt") || contains (lower m) (lit "aes")
                then {| error := m;
                        solution := Some (latin1 "PDF protegido por senha. Remova a proteção ou forneça a senha.");
                        error_type := Some (lit "encryption") |}
                else {| error := m; solution := None; error_type := None |})).
Proof.
  split; [|split; [|split]].
  - intros m. eexists. reflexivity.
  - intros m Hm. unfold extract_text_from_pdf, handle. rewrite Hm.
    vm_compute. reflexivity.
  - intros m ps. reflexivity.
  - intros m Hm. unfold extract_text_from_pdf, handle. rewrite Hm.
    unfold text_failure.
    destruct (contains (lower m) (lit "crypt") || contains (lower m) (lit "aes"));
      reflexivity.
Qed.

End ReaderFacts.

(** ** Storing a document *)

Module ServiceFacts.
Import PyStr PyStrFacts Chunker ChunkerFacts Service.

(** *** Dictionaries *)

Lemma dict_get_set_eq (d : dict) (k : str) (v : value) :
  dict_get (dict_set d k v) k = Some v.
Proof.
  induction d as [|[k' v'] d IH]; simpl.
  - rewrite bool_decide_eq_true_2 by reflexivity. reflexivity.
  - destruct (bool_decide_reflect (k' = k)) as [E|N]; simpl.
    + rewrite bool_decide_eq_true_2 by reflexivity. reflexivity.
    + rewrite bool_decide_eq_false_2 by exact N. exact IH.
Qed.

Lemma dict_get_set_ne (d : dict) (k k' : str) (v : value) :
  k <> k' -> dict_get (dict_set d k v) k' = dict_get d k'.
Proof.
  intros Hne. induction d as [|[k0 v0] d IH]; simpl.
  - rewrite bool_decide_eq_false_2 by exact Hne. reflexivity.
  - destruct (bool_decide_reflect (k0 = k)) as [E|N]; simpl.
    + subst k0. rewrite !bool_decide_eq_false_2 by exact Hne. reflexivity.
    + destruct (bool_decide_reflect (k0 = k')); [reflexivity | exact IH].
Qed.

(** A key of the second dictionary takes the value that was set last;
    any other key keeps the value of the first. *)
Lemma dict_get_update (d other : dict) (k : str) :
  dict_get (dict_update d other) k
  = match dict_get (rev other) k with
    | Some v => Some v
    | None => dict_get d k
    end.
Proof.
  unfold dict_update. revert d.
  induction other as [|[k' v'] other IH]; intros d; simpl.
  - reflexivity.
  - rewrite IH.
    assert (Hrev : forall l : dict,
               dict_get (l ++ [(k', v')]) k
               = match dict_get l k with
                 | Some v => Some v
                 | None => if bool_decide (k' = k) then Some v' else None
                 end).
    { induction l as [|[a b] l IHl]; simpl; [reflexivity|].
      destruct (bool_decide (a = k)); [reflexivity | exact IHl]. }
    rewrite Hrev. destruct (dict_get (rev other) k); [reflexivity|].
    destruct (bool_decide_reflect (k' = k)) as [E|N].
    + subst. apply dict_get_set_eq.
    + apply dict_get_set_ne, N.
Qed.

(** *** Decimal texts *)

Lemma lit_injective (a b : string) : lit a = lit b -> a = b.
Proof.
  intros H. unfold lit in H.
  rewrite <- (string_of_list_ascii_of_string a),
          <- (string_of_list_ascii_of_string b), H.
  reflexivity.
Qed.

Lemma int_str_injective (n m : Z) :
  Tables.int_str n = Tables.int_str m -> n = m.
Proof.
  intros H. apply lit_injective in H.
  assert (Hnn : forall z, Z.to_int z <> Decimal.Pos Decimal.Nil
                          /\ Z.to_int z <> Decimal.Neg Decimal.Nil).
  { intros [|p|p]; simpl; split; try discriminate;
      intros E; injection E as E; exact (Unsigned.to_uint_nonnil p E). }
  apply DecimalZ.to_int_inj.
  assert (Hs : Some (Z.to_int n) = Some (Z.to_int m)).
  { rewrite <- (NilZero.isi (Z.to_int n)) by apply Hnn.
    rewrite <- (NilZero.isi (Z.to_int m)) by apply Hnn.
    rewrite H. reflexivity. }
  congruence.
Qed.

(** *** The documents that are posted *)

Definition numbered_from (k : nat) (chunks : list str) : list (Z * str) :=
  combine (map Z.of_nat (seq k (List.length chunks))) chunks.

Lemma numbered_from_nth (chunks : list str) (k i : nat) (p : Z * str) :
  nth_error (numbered_from k chunks) i = Some p ->
  fst p = Z.of_nat (k + i) /\ nth_error chunks i = Some (snd p).
Proof.
  unfold numbered_from. revert k i.
  induction chunks as [|c chunks IH]; intros k i H; simpl in H.
  - destruct i; discriminate.
  - destruct i as [|i]; simpl in H.
    + injection H as <-. simpl. split; [f_equal; lia | reflexivity].
    + apply IH in H. destruct H as [H1 H2]. split; [rewrite H1; f_equal; lia | exact H2].
Qed.

Lemma numbered_from_snd (chunks : list str) (k : nat) :
  map snd (numbered_from k chunks) = chunks.
Proof.
  unfold numbered_from. revert k.
  induction chunks as [|c chunks IH]; intros k; simpl; [reflexivity|].
  f_equal. apply IH.
Qed.

Lemma add_document_chunks_texts (name : str) (chunks : list str) (metadata : dict) :
  map doc_text (add_document_chunks name chunks metadata) = chunks.
Proof.
  transitivity (map snd (numbered_from 0 chunks)); [|apply numbered_from_snd].
  unfold add_document_chunks, numbered_from. rewrite map_map.
  apply map_ext. intros [i c]. reflexivity.
Qed.

Lemma add_document_chunks_nth (name : str) (chunks : list str) (metadata : dict)
  (i : nat) (d : document) :
  nth_error (add_document_chunks name chunks metadata) i = Some d ->
  nth_error chunks i = Some (doc_text d)
  /\ chunk_id d = name ++ lit "_chunk_" ++ Tables.int_str (Z.of_nat i)
  /\ doc_metadata d
     = dict_update [ (lit "pdf_name", VStr name);
                     (lit "chunk_index", VInt (Z.of_nat i));
                     (lit "chunk_type", VStr (lit "text")) ]
                   metadata.
Proof.
  unfold add_document_chunks. intros H.
  rewrite nth_error_map in H.
  destruct (nth_error _ i) as [[j c]|] eqn:E; [|discriminate].
  apply (numbered_from_nth chunks 0 i) in E. simpl in E. destruct E as [-> Hc].
  injection H as <-. cbn [doc_text chunk_id doc_metadata]. auto.
Qed.

Lemma add_document_chunks_ids (name : str) (chunks : list str) (metadata : dict) :
  List.NoDup (map chunk_id (add_document_chunks name chunks metadata)).
Proof.
  apply (proj2 (List.NoDup_nth_error _)). intros i j Hi E.
  rewrite length_map in Hi.
  rewrite !nth_error_map in E.
  destruct (nth_error (add_document_chunks name chunks metadata) i) as [a|] eqn:Ea;
    [|apply nth_error_None in Ea; lia].
  destruct (nth_error (add_document_chunks name chunks metadata) j) as [b|] eqn:Eb;
    [|discriminate].
  apply add_document_chunks_nth in Ea as [_ [Ia _]].
  apply add_document_chunks_nth in Eb as [_ [Ib _]].
  simpl in E. injection E as E. rewrite Ia, Ib in E.
  apply app_inv_head in E. apply app_inv_head in E.
  apply int_str_injective in E. lia.
Qed.

(** *** [process_pdf_file] *)

Lemma strip_strip (s : str) : strip (strip s) = strip s.
Proof. apply strip_id; [apply strip_starts_clean | apply strip_ends_clean]. Qed.

(** Either the file cannot be read, or the extraction succeeds with a
    stripped text. *)
Lemma extraction_cases (doc : pdf) :
  (exists m, doc = Unreadable m
             /\ success (extract_text_from_pdf doc) = false
             /\ error (extract_text_from_pdf doc) = Some m)
  \/ (success (extract_text_from_pdf doc) = true
      /\ strip (full_text (extract_text_from_pdf doc))
         = full_text (extract_text_from_pdf doc)).
Proof.
  destruct doc as [m|ps].
  - left. exists m. repeat split.
  - right. unfold extract_text_from_pdf.
    destruct (extract_pages 0 ps ([], [])) as [text pages_info].
    cbn [success full_text]. split; [reflexivity | apply strip_strip].
Qed.

Definition sample_remote : remote :=
  {| post_succeeds := true;
     dynamo_available := false;
     put_succeeds := false;
     processing_date := lit "2024-05-01T10:00:00";
     indexed_at := lit "2024-05-01T10:00:01";
     created_at := lit "2024-05-01T10:00:02";
     processing_time := lit "2024-05-01T10:00:03";
     first_uuid := lit "0b0e7a52-1c1f-4c55-9a51-5d1c0f4d2a10";
     second_uuid := lit "7f3c2d7e-88a4-4e0b-b0a3-2f6d9e1c4b77" |}.

Definition sample_pdf : pdf :=
  Readable [Extracted (lit "Contrato de investimento"); Raised (lit "falha");
            Extracted (lit "Valor total: R$ 1.000,00")].

(** X24. With the sizes that [__init__] sets, [process_pdf_file] has four
    outcomes: the extraction error when the file cannot be read, "no
    extractable text" when the extracted text is empty, "could not
    store" when the POST to the ChromaDB service fails, and success
    otherwise. Nothing is sent before the POST, nothing is sent to
    DynamoDB when the POST fails, and the error "could not create
    chunks" is never returned. *)
Theorem processing_succeeds_exactly_when (env : remote) (doc : pdf)
  (pdf_path name : str) (user_id : option str) :
  let ex := extract_text_from_pdf doc in
  let r := process_pdf_file init_config env doc pdf_path name user_id in
  (exists m, doc = Unreadable m
             /\ r = (Failure (Reader.latin1 "Erro na extração: " ++ m), []))
  \/ (success ex = true /\ full_text ex = [] /\ r = (Failure NO_TEXT, []))
  \/ (success ex = true /\ full_text ex <> [] /\ post_succeeds env = false
      /\ fst r = Failure NOT_STORED
      /\ forall item ok, ~ In (PutItem item ok) (snd r))
  \/ (success ex = true /\ full_text ex <> [] /\ post_succeeds env = true
      /\ exists pdf_id stats saved n t,
           fst r = Success pdf_id stats true saved n t).
Proof.
  intros ex r. subst r ex. unfold process_pdf_file.
  destruct (extraction_cases doc) as [[m [-> [Hs He]]]|[Hs Hstrip]].
  - left. exists m. split; reflexivity.
  - right. rewrite Hs, Hstrip. cbn [negb].
    destruct (full_text (extract_text_from_pdf doc)) as [|c0 text0] eqn:Et.
    + left. repeat split.
    + right.
      pose proof (ChunkFacts.create_text_chunks_not_empty (c0 :: text0) name) as Hne.
      destruct (create_text_chunks init_config (c0 :: text0) name) as [|c cs];
        [contradiction|].
      unfold store_pdf_embeddings.
      destruct (post_succeeds env) eqn:Ep; cbn [negb].
      * right. repeat split; try discriminate.
        destruct user_id as [[|ch u]|]; try (repeat eexists; fail).
        destruct (save_pdf_metadata env (ch :: u) name _) as [id requests].
        repeat eexists.
      * left. repeat split; try discriminate.
        intros item ok [H|[]]. discriminate.
Qed.

(** X25. When [process_pdf_file] succeeds, it reports the metadata as
    saved in DynamoDB exactly when a non-empty user id was given, and
    then returns an identifier, whether or not DynamoDB is available
    and whether or not the item was put; an item is stored only when
    DynamoDB is available and [put_item] succeeds. *)
Theorem metadata_is_reported_saved_for_any_user (cfg : config) (env : remote)
  (doc : pdf) (pdf_path name : str) (user_id : option str)
  (pdf_id : option str) (stats : stats) (indexed saved : bool) (n : Z) (t : str) :
  let r := process_pdf_file cfg env doc pdf_path name user_id in
  fst r = Success pdf_id stats indexed saved n t ->
  saved = given user_id
  /\ (if given user_id
      then pdf_id = Some (if dynamo_available env && negb (put_succeeds env)
                          then second_uuid env else first_uuid env)
      else pdf_id = None)
  /\ indexed = true
  /\ n = chunks_created stats
  /\ ((exists item, In (PutItem item true) (snd r))
      <-> given user_id = true /\ dynamo_available env = true
          /\ put_succeeds env = true).
Proof.
  intros r. subst r. unfold process_pdf_file.
  destruct (negb (success (extract_text_from_pdf doc))); [discriminate|].
  destruct (strip (full_text (extract_text_from_pdf doc))); [discriminate|].
  destruct (create_text_chunks cfg _ name) as [|c cs]; [discriminate|].
  unfold store_pdf_embeddings.
  destruct (post_succeeds env); cbn [negb]; [|discriminate].
  destruct user_id as [[|ch u]|]; cbn [given].
  - cbn [fst snd]. intros H. injection H as <- <- <- <- <- <-.
    do 4 (split; [reflexivity|]).
    split; [intros [item [Hin|[]]]; discriminate | intros [Hg _]; discriminate].
  - unfold save_pdf_metadata.
    destruct (dynamo_available env), (put_succeeds env); cbn [negb andb fst snd];
      intros H; injection H as <- <- <- <- <- <-;
      do 4 (split; [reflexivity|]).
    + split; [intros _; repeat split|].
      intros _. eexists. right. left. reflexivity.
    + split; [|intros [_ [_ Hp]]; discriminate].
      intros [item [Hin|[Hin|[]]]]; discriminate.
    + split; [|intros [_ [Hd _]]; discriminate].
      intros [item [Hin|[]]]; discriminate.
    + split; [|intros [_ [Hd _]]; discriminate].
      intros [item [Hin|[]]]; discriminate.
  - cbn [fst snd]. intros H. injection H as <- <- <- <- <- <-.
    do 4 (split; [reflexivity|]).
    split; [intros [item [Hin|[]]]; discriminate | intros [Hg _]; discriminate].
Qed.

Lemma metadata_is_reported_saved_witness :
  let r := process_pdf_file init_config sample_remote sample_pdf
             (lit "/tmp/contrato.pdf") (lit "contrato.pdf") (Some (lit "user-1")) in
  dynamo_available sample_remote = false
  /\ exists pdf_id stats n t,
       fst r = Success pdf_id stats true true n t
       /\ ~ exists item, In (PutItem item true) (snd r).
Proof.
  cbv zeta. split; [reflexivity|].
  assert (H : exists pdf_id stats n t,
             fst (process_pdf_file init_config sample_remote sample_pdf
                    (lit "/tmp/contrato.pdf") (lit "contrato.pdf")
                    (Some (lit "user-1")))
             = Success pdf_id stats true true n t)
    by (vm_compute; repeat eexists).
  destruct H as [pdf_id [stats [n [t H]]]].
  exists pdf_id, stats, n, t. split; [exact H|].
  destruct (metadata_is_reported_saved_for_any_user init_config sample_remote
              sample_pdf (lit "/tmp/contrato.pdf") (lit "contrato.pdf")
              (Some (lit "user-1")) pdf_id stats true true n t H)
    as [_ [_ [_ [_ Hiff]]]].
  intros Hex. apply Hiff in Hex. destruct Hex as [_ [Hd _]]. discriminate Hd.
Defined.

(** The metadata of a posted document, for any values of the entries
    that [process_pdf_file] adds. *)
Lemma doc_metadata_lookup (name : str) (i : Z) (n t : value) (u : option value)
  (v1 v2 v3 v4 v5 v6 : value) :
  let base := [ (lit "pdf_name", VStr name); (lit "total_chunks", n);
                (lit "indexed_at", t) ] in
  let base := match u with
              | Some x => dict_set base (lit "user_id") x
              | None => base
              end in
  let m := dict_update [ (lit "pdf_name", VStr name);
                         (lit "chunk_index", VInt i);
                         (lit "chunk_type", VStr (lit "text")) ]
             (dict_update base
                [ (lit "page_count", v1); (lit "total_chars", v2);
                  (lit "total_words", v3); (lit "chunks_count", v4);
                  (lit "processing_date", v5); (lit "extraction_method", v6) ]) in
  dict_get m (lit "pdf_name") = Some (VStr name)
  /\ dict_get m (lit "chunk_index") = Some (VInt i)
  /\ dict_get m (lit "total_chunks") = Some n
  /\ dict_get m (lit "chunks_count") = Some v4
  /\ dict_get m (lit "user_id") = u.
Proof. destruct u; vm_compute; repeat split. Qed.

(** X26. Whatever [process_pdf_file] posts to the ChromaDB service goes to
    the collection [rag_documents] and holds one document per chunk, in
    the order of the chunks: document [i] carries the text of chunk
    [i], the identifier [<pdf_name>_chunk_<i>], which no other document
    of the request has, and metadata with the name of the PDF, the
    index [i], the number of chunks and, when a non-empty user id was
    given, that user id. *)
Theorem every_chunk_is_posted_under_its_own_id (cfg : config) (env : remote)
  (doc : pdf) (pdf_path name : str) (user_id : option str) :
  let r := process_pdf_file cfg env doc pdf_path name user_id in
  let chunks :=
    create_text_chunks cfg (full_text (extract_text_from_pdf doc)) name in
  forall collection documents ok,
    In (Post collection documents ok) (snd r) ->
    collection = lit "rag_documents"
    /\ ok = post_succeeds env
    /\ map doc_text documents = map chunk_text chunks
    /\ List.NoDup (map chunk_id documents)
    /\ forall i d, nth_error documents i = Some d ->
         chunk_id d = name ++ lit "_chunk_" ++ Tables.int_str (Z.of_nat i)
         /\ dict_get (doc_metadata d) (lit "pdf_name") = Some (VStr name)
         /\ dict_get (doc_metadata d) (lit "chunk_index")
            = Some (VInt (Z.of_nat i))
         /\ dict_get (doc_metadata d) (lit "total_chunks")
            = Some (VInt (Z.of_nat (List.length chunks)))
         /\ dict_get (doc_metadata d) (lit "chunks_count")
            = Some (VInt (Z.of_nat (List.length chunks)))
         /\ dict_get (doc_metadata d) (lit "user_id")
            = if given user_id then option_map VStr user_id else None.
Proof.
  intros r chunks collection documents ok H. subst r chunks.
  unfold process_pdf_file, store_pdf_embeddings in H.
  destruct (negb (success (extract_text_from_pdf doc))); [destruct H|].
  destruct (strip (full_text (extract_text_from_pdf doc))); [destruct H|].
  destruct (create_text_chunks cfg _ name) as [|c cs]; [destruct H|].
  set (chunks := c :: cs) in *.
  match type of H with
  | context [add_document_chunks name (map chunk_text chunks) ?m] =>
      set (meta := m) in *
  end.
  assert (Hpost : Post (lit "rag_documents")
                    (add_document_chunks name (map chunk_text chunks) meta)
                    (post_succeeds env)
                  = Post collection documents ok).
  { clearbody meta chunks. unfold save_pdf_metadata in H.
    destruct (post_succeeds env); cbn [negb] in H.
    - destruct user_id as [[|ch u]|]; cbn [snd app In] in H.
      + destruct H as [H|[]]. exact H.
      + destruct (dynamo_available env), (put_succeeds env);
          cbn [negb snd app In] in H;
          repeat (destruct H as [H|H]; [try discriminate H|]);
          try contradiction; exact H.
      + destruct H as [H|[]]. exact H.
    - cbn [snd In] in H. destruct H as [H|[]]. exact H. }
  clear H. injection Hpost as <- <- <-.
  split; [reflexivity|]. split; [reflexivity|].
  split; [apply add_document_chunks_texts|].
  split; [apply add_document_chunks_ids|].
  intros i d Hd. apply add_document_chunks_nth in Hd as [_ [Hid Hmeta]].
  split; [exact Hid|]. rewrite Hmeta. subst meta. rewrite !length_map.
  destruct user_id as [[|ch u]|]; cbn [given option_map].
  - pose proof (doc_metadata_lookup name (Z.of_nat i)
                  (VInt (Z.of_nat (List.length chunks)))
                  (VStr (indexed_at env)) None
                  (VInt (page_count (extract_text_from_pdf doc)))
                  (VInt (total_chars (extract_text_from_pdf doc)))
                  (VInt (total_words (extract_text_from_pdf doc)))
                  (VInt (Z.of_nat (List.length chunks)))
                  (VStr (processing_date env))
                  (VStr (lit "PyPDF2"))) as L.
    cbv beta iota zeta in L. exact L.
  - pose proof (doc_metadata_lookup name (Z.of_nat i)
                  (VInt (Z.of_nat (List.length chunks)))
                  (VStr (indexed_at env)) (Some (VStr (ch :: u)))
                  (VInt (page_count (extract_text_from_pdf doc)))
                  (VInt (total_chars (extract_text_from_pdf doc)))
                  (VInt (total_words (extract_text_from_pdf doc)))
                  (VInt (Z.of_nat (List.length chunks)))
                  (VStr (processing_date env))
                  (VStr (lit "PyPDF2"))) as L.
    cbv beta iota zeta in L. exact L.
  - pose proof (doc_metadata_lookup name (Z.of_nat i)
                  (VInt (Z.of_nat (List.length chunks)))
                  (VStr (indexed_at env)) None
                  (VInt (page_count (extract_text_from_pdf doc)))
                  (VInt (total_chars (extract_text_from_pdf doc)))
                  (VInt (total_words (extract_text_from_pdf doc)))
                  (VInt (Z.of_nat (List.length chunks)))
                  (VStr (processing_date env))
                  (VStr (lit "PyPDF2"))) as L.
    cbv beta iota zeta in L. exact L.
Qed.

Lemma every_chunk_is_posted_witness :
  let r := process_pdf_file init_config sample_remote sample_pdf
             (lit "/tmp/contrato.pdf") (lit "contrato.pdf") (Some (lit "user-1")) in
  exists documents,
    In (Post (lit "rag_documents") documents true) (snd r)
    /\ map doc_text documents
       = [lit "Contrato de investimento Valor total: R$ 1.000,00"]
    /\ List.NoDup (map chunk_id documents)
    /\ forall i d, nth_error documents i = Some d ->
         dict_get (doc_metadata d) (lit "user_id") = Some (VStr (lit "user-1")).
Proof.
  cbv zeta.
  assert (H : exists documents,
             In (Post (lit "rag_documents") documents true)
               (snd (process_pdf_file init_config sample_remote sample_pdf
                       (lit "/tmp/contrato.pdf") (lit "contrato.pdf")
                       (Some (lit "user-1")))))
    by (vm_compute; eexists; left; reflexivity).
  destruct H as [documents H]. exists documents. split; [exact H|].
  destruct (every_chunk_is_posted_under_its_own_id init_config sample_remote
              sample_pdf (lit "/tmp/contrato.pdf") (lit "contrato.pdf")
              (Some (lit "user-1")) _ _ _ H)
    as [_ [_ [Htexts [Hids Hdocs]]]].
  split; [rewrite Htexts; vm_compute; reflexivity|].
  split; [exact Hids|].
  intros i d Hd. destruct (Hdocs i d Hd) as [_ [_ [_ [_ [_ Hu]]]]]. exact Hu.
Defined.

(** *** [delete_pdf_data] and [reprocess_pdf] *)

(** X27. [delete_pdf_data] sends no request to ChromaDB or DynamoDB and
    reports success, with [chromadb_deleted] true, no errors and no
    DynamoDB metadata found; [reprocess_pdf] sends nothing either and
    always fails, asking for a new upload. *)
Theorem deleting_sends_no_request (pdf_name : str) (user_id : option str) :
  delete_pdf_data pdf_name user_id
  = ({| deleted := true; chromadb_deleted := true;
        dynamodb_metadata_found := false; errors := [];
        deletion_error := None |}, [])
  /\ snd (reprocess_pdf pdf_name user_id) = []
  /\ reprocessed (fst (reprocess_pdf pdf_name user_id)) = false
  /\ action_required (fst (reprocess_pdf pdf_name user_id))
     = Some (lit "upload_new_file").
Proof. repeat split. Qed.

End ServiceFacts.
